(** * Sudoku engine: a shallow embedding of [sudoku/sudoku.py]

    The Python program keeps a board as a list of row lists and mutates the
    rows in place ([board[row][col] = num]).  Rows are therefore objects of a
    store: a board is the list of the locations of its rows, and the store
    maps a location to the row's current contents.  The outer list of a
    board is never mutated by the program (no row is ever replaced, appended
    or deleted), so it is a plain value.  Cloning a board
    ([[row[:] for row in board]]) allocates fresh rows.

    Cell values are Python integers ([Z]); [0] is the empty cell.  Indices
    and the board size are natural numbers: every index the program passes
    is produced by [range] or is range-checked before use.  An index past
    the end of a list raises [IndexError], as in Python. *)

From stdpp Require Import gmap strings list fin_maps pretty.
From Stdlib Require Import ZArith Lia Sorted Ascii.

Local Open Scope Z_scope.
Local Open Scope nat_scope.

(** ** Results of Python calls *)

(** [OutOfFuel] is the recursion bound of the embedding running out, and
    [Dangling] a read of a row that was never allocated; neither is a Python
    behaviour, and neither arises on boards built by the program. *)
Inductive error := IndexError | TypeError | OutOfFuel | Dangling.

Inductive res (A : Type) : Type :=
  | Ok (a : A)
  | Err (e : error).
Arguments Ok {A} a.
Arguments Err {A} e.

Global Instance res_ret : MRet res := λ A a, Ok a.
Global Instance res_bind : MBind res := λ A B f m,
  match m with
  | Ok a => f a
  | Err e => Err e
  end.

(** ** The store of rows *)

Abbreviation loc := nat (only parsing).
Abbreviation heap := (gmap nat (list Z)) (only parsing).
Abbreviation bref := (list nat) (only parsing).

(** [board[r][c]] *)
Definition get (σ : heap) (board : bref) (r c : nat) : res Z :=
  match board !! r with
  | None => Err IndexError
  | Some l =>
      match σ !! l with
      | None => Err Dangling
      | Some row =>
          match row !! c with
          | None => Err IndexError
          | Some v => Ok v
          end
      end
  end.

(** [board[r][c] = v] *)
Definition set (σ : heap) (board : bref) (r c : nat) (v : Z) : res heap :=
  match board !! r with
  | None => Err IndexError
  | Some l =>
      match σ !! l with
      | None => Err Dangling
      | Some row =>
          if decide (c < length row) then Ok (<[l := <[c := v]> row]> σ)
          else Err IndexError
      end
  end.

(** [row[:]] and [[0 for _ in range(n)]]: a new row object. *)
Definition alloc (σ : heap) (row : list Z) : loc * heap :=
  let l := fresh (dom σ) in (l, <[l := row]> σ).
Arguments alloc : simpl never.

(** [[row[:] for row in board]] *)
Fixpoint clone (σ : heap) (board : bref) : res (bref * heap) :=
  match board with
  | [] => Ok ([], σ)
  | l :: board' =>
      match σ !! l with
      | None => Err Dangling
      | Some row =>
          let '(l', σ1) := alloc σ row in
          '(rest, σ2) ← clone σ1 board';
          Ok (l' :: rest, σ2)
      end
  end.

(** [[[0 for _ in range(size)] for _ in range(size)]] *)
Fixpoint zeros (σ : heap) (size n : nat) : bref * heap :=
  match n with
  | O => ([], σ)
  | S n' =>
      let '(l, σ1) := alloc σ (replicate size 0%Z) in
      let '(rest, σ2) := zeros σ1 size n' in
      (l :: rest, σ2)
  end.

(** ** Loops that return from inside their body *)

(** [for x in l: if f(x): return ...]: does some iteration hit the return? *)
Fixpoint for_any {A} (f : A → res bool) (l : list A) : res bool :=
  match l with
  | [] => Ok false
  | x :: l' => b ← f x; if b : bool then Ok true else for_any f l'
  end.

(** [for x in l: ... return y ...]: the value of the first return, if any. *)
Fixpoint for_first {A B} (f : A → res (option B)) (l : list A) : res (option B) :=
  match l with
  | [] => Ok None
  | x :: l' =>
      o ← f x;
      match o with
      | Some y => Ok (Some y)
      | None => for_first f l'
      end
  end.

(** [range(n)] is [seq 0 n]; [range(1, size + 1)] as cell values: *)
Definition nums (size : nat) : list Z := Z.of_nat <$> seq 1 size.

(** ** [find_empty_cell] and [is_valid] *)

Definition find_empty_cell (size : nat) (σ : heap) (board : bref)
  : res (option (nat * nat)) :=
  for_first (λ r,
    for_first (λ c,
      v ← get σ board r c;
      Ok (if (v =? 0)%Z then Some (r, c) else None))
      (seq 0 size))
    (seq 0 size).

Definition is_valid (size : nat) (σ : heap) (board : bref)
    (row col : nat) (value : Z) : res bool :=
  (* Check row *)
  hit ← for_any (λ c,
           v ← get σ board row c;
           Ok ((v =? value)%Z && negb (c =? col)))
         (seq 0 size);
  if hit : bool then Ok false else
  (* Check column *)
  hit ← for_any (λ r,
           v ← get σ board r col;
           Ok ((v =? value)%Z && negb (r =? row)))
         (seq 0 size);
  if hit : bool then Ok false else
  (* Check 3x3 subgrid *)
  let box_row_start := row - row mod 3 in
  let box_col_start := col - col mod 3 in
  hit ← for_any (λ r,
           for_any (λ c,
             v ← get σ board r c;
             Ok ((v =? value)%Z && negb ((r =? row) && (c =? col))))
             (seq box_col_start 3))
         (seq box_row_start 3);
  if hit : bool then Ok false else Ok true.

(** ** The [Sudoku] object *)

Record Sudoku := mkSudoku {
  size : nat;
  board : list nat;
  solution : option (list nat);
  original_puzzle : option (list nat)
}.

(** [__init__] *)
Definition init (σ : heap) (n : nat) : Sudoku * heap :=
  let '(b, σ1) := zeros σ n n in
  (mkSudoku n b None None, σ1).

(** ** [solve] *)

(** The candidate loop of [solve]; [rec] is the recursive call on the same
    board object. *)
Fixpoint solve_loop (n : nat) (rec : heap → res (bool * heap)) (brd : bref)
    (row col : nat) (cands : list Z) (σ : heap) : res (bool * heap) :=
  match cands with
  | [] => Ok (false, σ)
  | num :: cands' =>
      ok ← is_valid n σ brd row col num;
      if ok : bool then
        σ1 ← set σ brd row col num;
        '(solved, σ2) ← rec σ1;
        if solved : bool then Ok (true, σ2)
        else
          σ3 ← set σ2 brd row col 0%Z;   (* Backtrack *)
          solve_loop n rec brd row col cands' σ3
      else solve_loop n rec brd row col cands' σ
  end.

Fixpoint solve (fuel : nat) (self : Sudoku) (σ : heap) (board_arg : option bref)
  : res (bool * heap) :=
  match fuel with
  | O => Err OutOfFuel
  | S fuel' =>
      let brd := match board_arg with None => board self | Some b => b end in
      empty_cell ← find_empty_cell (size self) σ brd;
      match empty_cell with
      | None => Ok (true, σ)   (* Puzzle is solved *)
      | Some (row, col) =>
          solve_loop (size self) (λ σ', solve fuel' self σ' (Some brd))
            brd row col (nums (size self)) σ
      end
  end.

(** ** [_count_solutions] *)

Fixpoint count_loop (n : nat) (rec : heap → res (nat * heap)) (brd : bref)
    (row col : nat) (cands : list Z) (count : nat) (σ : heap) : res (nat * heap) :=
  match cands with
  | [] => Ok (count, σ)
  | num :: cands' =>
      ok ← is_valid n σ brd row col num;
      if ok : bool then
        σ1 ← set σ brd row col num;
        '(k, σ2) ← rec σ1;
        let count := count + k in
        σ3 ← set σ2 brd row col 0%Z;
        if 1 <? count then Ok (count, σ3)
        else count_loop n rec brd row col cands' count σ3
      else count_loop n rec brd row col cands' count σ
  end.

Fixpoint _count_solutions (fuel : nat) (self : Sudoku) (σ : heap)
    (board_arg : option bref) : res (nat * heap) :=
  match fuel with
  | O => Err OutOfFuel
  | S fuel' =>
      '(brd, σ) ← match board_arg with
                  | None => clone σ (board self)
                  | Some b => Ok (b, σ)
                  end;
      empty_cell ← find_empty_cell (size self) σ brd;
      match empty_cell with
      | None => Ok (1, σ)
      | Some (row, col) =>
          count_loop (size self) (λ σ', _count_solutions fuel' self σ' (Some brd))
            brd row col (nums (size self)) 0 σ
      end
  end.

(** The recursion of [solve], [_count_solutions] and [_fill_board] fills one
    cell of the [size]×[size] window per level, so [size * size + 1] levels
    are enough; the non-recursive callers pass this bound. *)
Definition depth (n : nat) : nat := S (n * n).

(** ** The random source *)

(** [random.shuffle] is an oracle: it takes the state of the generator and
    a list and returns the list in some order and the next state. *)
Section Random.
Variable rng : Type.
Variable shuffle : ∀ A : Type, rng → list A → list A * rng.

Fixpoint fill_loop (n : nat) (rec : rng → heap → res (bool * rng * heap))
    (brd : bref) (row col : nat) (cands : list Z) (g : rng) (σ : heap)
  : res (bool * rng * heap) :=
  match cands with
  | [] => Ok (false, g, σ)
  | num :: cands' =>
      ok ← is_valid n σ brd row col num;
      if ok : bool then
        σ1 ← set σ brd row col num;
        '(filled, g1, σ2) ← rec g σ1;
        if filled : bool then Ok (true, g1, σ2)
        else
          σ3 ← set σ2 brd row col 0%Z;
          fill_loop n rec brd row col cands' g1 σ3
      else fill_loop n rec brd row col cands' g σ
  end.

Fixpoint _fill_board (fuel : nat) (n : nat) (g : rng) (σ : heap) (brd : bref)
  : res (bool * rng * heap) :=
  match fuel with
  | O => Err OutOfFuel
  | S fuel' =>
      empty_cell ← find_empty_cell n σ brd;
      match empty_cell with
      | None => Ok (true, g, σ)
      | Some (row, col) =>
          let '(cands, g1) := shuffle Z g (nums n) in
          fill_loop n (λ g' σ', _fill_board fuel' n g' σ' brd) brd row col cands g1 σ
      end
  end.

Definition generate_board (self : Sudoku) (g : rng) (σ : heap)
  : res (Sudoku * rng * heap) :=
  let '(b, σ1) := zeros σ (size self) (size self) in
  let self := mkSudoku (size self) b (solution self) (original_puzzle self) in
  '(_, g1, σ2) ← _fill_board (depth (size self)) (size self) g σ1 (board self);
  '(sol, σ3) ← clone σ2 (board self);
  Ok (mkSudoku (size self) (board self) (Some sol) (original_puzzle self), g1, σ3).

Definition squares_to_remove (difficulty : string) : nat :=
  if String.eqb difficulty "easy" then 40
  else if String.eqb difficulty "medium" then 50
  else if String.eqb difficulty "hard" then 60
  else 40.

(** [[(r, c) for r in range(size) for c in range(size)]] *)
Definition all_cells (n : nat) : list (nat * nat) :=
  r ← seq 0 n; c ← seq 0 n; [(r, c)].

(** The removal loop of [generate_puzzle]; the result is the final
    [removed_count] and store. *)
Fixpoint remove_loop (self : Sudoku) (target : nat) (cells : list (nat * nat))
    (removed_count : nat) (σ : heap) : res (nat * heap) :=
  match cells with
  | [] => Ok (removed_count, σ)
  | (r, c) :: cells' =>
      if target <=? removed_count then Ok (removed_count, σ)   (* break *)
      else
        temp ← get σ (board self) r c;
        σ1 ← set σ (board self) r c 0%Z;
        (* Check if the puzzle still has a unique solution *)
        '(solutions, σ2) ← _count_solutions (depth (size self)) self σ1 None;
        if solutions =? 1 then remove_loop self target cells' (S removed_count) σ2
        else
          σ3 ← set σ2 (board self) r c temp;
          remove_loop self target cells' removed_count σ3
  end.

(** [generate_puzzle] returns [self.board]; the embedding returns the whole
    object, whose [board] is that result. *)
Definition generate_puzzle (self : Sudoku) (g : rng) (σ : heap) (difficulty : string)
  : res (Sudoku * rng * heap) :=
  '(self, g1, σ1) ← generate_board self g σ;
  let '(cells, g2) := shuffle (nat * nat)%type g1 (all_cells (size self)) in
  '(_, σ2) ← remove_loop self (squares_to_remove difficulty) cells 0 σ1;
  '(orig, σ3) ← clone σ2 (board self);
  Ok (mkSudoku (size self) (board self) (solution self) (Some orig), g2, σ3).

End Random.

(** ** The move of [play] *)

(** The branch [action == 'm'] of the game loop after the three numbers have
    been read: [row] and [col] are the numbers typed minus one.  The result
    is the store and the message printed, if any. *)
Definition make_move (self : Sudoku) (σ : heap) (row col val : Z)
  : res (heap * option string) :=
  if ((0 <=? row)%Z && (row <? Z.of_nat (size self))%Z
      && (0 <=? col)%Z && (col <? Z.of_nat (size self))%Z
      && (1 <=? val)%Z && (val <=? Z.of_nat (size self))%Z)%bool
  then
    orig ← match original_puzzle self with
           | None => Err TypeError
           | Some o => Ok o
           end;
    v ← get σ orig (Z.to_nat row) (Z.to_nat col);
    if negb (v =? 0)%Z then
      Ok (σ, Some "Cannot change the original puzzle numbers."%string)
    else
      ok ← is_valid (size self) σ (board self) (Z.to_nat row) (Z.to_nat col) val;
      if ok : bool then
        σ1 ← set σ (board self) (Z.to_nat row) (Z.to_nat col) val;
        Ok (σ1, None)
      else Ok (σ, Some "Invalid move. Try again."%string)
  else Ok (σ, Some "Invalid input. Please enter numbers between 1 and 9."%string).

(** The moves of one game, in order: what a run of the loop of [play] that
    only takes the action [m] does to the store. *)
Fixpoint play_moves (self : Sudoku) (σ : heap) (moves : list (Z * Z * Z))
  : res heap :=
  match moves with
  | [] => Ok σ
  | (row, col, val) :: moves' =>
      '(σ1, _) ← make_move self σ row col val;
      play_moves self σ1 moves'
  end.

(** ** [print_board] *)

(** The text [print_board] writes, when it returns.  A line ends with the
    newline character. *)
Definition nl : string := String (Ascii.ascii_of_nat 10) EmptyString.

(** [s.replace('0', '.')] *)
Fixpoint replace_zero (s : string) : string :=
  match s with
  | EmptyString => EmptyString
  | String a s' =>
      String (if Ascii.eqb a "0" then "."%char else a) (replace_zero s')
  end.

(** The inner loop over [j]; [str] of an integer is its decimal numeral,
    [pretty]. *)
Fixpoint print_cells (σ : heap) (brd : bref) (i : nat) (js : list nat) : res string :=
  match js with
  | [] => Ok ""%string
  | j :: js' =>
      let bar := if (j mod 3 =? 0) && negb (j =? 0) then "| "%string else ""%string in
      v ← get σ brd i j;
      rest ← print_cells σ brd i js';
      Ok (bar +:+ replace_zero (pretty v) +:+ " " +:+ rest)
  end.

(** The outer loop over [i]. *)
Fixpoint print_lines (n : nat) (σ : heap) (brd : bref) (rows : list nat) : res string :=
  match rows with
  | [] => Ok ""%string
  | i :: rows' =>
      let rule := if (i mod 3 =? 0) && negb (i =? 0)
                  then "- - - - - - - - - - -" +:+ nl else ""%string in
      line ← print_cells σ brd i (seq 0 n);
      rest ← print_lines n σ brd rows';
      Ok (rule +:+ line +:+ nl +:+ rest)
  end.

Definition print_board (self : Sudoku) (σ : heap) (board_arg : option bref)
  : res string :=
  let brd := match board_arg with None => board self | Some b => b end in
  print_lines (size self) σ brd (seq 0 (size self)).

(** ** The game loop of [play] *)

(** The contents of a board, row by row. *)
Fixpoint read_rows (σ : heap) (brd : bref) : res (list (list Z)) :=
  match brd with
  | [] => Ok []
  | l :: brd' =>
      match σ !! l with
      | None => Err Dangling
      | Some row => rest ← read_rows σ brd'; Ok (row :: rest)
      end
  end.

(** [self.board == self.solution]: equal lists of equal rows; [solution] is
    [None] before the first puzzle, and a list is not [None]. *)
Definition equals_solution (self : Sudoku) (σ : heap) : res bool :=
  match solution self with
  | None => Ok false
  | Some sol =>
      g1 ← read_rows σ (board self);
      g2 ← read_rows σ sol;
      Ok (bool_decide (g1 = g2))
  end.

(** What the player enters in one turn of the loop, after [lower()] and
    [int()]: the action, and for a move the three numbers as typed, or the
    fact that one of them was no number ([ValueError]). *)
Inductive event :=
  | Quit
  | NewGame (difficulty : string)
  | Check
  | Move (row col val : Z)
  | MoveBad
  | Unknown.

Inductive status := Running | Quitted | Won.

(** The check at the end of a turn; the result tells whether the loop
    breaks, with what was printed. *)
Definition win_check (self : Sudoku) (σ : heap) : res (bool * list string) :=
  cell ← find_empty_cell (size self) σ (board self);
  match cell with
  | Some _ => Ok (false, [])
  | None =>
      eq ← equals_solution self σ;
      if eq : bool then
        text ← print_board self σ None;
        Ok (true, [nl +:+ "Congratulations! You've solved the puzzle!"; text])
      else Ok (false, [])
  end.

Section Play.
Variable rng : Type.
Variable shuffle : ∀ A : Type, rng → list A → list A * rng.

(** One turn of the loop.  The result has the texts of the [print] calls of
    the turn, in order; the prompts of [input] are not part of it. *)
Definition play_step (self : Sudoku) (ρ : rng) (σ : heap) (e : event)
  : res (status * Sudoku * rng * heap * list string) :=
  text ← print_board self σ None;
  let shown := [nl +:+ "Current board:"; text] in
  match e with
  | Quit => Ok (Quitted, self, ρ, σ, shown ++ ["Thanks for playing!"%string])
  | _ =>
      '(self1, ρ1, σ1, out) ←
        match e with
        | NewGame difficulty =>
            '(self1, ρ1, σ1) ← generate_puzzle rng shuffle self ρ σ difficulty;
            Ok (self1, ρ1, σ1, [])
        | Check =>
            eq ← equals_solution self σ;
            Ok (self, ρ, σ,
                [if eq : bool
                 then "Congratulations! You've solved the puzzle correctly."%string
                 else "There are some errors on the board. Keep trying!"%string])
        | Move row col val =>
            '(σ1, msg) ← make_move self σ (row - 1) (col - 1) val;
            Ok (self, ρ, σ1, option_list msg)
        | MoveBad => Ok (self, ρ, σ, ["Invalid input. Please enter numbers."%string])
        | _ => Ok (self, ρ, σ, [])
        end;
      '(won, out') ← win_check self1 σ1;
      Ok (if won : bool then Won else Running, self1, ρ1, σ1, shown ++ out ++ out')
  end.

(** The loop on the turns the player takes; [Running] when the loop is
    waiting for the next input. *)
Fixpoint play_loop (self : Sudoku) (ρ : rng) (σ : heap) (events : list event)
  : res (status * Sudoku * rng * heap * list string) :=
  match events with
  | [] => Ok (Running, self, ρ, σ, [])
  | e :: events' =>
      '(st, self1, ρ1, σ1, out) ← play_step self ρ σ e;
      match st with
      | Running =>
          '(st', self2, ρ2, σ2, out') ← play_loop self1 ρ1 σ1 events';
          Ok (st', self2, ρ2, σ2, out ++ out')
      | _ => Ok (st, self1, ρ1, σ1, out)
      end
  end.

Definition play (self : Sudoku) (ρ : rng) (σ : heap) (difficulty : string)
    (events : list event) : res (status * Sudoku * rng * heap * list string) :=
  '(self1, ρ1, σ1) ← generate_puzzle rng shuffle self ρ σ difficulty;
  '(st, self2, ρ2, σ2, out) ← play_loop self1 ρ1 σ1 events;
  Ok (st, self2, ρ2, σ2, "Welcome to Sudoku!"%string :: out).

End Play.

(** * Specification vocabulary *)

(** Every cell of the [n]×[n] window of the board can be read. *)
Definition readable (n : nat) (σ : gmap nat (list Z)) (brd : list nat) : Prop :=
  ∀ r c, r < n → c < n → ∃ v, get σ brd r c = Ok v.

(** Row-major order on cells. *)
Definition before (r' c' r c : nat) : Prop := r' < r ∨ (r' = r ∧ c' < c).

Definition first_empty (n : nat) (σ : heap) (brd : bref) (r c : nat) : Prop :=
  r < n ∧ c < n ∧ get σ brd r c = Ok 0%Z ∧
  ∀ r' c', r' < n → c' < n → before r' c' r c → get σ brd r' c' ≠ Ok 0%Z.

Definition complete (n : nat) (σ : heap) (brd : bref) : Prop :=
  ∀ r c, r < n → c < n → get σ brd r c ≠ Ok 0%Z.

(** Cells that share a row, a column or a 3×3 box with [(row, col)]. *)
Definition peer (row col r c : nat) : Prop :=
  r = row ∨ c = col ∨ (r / 3 = row / 3 ∧ c / 3 = col / 3).

Definition conflict (n : nat) (σ : gmap nat (list Z)) (brd : list nat) (row col : nat) (value : Z) : Prop :=
  ∃ r c, r < n ∧ c < n ∧ (r, c) ≠ (row, col) ∧ peer row col r c ∧
         get σ brd r c = Ok value.

(** The specification's words: the box is b×b, b the square root of the
    size. *)
Definition box_size (n : nat) : nat := Nat.sqrt n.

Definition spec_peer (n row col r c : nat) : Prop :=
  r = row ∨ c = col ∨
  (r / box_size n = row / box_size n ∧ c / box_size n = col / box_size n).

Definition spec_conflict (n : nat) (σ : gmap nat (list Z)) (brd : list nat) (row col : nat) (value : Z) : Prop :=
  ∃ r c, r < n ∧ c < n ∧ (r, c) ≠ (row, col) ∧ spec_peer n row col r c ∧
         get σ brd r c = Ok value.

(** The value read at a cell, [0] when the read fails. *)
Definition val (σ : gmap nat (list Z)) (brd : list nat) (r c : nat) : Z :=
  match get σ brd r c with Ok v => v | Err _ => 0%Z end.

Definition row_hit σ brd row col value (c : nat) : bool :=
  (val σ brd row c =? value)%Z && negb (c =? col).
Definition col_hit σ brd row col value (r : nat) : bool :=
  (val σ brd r col =? value)%Z && negb (r =? row).
Definition box_hit σ brd row col value (r c : nat) : bool :=
  (val σ brd r c =? value)%Z && negb ((r =? row) && (c =? col)).

(** [is_valid] as one boolean expression over the cells read. *)
Definition is_valid_bool (n : nat) σ brd (row col : nat) (value : Z) : bool :=
  negb (existsb (row_hit σ brd row col value) (seq 0 n)
        || existsb (col_hit σ brd row col value) (seq 0 n)
        || existsb (λ r, existsb (box_hit σ brd row col value r)
                           (seq (col - col mod 3) 3))
             (seq (row - row mod 3) 3)).

(** A board with the given rows, allocated in order in [σ]. *)
Fixpoint load (σ : gmap nat (list Z)) (g : list (list Z)) : list nat * gmap nat (list Z) :=
  match g with
  | [] => ([], σ)
  | row :: g' =>
      let '(l, σ1) := alloc σ row in
      let '(rest, σ2) := load σ1 g' in
      (l :: rest, σ2)
  end.

(** A 4×4 grid with a single 1, outside the 2×2 box of [(0, 0)]. *)
Definition grid4 : list (list Z) :=
  [[0;0;0;0]; [0;0;0;0]; [0;0;1;0]; [0;0;0;0]]%Z.

(** [σ'] keeps every non-empty cell of the board as it is in [σ]. *)
Definition keeps_givens (brd : list nat) (σ σ' : gmap nat (list Z)) : Prop :=
  ∀ r c v, get σ brd r c = Ok v → v ≠ 0%Z → get σ' brd r c = Ok v.

(** The board a method works on: its argument, or [self.board] by default. *)
Definition board_of (self : Sudoku) (board_arg : option (list nat)) : list nat :=
  match board_arg with None => board self | Some b => b end.

(** ** Grids: the contents of a board *)

(** A grid is the value of a board at one moment: its rows, top to bottom. *)
Abbreviation grid := (list (list Z)) (only parsing).

(** The cell at [(r, c)], [0] outside the grid. *)
Definition cell (g : grid) (r c : nat) : Z :=
  default 0%Z (row ← g !! r; row !! c).

(** The grid with [(r, c)] set to [v]. *)
Definition upd (g : grid) (r c : nat) (v : Z) : grid :=
  alter (<[c := v]>) r g.

(** [n] rows of [n] cells. *)
Definition wfg (n : nat) (g : grid) : Prop :=
  length g = n ∧ ∀ r row, g !! r = Some row → length row = n.

(** The board object [brd] has distinct rows and its contents in [σ] are [g]. *)
Definition holds (σ : heap) (brd : bref) (g : grid) : Prop :=
  NoDup brd ∧ length brd = length g ∧
  ∀ r l row, brd !! r = Some l → g !! r = Some row → σ !! l = Some row.

(** [σ'] differs from [σ] at most at the rows of [brd]. *)
Definition frame (brd : bref) (σ σ' : heap) : Prop :=
  ∀ l, l ∉ brd → σ' !! l = σ !! l.

(** ** Valid, complete and solved grids *)

(** No row, column or 3×3 box holds the same non-empty value twice. *)
Definition valid (n : nat) (g : grid) : Prop :=
  ∀ r c r' c', r < n → c < n → r' < n → c' < n →
    (r', c') ≠ (r, c) → peer r c r' c' →
    cell g r c ≠ 0%Z → cell g r' c' ≠ cell g r c.

(** Every cell is [0] (empty) or a value [1..n]. *)
Definition inrange (n : nat) (g : grid) : Prop :=
  ∀ r c, r < n → c < n → (0 ≤ cell g r c ≤ Z.of_nat n)%Z.

Definition full (n : nat) (g : grid) : Prop :=
  ∀ r c, r < n → c < n → cell g r c ≠ 0%Z.

Definition solved (n : nat) (s : grid) : Prop :=
  wfg n s ∧ full n s ∧ valid n s ∧ inrange n s.

(** [s] has every non-empty cell of [g]. *)
Definition extends (n : nat) (g s : grid) : Prop :=
  ∀ r c, r < n → c < n → cell g r c ≠ 0%Z → cell s r c = cell g r c.

(** [s] is a valid completion of [g]. *)
Definition completion (n : nat) (g s : grid) : Prop :=
  solved n s ∧ extends n g s.

(** [value] is at a cell other than [(row, col)] of its row, column or box. *)
Definition gconflict (n : nat) (g : grid) (row col : nat) (value : Z) : Prop :=
  ∃ r c, r < n ∧ c < n ∧ (r, c) ≠ (row, col) ∧ peer row col r c ∧
         cell g r c = value.

(** ** Specifications of the searches *)

(** Every empty cell of [g] is in the list [L]; the length of such a list
    bounds the depth of the recursion. *)
Definition covers (n : nat) (g : grid) (L : list (nat * nat)) : Prop :=
  ∀ r c, r < n → c < n → cell g r c = 0%Z → (r, c) ∈ L.

(** What a backtracking search that returned [b] has done to the board. *)
Definition search_post (n : nat) (brd : bref) (g : grid) (σ : heap)
    (b : bool) (σ' : heap) : Prop :=
  frame brd σ σ' ∧
  if b then ∃ s, holds σ' brd s ∧ completion n g s
  else σ' = σ ∧ ∀ s, ¬ completion n g s.

(** ** Rows, columns and boxes *)

Definition row_cells (n r : nat) : list (nat * nat) := (λ c, (r, c)) <$> seq 0 n.
Definition col_cells (n c : nat) : list (nat * nat) := (λ r, (r, c)) <$> seq 0 n.

(** The cells of the box in box-row [br] and box-column [bc], for boxes of
    [b]×[b] cells. *)
Definition box_cells (b br bc : nat) : list (nat * nat) :=
  r ← seq (b * br) b; c ← seq (b * bc) b; [(r, c)].

(** The values a grid has at a list of cells. *)
Definition values (g : grid) (cells : list (nat * nat)) : list Z :=
  (λ rc, cell g rc.1 rc.2) <$> cells.

(** Every row, column and box is a permutation of [1..n]. *)
Definition units_are_permutations (n : nat) (s : grid) : Prop :=
  (∀ r, r < n → values s (row_cells n r) ≡ₚ nums n) ∧
  (∀ c, c < n → values s (col_cells n c) ≡ₚ nums n) ∧
  (∀ br bc, br < box_size n → bc < box_size n →
     values s (box_cells (box_size n) br bc) ≡ₚ nums n).

(** ** Counting completions *)

(** [k] tells how many grids satisfy [P], as far as the counter
    distinguishes: none, exactly one, or at least two. *)
Definition tally (P : grid → Prop) (k : nat) : Prop :=
  match k with
  | 0 => ∀ s, ¬ P s
  | 1 => ∃ s, P s ∧ ∀ s', P s' → s' = s
  | _ => ∃ s s', P s ∧ P s' ∧ s ≠ s'
  end.

(** ** Checking concrete grids *)

Definition peerb (row col r c : nat) : bool :=
  (r =? row) || (c =? col) || ((r / 3 =? row / 3) && (c / 3 =? col / 3)).

Definition wfgb (n : nat) (g : grid) : bool :=
  (length g =? n) && forallb (λ row, length row =? n) g.

Definition validb (n : nat) (g : grid) : bool :=
  forallb (λ p,
    forallb (λ q,
      bool_decide (q = p) || negb (peerb p.1 p.2 q.1 q.2)
      || (cell g p.1 p.2 =? 0)%Z
      || negb (cell g q.1 q.2 =? cell g p.1 p.2)%Z)
      (all_cells n))
    (all_cells n).

Definition inrangeb (n : nat) (g : grid) : bool :=
  forallb (λ p, (0 <=? cell g p.1 p.2)%Z && (cell g p.1 p.2 <=? Z.of_nat n)%Z)
    (all_cells n).

Definition fullb (n : nat) (g : grid) : bool :=
  forallb (λ p, negb (cell g p.1 p.2 =? 0)%Z) (all_cells n).

(** A solved grid, a puzzle with that solution, and grids that break the
    rules. *)
Definition solved9 : grid :=
  [[5;3;4;6;7;8;9;1;2]; [6;7;2;1;9;5;3;4;8]; [1;9;8;3;4;2;5;6;7];
   [8;5;9;7;6;1;4;2;3]; [4;2;6;8;5;3;7;9;1]; [7;1;3;9;2;4;8;5;6];
   [9;6;1;5;3;7;2;8;4]; [2;8;7;4;1;9;6;3;5]; [3;4;5;2;8;6;1;7;9]]%Z.

Definition puzzle9 : grid :=
  [[5;3;0;0;7;0;0;0;0]; [6;0;0;1;9;5;0;0;0]; [0;9;8;0;0;0;0;6;0];
   [8;0;0;0;6;0;0;0;3]; [4;0;0;8;0;3;0;0;1]; [7;0;0;0;2;0;0;0;6];
   [0;6;0;0;0;0;2;8;0]; [0;0;0;4;1;9;0;0;5]; [0;0;0;0;8;0;0;7;9]]%Z.

(** Every cell holds 1: complete, and no row, column or box is valid. *)
Definition ones9 : grid := replicate 9 (replicate 9 1%Z).

(** [solved9] with [(0, 0)] emptied and its value 5 put at [(1, 1)]: no
    value fits the empty cell. *)
Definition stuck9 : grid :=
  [[0;3;4;6;7;8;9;1;2]; [6;5;2;1;9;5;3;4;8]; [1;9;8;3;4;2;5;6;7];
   [8;5;9;7;6;1;4;2;3]; [4;2;6;8;5;3;7;9;1]; [7;1;3;9;2;4;8;5;6];
   [9;6;1;5;3;7;2;8;4]; [2;8;7;4;1;9;6;3;5]; [3;4;5;2;8;6;1;7;9]]%Z.

(** A Sudoku object whose board is a fresh copy of [g] in the empty store. *)
Definition object_of (n : nat) (g : grid) : Sudoku * heap :=
  let '(brd, σ) := load ∅ g in (mkSudoku n brd None None, σ).

(** ** Generated puzzles *)

(** The number of empty cells. *)
Definition empties (n : nat) (g : grid) : nat :=
  length (filter (λ p, cell g p.1 p.2 = 0%Z) (all_cells n)).

(** Emptying [(r, c)] leaves more than one completion. *)
Definition ambiguous (n : nat) (g : grid) (r c : nat) : Prop :=
  ∃ s1 s2, completion n (upd g r c 0%Z) s1 ∧ completion n (upd g r c 0%Z) s2 ∧
           s1 ≠ s2.

(** What the removal loop maintains: the board holds [g], the solution
    board holds the solved grid [s] and shares no row with the board, and
    [s] is the one completion of [g]. *)
Definition puzzle_inv (brd sol : bref) (s : grid) (σ : heap) (g : grid) : Prop :=
  holds σ brd g ∧ holds σ sol s ∧ (∀ l, l ∈ brd → l ∉ sol) ∧
  wfg 9 g ∧ solved 9 s ∧ extends 9 g s ∧ (∀ s', completion 9 g s' → s' = s).

(** What [generate_puzzle] leaves behind: the board holds the givens [gv],
    [solution] holds the solved grid [s], the one completion of [gv], and
    [original_puzzle] is a separate copy of the givens.  At most [target]
    cells are empty, and when fewer are, no further cell can be emptied
    without losing uniqueness. *)
Definition generated (target : nat) (self : Sudoku) (σ : heap) (gv s : grid) : Prop :=
  ∃ sol orig,
    size self = 9 ∧ solution self = Some sol ∧ original_puzzle self = Some orig ∧
    holds σ (board self) gv ∧ holds σ sol s ∧ holds σ orig gv ∧
    (∀ l, l ∈ board self → l ∉ orig) ∧
    wfg 9 gv ∧ solved 9 s ∧ extends 9 gv s ∧
    (∀ s', completion 9 gv s' → s' = s) ∧
    empties 9 gv ≤ target ∧
    (empties 9 gv < target →
     ∀ r c, r < 9 → c < 9 → cell gv r c ≠ 0%Z → ambiguous 9 gv r c).

(** During play: [original_puzzle] still holds the givens [gv], and the
    board holds a grid that has every given. *)
Definition locked_inv (self : Sudoku) (orig : bref) (gv : grid) (σ : heap) : Prop :=
  holds σ orig gv ∧ ∃ g, holds σ (board self) g ∧ wfg 9 g ∧ extends 9 gv g.

(** The random source that leaves every list in its order. *)
Definition no_shuffle (A : Type) (ρ : unit) (l : list A) : list A * unit := (l, ρ).

(** [Sudoku()] in the empty store. *)
Definition new_game : Sudoku * heap := init ∅ 9.

(** [s] comes no later than [s'] in the order of the solver: they are equal,
    or at the first cell, in row-major order, where they differ [s] has the
    smaller value. *)
Definition lex_le (n : nat) (s s' : grid) : Prop :=
  s = s' ∨
  ∃ r c, r < n ∧ c < n ∧ (cell s r c < cell s' r c)%Z ∧
         ∀ r' c', r' < n → c' < n → before r' c' r c → cell s r' c' = cell s' r' c'.

(** ** A game in progress *)

(** The state of a game on the puzzle with givens [gv] and solution [s],
    when the board holds [g]: [solution] and [original_puzzle] hold [s] and
    [gv] in rows of their own, the board has every given, its cells are
    [0..9] and it has no duplicate in a row, column or box; and [s] is the
    one completion of [gv]. *)
Definition playing (self : Sudoku) (σ : heap) (gv s g : grid) : Prop :=
  ∃ sol orig,
    size self = 9 ∧ solution self = Some sol ∧ original_puzzle self = Some orig ∧
    holds σ (board self) g ∧ holds σ sol s ∧ holds σ orig gv ∧
    (∀ l, l ∈ board self → l ∉ sol) ∧ (∀ l, l ∈ board self → l ∉ orig) ∧
    wfg 9 g ∧ wfg 9 gv ∧ solved 9 s ∧
    extends 9 gv g ∧ valid 9 g ∧ inrange 9 g ∧
    (∀ s', completion 9 gv s' → s' = s).

(** A game on [puzzle9] whose board holds [g], in the empty store. *)
Definition game_of (g : grid) : Sudoku * heap :=
  let '(brd, σ1) := load ∅ g in
  let '(sol, σ2) := load σ1 solved9 in
  let '(orig, σ3) := load σ2 puzzle9 in
  (mkSudoku 9 brd (Some sol) (Some orig), σ3).

Definition extendsb (n : nat) (g s : grid) : bool :=
  forallb (λ p, (cell g p.1 p.2 =? 0)%Z || (cell s p.1 p.2 =? cell g p.1 p.2)%Z)
    (all_cells n).

(** ** Printed text *)

(** Whether the character [a] occurs in [s]. *)
Fixpoint has_char (a : ascii) (s : string) : bool :=
  match s with
  | EmptyString => false
  | String b s' => Ascii.eqb a b || has_char a s'
  end.

(** The message of the action [c] on a board that equals the solution. *)
Definition check_passed : string :=
  "Congratulations! You've solved the puzzle correctly.".


(** * Theorems *)

(** ** The result monad and the loops *)

Lemma bind_Ok {A B} (m : res A) (f : A → res B) b :
  m ≫= f = Ok b ↔ ∃ a, m = Ok a ∧ f a = Ok b.
Proof.
  destruct m as [a|e]; simpl; split.
  - eauto.
  - by intros (a' & [= ->] & ?).
  - done.
  - by intros (? & ? & ?).
Qed.

Lemma for_first_seq {B} (f : nat → res (option B)) (s n : nat) :
  (∀ i, s ≤ i < s + n → ∃ o, f i = Ok o) →
  (∃ i y, s ≤ i < s + n ∧ f i = Ok (Some y) ∧
          (∀ j, s ≤ j < i → f j = Ok None) ∧
          for_first f (seq s n) = Ok (Some y))
  ∨ ((∀ i, s ≤ i < s + n → f i = Ok None) ∧ for_first f (seq s n) = Ok None).
Proof.
  revert s. induction n as [|n IH]; intros s Hf; simpl.
  - right. split; [lia | done].
  - destruct (Hf s ltac:(lia)) as [[y|] Hs]; rewrite Hs; simpl.
    + left. exists s, y. repeat split; try lia; try done.
    + destruct (IH (S s)) as [(i & y & Hi & Hy & Hlt & Hr)|[Hall Hr]].
      * intros i Hi. apply Hf. lia.
      * left. exists i, y. repeat split; try lia; try done.
        intros j Hj. destruct (decide (j = s)) as [->|]; [done|]. apply Hlt. lia.
      * right. split; [|done]. intros i Hi.
        destruct (decide (i = s)) as [->|]; [done|]. apply Hall. lia.
Qed.

Lemma find_empty_cell_cases n σ brd :
  readable n σ brd →
  (∃ r c, find_empty_cell n σ brd = Ok (Some (r, c)) ∧ first_empty n σ brd r c)
  ∨ (find_empty_cell n σ brd = Ok None ∧ complete n σ brd).
Proof.
  intros Hrd. unfold find_empty_cell.
  set (inner := λ r : nat, for_first (λ c : nat, v ← get σ brd r c;
                 Ok (if (v =? 0)%Z then Some (r, c) else None)) (seq 0 n)).
  assert (Hinner : ∀ r, r < n →
    (∃ c, c < n ∧ get σ brd r c = Ok 0%Z ∧ (∀ c', c' < c → get σ brd r c' ≠ Ok 0%Z)
          ∧ inner r = Ok (Some (r, c)))
    ∨ ((∀ c, c < n → get σ brd r c ≠ Ok 0%Z) ∧ inner r = Ok None)).
  { intros r Hr. unfold inner.
    set (body := λ c : nat, v ← get σ brd r c;
                 Ok (if (v =? 0)%Z then Some (r, c) else None)).
    assert (Hbody : ∀ c, c < n → ∃ v, get σ brd r c = Ok v ∧
               body c = Ok (if (v =? 0)%Z then Some (r, c) else None)).
    { intros c Hc. destruct (Hrd r c Hr Hc) as [v Hv]. exists v. split; [done|].
      unfold body. by rewrite Hv. }
    destruct (for_first_seq body 0 n) as [(c & y & Hc & Hy & Hlt & Hres)|[Hall Hres]].
    - intros c Hc. destruct (Hbody c ltac:(lia)) as (v & _ & ->). eauto.
    - left. destruct (Hbody c ltac:(lia)) as (v & Hv & Hb). rewrite Hb in Hy.
      destruct (Z.eqb_spec v 0); [|done]. injection Hy as <-. subst v.
      exists c. repeat split; try lia; try done.
      intros c' Hc' Hz. specialize (Hlt c' ltac:(lia)).
      destruct (Hbody c' ltac:(lia)) as (v' & Hv' & Hb'). rewrite Hb' in Hlt.
      rewrite Hz in Hv'. injection Hv' as <-. done.
    - right. split; [|done]. intros c Hc Hz. specialize (Hall c ltac:(lia)).
      destruct (Hbody c Hc) as (v' & Hv' & Hb'). rewrite Hb' in Hall.
      rewrite Hz in Hv'. injection Hv' as <-. done. }
  destruct (for_first_seq inner 0 n) as [(r & y & Hr & Hy & Hlt & Hres)|[Hall Hres]].
  - intros r Hr. destruct (Hinner r ltac:(lia)) as [(c & _ & _ & _ & ->)|[_ ->]]; eauto.
  - left. destruct (Hinner r ltac:(lia)) as [(c & Hc & Hz & Hbefore & Hi)|[_ Hi]];
      rewrite Hi in Hy; [|done]. injection Hy as <-.
    exists r, c. split; [done|]. repeat split; try lia; try done.
    intros r' c' Hr' Hc' [Hlt'|[-> Hlt']]; [|by apply Hbefore].
    specialize (Hlt r' ltac:(lia)).
    destruct (Hinner r' Hr') as [(c'' & _ & _ & _ & Hi')|[Hnz _]]; [congruence|].
    by apply Hnz.
  - right. split; [done|]. intros r c Hr Hc.
    specialize (Hall r ltac:(lia)).
    destruct (Hinner r Hr) as [(c'' & _ & _ & _ & Hi')|[Hnz _]]; [congruence|].
    by apply Hnz.
Qed.

Lemma first_empty_unique n σ brd r c r' c' :
  first_empty n σ brd r c → first_empty n σ brd r' c' → (r, c) = (r', c').
Proof.
  intros (Hr & Hc & Hz & Hb) (Hr' & Hc' & Hz' & Hb').
  destruct (decide (r < r')). { exfalso. apply (Hb' r c); unfold before; auto. }
  destruct (decide (r' < r)). { exfalso. apply (Hb r' c'); unfold before; auto. }
  assert (r = r') as -> by lia.
  destruct (decide (c < c')). { exfalso. apply (Hb' r' c); unfold before; auto. }
  destruct (decide (c' < c)). { exfalso. apply (Hb r' c'); unfold before; auto. }
  f_equal; lia.
Qed.

(** C9. On a board whose [n]×[n] window is readable, [find_empty_cell]
    returns; it returns [(r, c)] exactly when [(r, c)] holds [0] and no cell
    before it in row-major order does, and it returns [None] exactly when no
    cell of the board holds [0]. *)
Theorem find_empty_cell_row_major n σ brd :
  readable n σ brd →
  (∃ o, find_empty_cell n σ brd = Ok o) ∧
  (∀ r c, find_empty_cell n σ brd = Ok (Some (r, c)) ↔ first_empty n σ brd r c) ∧
  (find_empty_cell n σ brd = Ok None ↔ complete n σ brd).
Proof.
  intros Hrd.
  destruct (find_empty_cell_cases n σ brd Hrd) as [(r & c & Hf & Hfe)|[Hf Hc]].
  - split; [eauto|]. split.
    + intros r' c'. split.
      * rewrite Hf. by intros [= <- <-].
      * intros Hfe'. rewrite Hf. do 2 f_equal. by eapply first_empty_unique.
    + split; [by rewrite Hf|]. intros Hc. destruct Hfe as (Hr & Hc' & Hz & _).
      by destruct (Hc r c Hr Hc').
  - split; [eauto|]. split.
    + intros r c. split; [by rewrite Hf|].
      intros (Hr & Hc' & Hz & _). by destruct (Hc r c Hr Hc').
    + done.
Qed.

Lemma bind_ret {A B} (a : A) (f : A → res B) : Ok a ≫= f = f a.
Proof. reflexivity. Qed.

Lemma readable_val n σ brd r c :
  readable n σ brd → r < n → c < n → get σ brd r c = Ok (val σ brd r c).
Proof. intros H Hr Hc. destruct (H r c Hr Hc) as [v Hv]. unfold val. by rewrite Hv. Qed.

Lemma for_any_seq (f : nat → res bool) (p : nat → bool) (s n : nat) :
  (∀ i, s ≤ i < s + n → f i = Ok (p i)) →
  for_any f (seq s n) = Ok (existsb p (seq s n)).
Proof.
  revert s. induction n as [|n IH]; intros s Hf; simpl; [done|].
  rewrite (Hf s) by lia. simpl. destruct (p s); simpl; [done|].
  apply IH. intros i Hi. apply Hf. lia.
Qed.

Ltac divmod x :=
  pose proof (Nat.div_mod_eq x 3); pose proof (Nat.mod_upper_bound x 3 ltac:(lia)).

Lemma box_in_range n x i :
  n mod 3 = 0 → x < n → x - x mod 3 ≤ i < x - x mod 3 + 3 → i < n.
Proof. intros Hn Hx Hi. divmod x. divmod n. lia. Qed.

Lemma box_same x i : x - x mod 3 ≤ i < x - x mod 3 + 3 ↔ i / 3 = x / 3.
Proof. divmod x. divmod i. lia. Qed.

Lemma is_valid_eval n σ brd row col value :
  readable n σ brd → n mod 3 = 0 → row < n → col < n →
  is_valid n σ brd row col value = Ok (is_valid_bool n σ brd row col value).
Proof.
  intros Hrd Hn Hrow Hcol. unfold is_valid, is_valid_bool.
  set (a := existsb (row_hit σ brd row col value) (seq 0 n)).
  set (b := existsb (col_hit σ brd row col value) (seq 0 n)).
  set (d := existsb _ (seq (row - row mod 3) 3)).
  match goal with |- mbind _ (for_any ?f _) = _ =>
    rewrite (for_any_seq f (row_hit σ brd row col value) 0 n) end; last first.
  { intros c Hc. cbv beta. rewrite (readable_val n) by (done || lia). reflexivity. }
  rewrite bind_ret. fold a. destruct a; [done|].
  match goal with |- mbind _ (for_any ?f _) = _ =>
    rewrite (for_any_seq f (col_hit σ brd row col value) 0 n) end; last first.
  { intros r Hr. cbv beta. rewrite (readable_val n) by (done || lia). reflexivity. }
  rewrite bind_ret. fold b. destruct b; [done|].
  match goal with |- mbind _ (for_any ?f _) = _ =>
    rewrite (for_any_seq f (λ r, existsb (box_hit σ brd row col value r)
                                  (seq (col - col mod 3) 3))) end; last first.
  { intros r Hr. apply for_any_seq. intros c Hc. cbv beta.
    rewrite (readable_val n);
      [reflexivity|done|by apply (box_in_range n row)|by apply (box_in_range n col)]. }
  rewrite bind_ret. fold d. by destruct d.
Qed.

Lemma is_valid_bool_false n σ brd row col value :
  readable n σ brd → n mod 3 = 0 → row < n → col < n →
  is_valid_bool n σ brd row col value = false ↔ conflict n σ brd row col value.
Proof.
  intros Hrd Hn Hrow Hcol. unfold is_valid_bool.
  rewrite negb_false_iff, !orb_true_iff, !existsb_exists. split.
  - intros [[(c & Hc & Hhit)|(r & Hr & Hhit)]|(r & Hr & Hhit)].
    + apply in_seq in Hc. unfold row_hit in Hhit.
      apply andb_true_iff in Hhit as [Hv Hne].
      apply Z.eqb_eq in Hv. apply negb_true_iff, Nat.eqb_neq in Hne.
      exists row, c. repeat split; [lia|lia|congruence|by left|].
      rewrite (readable_val n) by (done || lia). by rewrite Hv.
    + apply in_seq in Hr. unfold col_hit in Hhit.
      apply andb_true_iff in Hhit as [Hv Hne].
      apply Z.eqb_eq in Hv. apply negb_true_iff, Nat.eqb_neq in Hne.
      exists r, col. repeat split; [lia|lia|congruence|by right; left|].
      rewrite (readable_val n) by (done || lia). by rewrite Hv.
    + apply existsb_exists in Hhit as (c & Hc & Hhit).
      apply in_seq in Hr, Hc. unfold box_hit in Hhit.
      apply andb_true_iff in Hhit as [Hv Hne].
      apply Z.eqb_eq in Hv. apply negb_true_iff, andb_false_iff in Hne.
      assert (r < n) by (by apply (box_in_range n row)).
      assert (c < n) by (by apply (box_in_range n col)).
      exists r, c. repeat split; [done|done| |right; right; split; by apply box_same|].
      * intros [= -> ->]. destruct Hne as [Hne|Hne]; by apply Nat.eqb_neq in Hne.
      * rewrite (readable_val n) by done. by rewrite Hv.
  - intros (r & c & Hr & Hc & Hne & Hpeer & Hget).
    assert (Hv : val σ brd r c = value) by (unfold val; by rewrite Hget).
    destruct (decide (r = row)) as [->|Hr'].
    { left; left. exists c. split; [apply in_seq; lia|].
      unfold row_hit. rewrite Hv, Z.eqb_refl. simpl.
      apply negb_true_iff, Nat.eqb_neq. congruence. }
    destruct (decide (c = col)) as [->|Hc'].
    { left; right. exists r. split; [apply in_seq; lia|].
      unfold col_hit. rewrite Hv, Z.eqb_refl. simpl.
      by apply negb_true_iff, Nat.eqb_neq. }
    destruct Hpeer as [?|[?|[Hbr Hbc]]]; [done|done|].
    right. exists r. split; [apply in_seq; by apply box_same|].
    apply existsb_exists. exists c. split; [apply in_seq; by apply box_same|].
    unfold box_hit. rewrite Hv, Z.eqb_refl. simpl.
    apply negb_true_iff, andb_false_iff. left. by apply Nat.eqb_neq.
Qed.

(** C2, as amended.  On a board whose size [n] is a multiple of 3 and whose
    [n]×[n] window is readable, for every cell [(row, col)] of the board and
    every value, [is_valid] returns, and it returns [False] exactly when the
    value is at a cell other than [(row, col)] of row [row], of column [col]
    or of the 3×3 aligned box of [(row, col)].  The box is 3×3 whatever the
    size; for [n = 9] this is the b×b box of the claim. *)
Theorem is_valid_sound n σ brd row col value :
  readable n σ brd → n mod 3 = 0 → row < n → col < n →
  (∃ b, is_valid n σ brd row col value = Ok b) ∧
  (is_valid n σ brd row col value = Ok false ↔ conflict n σ brd row col value).
Proof.
  intros Hrd Hn Hrow Hcol. rewrite (is_valid_eval n) by done. split; [eauto|].
  rewrite <- (is_valid_bool_false n) by done. split; [by intros [= ->]|by intros ->].
Qed.

(** On the 9×9 board the 3×3 box is the b×b box of the specification. *)
Lemma is_valid_sound_9 σ brd row col value :
  readable 9 σ brd → row < 9 → col < 9 →
  is_valid 9 σ brd row col value = Ok false ↔ spec_conflict 9 σ brd row col value.
Proof.
  intros Hrd Hrow Hcol. rewrite (is_valid_eval 9) by done.
  rewrite <- (is_valid_bool_false 9 σ brd row col value) by done.
  split; [by intros [= ->]|by intros ->].
Qed.

(** On a 4×4 board the check looks at a 3×3 box, not at the 2×2 one. *)
Lemma is_valid_box_counterexample :
  let '(brd, σ) := load ∅ grid4 in
  ¬ (is_valid 4 σ brd 0 0 1%Z = Ok false ↔ spec_conflict 4 σ brd 0 0 1%Z).
Proof.
  vm_compute load. intros [H _].
  destruct (H eq_refl) as (r & c & Hr & Hc & Hne & Hp & Hg).
  assert (r = 2 ∧ c = 2) as [-> ->].
  { do 4 (destruct r as [|r]; [do 4 (destruct c as [|c];
      [vm_compute in Hg; (discriminate || by split)|]); lia|]); lia. }
  unfold spec_peer in Hp. vm_compute in Hp. destruct Hp as [?|[?|[? ?]]]; discriminate.
Qed.

(** ** Reading and writing cells *)

Lemma get_Ok σ brd r c v :
  get σ brd r c = Ok v ↔
  ∃ l row, brd !! r = Some l ∧ σ !! l = Some row ∧ row !! c = Some v.
Proof.
  unfold get. split.
  - destruct (brd !! r) as [l|] eqn:Hl; [|done].
    destruct (σ !! l) as [row|] eqn:Hrow; [|done].
    destruct (row !! c) as [w|] eqn:Hw; [|done]. intros [= ->]. by exists l, row.
  - intros (l & row & -> & -> & ->). done.
Qed.

Lemma set_Ok σ brd r c v σ' :
  set σ brd r c v = Ok σ' ↔
  ∃ l row, brd !! r = Some l ∧ σ !! l = Some row ∧ c < length row ∧
           σ' = <[l := <[c := v]> row]> σ.
Proof.
  unfold set. split.
  - destruct (brd !! r) as [l|] eqn:Hl; [|done].
    destruct (σ !! l) as [row|] eqn:Hrow; [|done].
    case_decide; [|done]. intros [= <-]. by exists l, row.
  - intros (l & row & -> & -> & Hc & ->). by rewrite decide_True.
Qed.

Lemma set_undo σ brd r c v0 v σ1 :
  get σ brd r c = Ok v0 → set σ brd r c v = Ok σ1 → set σ1 brd r c v0 = Ok σ.
Proof.
  intros (l & row & Hl & Hrow & Hc)%get_Ok (l' & row' & Hl' & Hrow' & Hlen & ->)%set_Ok.
  simplify_eq. apply set_Ok. exists l, (<[c := v]> row).
  split_and!; [done|by rewrite lookup_insert_eq|by rewrite length_insert|].
  rewrite insert_insert_eq, list_insert_insert_eq, list_insert_id by done.
  by rewrite insert_id.
Qed.

Lemma set_keeps_givens σ brd r c v σ1 :
  get σ brd r c = Ok 0%Z → set σ brd r c v = Ok σ1 → keeps_givens brd σ σ1.
Proof.
  intros (l & row & Hl & Hrow & Hc)%get_Ok (l' & row' & Hl' & Hrow' & Hlen & ->)%set_Ok.
  simplify_eq. intros r' c' w (l' & row' & Hl' & Hrow' & Hc')%get_Ok Hw.
  apply get_Ok. destruct (decide (l' = l)) as [->|Hne].
  - simplify_eq. exists l, (<[c := v]> row).
    split_and!; [done|by rewrite lookup_insert_eq|].
    destruct (decide (c' = c)) as [->|]; [congruence|].
    by rewrite list_lookup_insert_ne.
  - exists l', row'. split_and!; [done| |done]. by rewrite lookup_insert_ne.
Qed.

Lemma keeps_givens_refl brd σ : keeps_givens brd σ σ.
Proof. by intros r c v. Qed.

Lemma keeps_givens_trans brd σ1 σ2 σ3 :
  keeps_givens brd σ1 σ2 → keeps_givens brd σ2 σ3 → keeps_givens brd σ1 σ3.
Proof. intros H12 H23 r c v Hg Hv. apply H23; [|done]. by apply H12. Qed.

Lemma for_first_sound {A B} (f : A → res (option B)) l y :
  for_first f l = Ok (Some y) → ∃ x, x ∈ l ∧ f x = Ok (Some y).
Proof.
  induction l as [|x l IH]; simpl; [done|].
  intros (o & Hx & Hrest)%bind_Ok. destruct o as [y'|].
  - simplify_eq. exists x. split; [left|done].
  - destruct (IH Hrest) as (x' & Hin & Hx'). exists x'. split; [by right|done].
Qed.

Lemma find_empty_cell_sound n σ brd r c :
  find_empty_cell n σ brd = Ok (Some (r, c)) →
  r < n ∧ c < n ∧ get σ brd r c = Ok 0%Z.
Proof.
  intros (r' & Hr' & Hin)%for_first_sound.
  apply for_first_sound in Hin as (c' & Hc' & Hcell).
  apply bind_Ok in Hcell as (v & Hv & Hcell).
  destruct (Z.eqb_spec v 0); [|done]. simplify_eq.
  apply elem_of_seq in Hr', Hc'. split_and!; [lia|lia|done].
Qed.

(** ** [solve] *)

Lemma solve_loop_false_restores n rec brd row col cands σ σ' :
  get σ brd row col = Ok 0%Z →
  (∀ σ1 σ2, rec σ1 = Ok (false, σ2) → σ2 = σ1) →
  solve_loop n rec brd row col cands σ = Ok (false, σ') → σ' = σ.
Proof.
  intros Hempty Hrec. induction cands as [|num cands IH]; simpl; [congruence|].
  intros (ok & Hok & H)%bind_Ok. destruct ok; [|by apply IH].
  apply bind_Ok in H as (σ1 & Hset & H).
  apply bind_Ok in H as ([solved σ2] & Hsol & H).
  destruct solved; [done|]. apply Hrec in Hsol as ->.
  apply bind_Ok in H as (σ3 & Hback & H).
  rewrite (set_undo _ _ _ _ _ _ _ Hempty Hset) in Hback. simplify_eq. by apply IH.
Qed.

Lemma solve_false_restores fuel self σ board_arg σ' :
  solve fuel self σ board_arg = Ok (false, σ') → σ' = σ.
Proof.
  revert σ board_arg σ'. induction fuel as [|fuel IH]; intros σ board_arg σ'; simpl; [done|].
  intros (cell & Hcell & H)%bind_Ok. destruct cell as [[row col]|]; [|congruence].
  apply find_empty_cell_sound in Hcell as (_ & _ & Hempty).
  eapply solve_loop_false_restores; [done| |done]. intros σ1 σ2. apply IH.
Qed.

Lemma solve_loop_keeps_givens n rec brd row col cands σ b σ' :
  get σ brd row col = Ok 0%Z →
  (∀ σ1 σ2, rec σ1 = Ok (false, σ2) → σ2 = σ1) →
  (∀ σ1 b σ2, rec σ1 = Ok (b, σ2) → keeps_givens brd σ1 σ2) →
  solve_loop n rec brd row col cands σ = Ok (b, σ') → keeps_givens brd σ σ'.
Proof.
  intros Hempty Hrec Hkeep. induction cands as [|num cands IH]; simpl.
  { intros [= <- <-]. apply keeps_givens_refl. }
  intros (ok & Hok & H)%bind_Ok. destruct ok; [|by apply IH].
  apply bind_Ok in H as (σ1 & Hset & H).
  apply bind_Ok in H as ([solved σ2] & Hsol & H).
  destruct solved.
  - simplify_eq. eapply keeps_givens_trans; [by eapply set_keeps_givens|by eapply Hkeep].
  - apply Hrec in Hsol as ->.
    apply bind_Ok in H as (σ3 & Hback & H).
    rewrite (set_undo _ _ _ _ _ _ _ Hempty Hset) in Hback. simplify_eq. by apply IH.
Qed.

Lemma solve_keeps_givens fuel self σ board_arg b σ' :
  solve fuel self σ board_arg = Ok (b, σ') →
  keeps_givens (board_of self board_arg) σ σ'.
Proof.
  revert σ board_arg b σ'. induction fuel as [|fuel IH]; intros σ board_arg b σ'; simpl; [done|].
  intros (cell & Hcell & H)%bind_Ok. fold (board_of self board_arg) in *.
  destruct cell as [[row col]|]; [|simplify_eq; apply keeps_givens_refl].
  apply find_empty_cell_sound in Hcell as (_ & _ & Hempty).
  eapply solve_loop_keeps_givens; [done| | |done].
  - intros σ1 σ2. apply solve_false_restores.
  - intros σ1 b' σ2 Hrec. by apply IH in Hrec.
Qed.

(** C4.  When [solve] returns [False] the store is the one it was called
    with: every cell of the board has the value it had at call entry.  This
    holds for every recursion bound, board and store. *)
Theorem solve_unsolvable_unchanged fuel self σ board_arg σ' :
  solve fuel self σ board_arg = Ok (false, σ') →
  σ' = σ ∧ ∀ r c, get σ' (board_of self board_arg) r c = get σ (board_of self board_arg) r c.
Proof. intros H. apply solve_false_restores in H as ->. done. Qed.

(** C10.  Whatever [solve] returns, a cell that was not empty at call entry
    holds the same value when it returns. *)
Theorem solve_preserves_givens fuel self σ board_arg b σ' r c v :
  solve fuel self σ board_arg = Ok (b, σ') →
  get σ (board_of self board_arg) r c = Ok v → v ≠ 0%Z →
  get σ' (board_of self board_arg) r c = Ok v.
Proof. intros H. apply solve_keeps_givens in H. apply H. Qed.

(** ** Grids *)

Lemma wfg_lookup n g r c :
  wfg n g → r < n → c < n →
  ∃ row, g !! r = Some row ∧ length row = n ∧ row !! c = Some (cell g r c).
Proof.
  intros [Hlen Hrows] Hr Hc.
  destruct (lookup_lt_is_Some_2 g r) as [row Hrow]; [lia|].
  pose proof (Hrows _ _ Hrow) as Hlrow.
  destruct (lookup_lt_is_Some_2 row c) as [v Hv]; [lia|].
  exists row. split_and!; [done..|]. unfold cell. rewrite Hrow. simpl. by rewrite Hv.
Qed.

Lemma wfg_upd n g r c v : wfg n g → wfg n (upd g r c v).
Proof.
  intros [Hlen Hrows]. unfold upd. split; [by rewrite length_alter|].
  intros r' row. destruct (decide (r = r')) as [->|Hne].
  - rewrite list_lookup_alter_eq. destruct (g !! r') as [row'|] eqn:Hrow'; [|done].
    simpl. intros [= <-]. rewrite length_insert. by eapply Hrows.
  - rewrite list_lookup_alter_ne by done. apply Hrows.
Qed.

Lemma cell_upd_eq n g r c v :
  wfg n g → r < n → c < n → cell (upd g r c v) r c = v.
Proof.
  intros Hwf Hr Hc. destruct (wfg_lookup n g r c) as (row & Hrow & Hlen & _); [done..|].
  unfold cell, upd. rewrite list_lookup_alter_eq, Hrow. simpl.
  by rewrite list_lookup_insert_eq by lia.
Qed.

Lemma cell_upd_ne g r c v r' c' :
  (r', c') ≠ (r, c) → cell (upd g r c v) r' c' = cell g r' c'.
Proof.
  intros Hne. unfold cell, upd. destruct (decide (r = r')) as [->|Hr].
  - rewrite list_lookup_alter_eq. destruct (g !! r') as [row|]; [|done]. simpl.
    rewrite list_lookup_insert_ne; [done|congruence].
  - by rewrite list_lookup_alter_ne.
Qed.

Lemma grid_eq n g1 g2 :
  wfg n g1 → wfg n g2 →
  (∀ r c, r < n → c < n → cell g1 r c = cell g2 r c) → g1 = g2.
Proof.
  intros Hwf1 Hwf2 Hcells. apply list_eq. intros r.
  destruct (decide (r < n)) as [Hr|Hr].
  - destruct (lookup_lt_is_Some_2 g1 r) as [row1 Hrow1]; [destruct Hwf1; lia|].
    destruct (lookup_lt_is_Some_2 g2 r) as [row2 Hrow2]; [destruct Hwf2; lia|].
    rewrite Hrow1, Hrow2. f_equal. apply list_eq. intros c.
    destruct (decide (c < n)) as [Hc|Hc].
    + destruct (wfg_lookup n g1 r c) as (row1' & ? & _ & Hv1); [done..|].
      destruct (wfg_lookup n g2 r c) as (row2' & ? & _ & Hv2); [done..|].
      simplify_eq. rewrite Hv1, Hv2. f_equal. by apply Hcells.
    + rewrite !lookup_ge_None_2; [done|..].
      * destruct Hwf2 as [_ H2]. rewrite (H2 _ _ Hrow2). lia.
      * destruct Hwf1 as [_ H1]. rewrite (H1 _ _ Hrow1). lia.
  - rewrite !lookup_ge_None_2; [done|destruct Hwf2; lia|destruct Hwf1; lia].
Qed.

Lemma upd_same n g r c :
  wfg n g → r < n → c < n → upd g r c (cell g r c) = g.
Proof.
  intros Hwf Hr Hc. apply (grid_eq n); [by apply wfg_upd|done|].
  intros r' c' Hr' Hc'. destruct (decide ((r', c') = (r, c))) as [[= -> ->]|Hne].
  - by rewrite (cell_upd_eq n).
  - by rewrite cell_upd_ne.
Qed.

Lemma upd_upd n g r c v w :
  wfg n g → r < n → c < n → upd (upd g r c v) r c w = upd g r c w.
Proof.
  intros Hwf Hr Hc. apply (grid_eq n); [by do 2 apply wfg_upd|by apply wfg_upd|].
  intros r' c' Hr' Hc'. destruct (decide ((r', c') = (r, c))) as [[= -> ->]|Hne].
  - rewrite !(cell_upd_eq n); [done|done..|by apply wfg_upd|done|done].
  - by rewrite !cell_upd_ne.
Qed.

(** ** Boards in the store *)

Lemma holds_get n σ brd g r c :
  holds σ brd g → wfg n g → r < n → c < n → get σ brd r c = Ok (cell g r c).
Proof.
  intros (_ & Hlen & Hrows) Hwf Hr Hc.
  destruct (wfg_lookup n g r c) as (row & Hrow & Hlrow & Hv); [done..|].
  destruct (lookup_lt_is_Some_2 brd r) as [l Hl]; [destruct Hwf; lia|].
  apply get_Ok. exists l, row. split_and!; [done| |done]. by eapply Hrows.
Qed.

Lemma holds_readable n σ brd g : holds σ brd g → wfg n g → readable n σ brd.
Proof. intros Hh Hwf r c Hr Hc. exists (cell g r c). by eapply holds_get. Qed.

Lemma holds_set n σ brd g r c v :
  holds σ brd g → wfg n g → r < n → c < n →
  ∃ σ', set σ brd r c v = Ok σ' ∧ holds σ' brd (upd g r c v) ∧ frame brd σ σ'.
Proof.
  intros (Hnd & Hlen & Hrows) Hwf Hr Hc.
  destruct (wfg_lookup n g r c) as (row & Hrow & Hlrow & Hv); [done..|].
  destruct (lookup_lt_is_Some_2 brd r) as [l Hl]; [destruct Hwf; lia|].
  exists (<[l := <[c := v]> row]> σ). split_and!.
  - apply set_Ok. exists l, row. split_and!; [done|by eapply Hrows|lia|done].
  - split_and!; [done|by unfold upd; rewrite length_alter|].
    intros r' l' row' Hl' Hrow'. unfold upd in Hrow'.
    destruct (decide (r = r')) as [<-|Hne].
    + rewrite list_lookup_alter_eq, Hrow in Hrow'. simplify_eq.
      by rewrite lookup_insert_eq.
    + rewrite list_lookup_alter_ne in Hrow' by done.
      rewrite lookup_insert_ne; [by eapply Hrows|].
      intros <-. apply Hne. by eapply NoDup_lookup.
  - intros l' Hl'. rewrite lookup_insert_ne; [done|].
    intros <-. apply Hl'. by eapply list_elem_of_lookup_2.
Qed.

Lemma holds_frame σ σ' brd g :
  holds σ brd g → (∀ l, l ∈ brd → σ' !! l = σ !! l) → holds σ' brd g.
Proof.
  intros (Hnd & Hlen & Hrows) Hsame. split_and!; [done..|].
  intros r l row Hl Hrow. rewrite Hsame; [by eapply Hrows|].
  by eapply list_elem_of_lookup_2.
Qed.

Lemma frame_refl brd σ : frame brd σ σ.
Proof. by intros l. Qed.

Lemma frame_trans brd σ1 σ2 σ3 : frame brd σ1 σ2 → frame brd σ2 σ3 → frame brd σ1 σ3.
Proof. intros H12 H23 l Hl. rewrite H23, H12; done. Qed.

(** ** Validity of grids *)

Lemma peer_sym r c r' c' : peer r c r' c' → peer r' c' r c.
Proof. unfold peer. intros [->|[->|[-> ->]]]; auto. Qed.

Lemma holds_conflict n σ brd g row col value :
  holds σ brd g → wfg n g →
  conflict n σ brd row col value ↔ gconflict n g row col value.
Proof.
  intros Hh Hwf. unfold conflict, gconflict. split.
  - intros (r & c & Hr & Hc & Hne & Hp & Hget).
    rewrite (holds_get n _ _ g) in Hget by done. exists r, c. by simplify_eq.
  - intros (r & c & Hr & Hc & Hne & Hp & Hcell).
    exists r, c. split_and!; [done..|]. rewrite (holds_get n _ _ g) by done.
    by rewrite Hcell.
Qed.

Lemma holds_is_valid n σ brd g row col value :
  holds σ brd g → wfg n g → n mod 3 = 0 → row < n → col < n →
  (is_valid n σ brd row col value = Ok false ∧ gconflict n g row col value)
  ∨ (is_valid n σ brd row col value = Ok true ∧ ¬ gconflict n g row col value).
Proof.
  intros Hh Hwf Hn Hrow Hcol.
  rewrite (is_valid_eval n) by eauto using holds_readable.
  destruct (is_valid_bool n σ brd row col value) eqn:Hb.
  - right. split; [done|]. rewrite <- (holds_conflict n σ brd) by done.
    rewrite <- (is_valid_bool_false n) by eauto using holds_readable. congruence.
  - left. split; [done|]. rewrite <- (holds_conflict n σ brd) by done.
    by rewrite <- (is_valid_bool_false n) by eauto using holds_readable.
Qed.

Lemma valid_upd n g r c v :
  wfg n g → r < n → c < n → valid n g → ¬ gconflict n g r c v →
  valid n (upd g r c v).
Proof.
  intros Hwf Hr Hc Hval Hnc r1 c1 r2 c2 Hr1 Hc1 Hr2 Hc2 Hne Hp Hnz.
  destruct (decide ((r1, c1) = (r, c))) as [[= -> ->]|Hne1].
  - rewrite (cell_upd_eq n) by done. rewrite cell_upd_ne by done.
    intros Heq. apply Hnc. exists r2, c2. by split_and!.
  - rewrite (cell_upd_ne _ _ _ _ r1 c1) in * by done.
    destruct (decide ((r2, c2) = (r, c))) as [[= -> ->]|Hne2].
    + rewrite (cell_upd_eq n) by done.
      intros Heq. apply Hnc. exists r1, c1. split_and!; [done..|by apply peer_sym|done].
    + rewrite cell_upd_ne by done. by apply Hval.
Qed.

Lemma inrange_upd n g r c v :
  wfg n g → r < n → c < n → inrange n g → (0 ≤ v ≤ Z.of_nat n)%Z →
  inrange n (upd g r c v).
Proof.
  intros Hwf Hr Hc Hin Hv r' c' Hr' Hc'.
  destruct (decide ((r', c') = (r, c))) as [[= -> ->]|Hne].
  - by rewrite (cell_upd_eq n).
  - rewrite cell_upd_ne by done. by apply Hin.
Qed.

(** A completion agrees with every placement the validity check rejects. *)
Lemma completion_no_conflict n g s r c :
  wfg n g → r < n → c < n → completion n g s → cell g r c = 0%Z →
  ¬ gconflict n g r c (cell s r c).
Proof.
  intros Hwf Hr Hc [(Hwfs & Hfull & Hvals & Hins) Hext] Hempty
    (r' & c' & Hr' & Hc' & Hne & Hp & Hcell).
  assert (cell g r' c' ≠ 0%Z) as Hnz by (rewrite Hcell; by apply Hfull).
  apply (Hvals r c r' c'); [done..|by apply Hfull|].
  rewrite (Hext r' c') by done. done.
Qed.

Lemma completion_upd n g s r c v :
  wfg n g → r < n → c < n → cell g r c = 0%Z → v ≠ 0%Z →
  completion n (upd g r c v) s ↔ completion n g s ∧ cell s r c = v.
Proof.
  intros Hwf Hr Hc Hempty Hv. split.
  - intros [Hs Hext]. split; [split; [done|]|].
    + intros r' c' Hr' Hc' Hnz.
      assert ((r', c') ≠ (r, c)) as Hne by congruence.
      rewrite (Hext r' c') by (try done; by rewrite cell_upd_ne).
      by rewrite cell_upd_ne.
    + rewrite (Hext r c) by (try done; by rewrite (cell_upd_eq n)).
      by rewrite (cell_upd_eq n).
  - intros [[Hs Hext] Hcell]. split; [done|].
    intros r' c' Hr' Hc'. destruct (decide ((r', c') = (r, c))) as [[= -> ->]|Hne].
    + by rewrite (cell_upd_eq n).
    + rewrite cell_upd_ne by done. by apply Hext.
Qed.

Lemma completion_cell_range n g s r c :
  completion n g s → r < n → c < n → (1 ≤ cell s r c ≤ Z.of_nat n)%Z.
Proof.
  intros [(_ & Hfull & _ & Hin) _] Hr Hc.
  specialize (Hfull r c Hr Hc). specialize (Hin r c Hr Hc). lia.
Qed.

Lemma completion_full n g :
  wfg n g → full n g → valid n g → inrange n g →
  ∀ s, completion n g s ↔ s = g.
Proof.
  intros Hwf Hfull Hval Hin s. split.
  - intros [(Hwfs & _) Hext]. apply (grid_eq n); [done..|].
    intros r c Hr Hc. apply Hext; [done..|by apply Hfull].
  - intros ->. split; [done|]. by intros r c.
Qed.

(** ** The search of [solve] *)

Lemma elem_of_nums n v : v ∈ nums n ↔ (1 ≤ v ≤ Z.of_nat n)%Z.
Proof.
  unfold nums. rewrite list_elem_of_fmap. split.
  - intros (i & -> & Hi%elem_of_seq). lia.
  - intros Hv. exists (Z.to_nat v). split; [lia|]. apply elem_of_seq. lia.
Qed.

Lemma covers_upd n g L r c v :
  wfg n g → r < n → c < n → v ≠ 0%Z → covers n g L →
  covers n (upd g r c v) (filter (λ rc, rc ≠ (r, c)) L).
Proof.
  intros Hwf Hr Hc Hv Hcov r' c' Hr' Hc' Hz.
  assert ((r', c') ≠ (r, c)) as Hne.
  { intros [= -> ->]. by rewrite (cell_upd_eq n) in Hz. }
  rewrite cell_upd_ne in Hz by done.
  apply list_elem_of_filter. split; [done|]. by apply Hcov.
Qed.

Lemma covers_shrink n g (L : list (nat * nat)) r c fuel :
  covers n g L → r < n → c < n → cell g r c = 0%Z → length L < S fuel →
  length (filter (λ rc, rc ≠ (r, c)) L) < fuel.
Proof.
  intros Hcov Hr Hc Hz Hlen.
  assert (length (filter (λ rc, rc ≠ (r, c)) L) < length L); [|lia].
  apply (length_filter_lt _ _ (r, c)); [by apply Hcov|]. by intros [].
Qed.

Lemma first_empty_cell n σ brd g r c :
  holds σ brd g → wfg n g → first_empty n σ brd r c →
  r < n ∧ c < n ∧ cell g r c = 0%Z ∧ get σ brd r c = Ok 0%Z.
Proof.
  intros Hh Hwf (Hr & Hc & Hz & _). split_and!; [done..| |done].
  rewrite (holds_get n _ _ g) in Hz by done. by simplify_eq.
Qed.

Lemma complete_full n σ brd g :
  holds σ brd g → wfg n g → complete n σ brd → full n g.
Proof.
  intros Hh Hwf Hc r c Hr Hcl Hz. apply (Hc r c Hr Hcl).
  rewrite (holds_get n _ _ g) by done. by rewrite Hz.
Qed.

Lemma solve_loop_spec n rec brd g row col cands σ :
  wfg n g → n mod 3 = 0 → row < n → col < n → cell g row col = 0%Z →
  (∀ v σ1, (1 ≤ v ≤ Z.of_nat n)%Z → ¬ gconflict n g row col v →
     holds σ1 brd (upd g row col v) →
     ∃ b σ2, rec σ1 = Ok (b, σ2) ∧ search_post n brd (upd g row col v) σ1 b σ2) →
  (∀ v, v ∈ cands → (1 ≤ v ≤ Z.of_nat n)%Z) →
  holds σ brd g →
  ∃ b σ', solve_loop n rec brd row col cands σ = Ok (b, σ') ∧ frame brd σ σ' ∧
    if b then ∃ s, holds σ' brd s ∧ completion n g s
    else σ' = σ ∧ ∀ s, completion n g s → cell s row col ∉ cands.
Proof.
  intros Hwf Hn Hrow Hcol Hempty Hrec Hcands Hh.
  induction cands as [|v cands IH]; simpl.
  { exists false, σ. split_and!; [done|apply frame_refl|done|]. intros s _ []%elem_of_nil. }
  assert (1 ≤ v ≤ Z.of_nat n)%Z as Hv by (apply Hcands; left).
  destruct IH as (b & σ' & Hloop & Hfr & Hpost).
  { intros w Hw. apply Hcands. by right. }
  destruct (holds_is_valid n σ brd g row col v) as [[-> Hcf]|[-> Hcf]]; [done..| |];
    rewrite bind_ret.
  - exists b, σ'. split_and!; [done..|]. destruct b; [done|].
    destruct Hpost as [-> Hnone]. split; [done|].
    intros s Hs [<-|Hin]%elem_of_cons; [|by eapply Hnone].
    by apply (completion_no_conflict n g s row col).
  - destruct (holds_set n σ brd g row col v) as (σ1 & Hset & Hh1 & Hfr1); [done..|].
    rewrite Hset, bind_ret.
    destruct (Hrec v σ1) as (b1 & σ2 & -> & Hfr2 & Hpost1); [done..|].
    rewrite bind_ret. destruct b1.
    + exists true, σ2. split_and!; [done|by eapply frame_trans|].
      destruct Hpost1 as (s & Hhs & Hs). exists s. split; [done|].
      apply (completion_upd n) in Hs; [|done..|lia]. by destruct Hs.
    + destruct Hpost1 as [-> Hnone1].
      rewrite (set_undo σ brd row col 0%Z v σ1); [| |done].
      2:{ rewrite (holds_get n _ _ g) by done. by rewrite Hempty. }
      rewrite bind_ret. exists b, σ'. split_and!; [done..|]. destruct b; [done|].
      destruct Hpost as [-> Hnone]. split; [done|].
      intros s Hs [<-|Hin]%elem_of_cons; [|by eapply Hnone].
      apply (Hnone1 s). apply (completion_upd n); [done..|lia|done].
Qed.

Lemma solve_spec fuel self L σ g board_arg :
  holds σ (board_of self board_arg) g → wfg (size self) g → size self mod 3 = 0 →
  valid (size self) g → inrange (size self) g →
  covers (size self) g L → length L < fuel →
  ∃ b σ', solve fuel self σ board_arg = Ok (b, σ') ∧
          search_post (size self) (board_of self board_arg) g σ b σ'.
Proof.
  revert L σ g board_arg. induction fuel as [|fuel IH];
    intros L σ g board_arg Hh Hwf Hn Hval Hin Hcov Hlen; [lia|].
  simpl. fold (board_of self board_arg).
  set (brd := board_of self board_arg) in *. set (n := size self) in *.
  destruct (find_empty_cell_cases n σ brd) as [(r & c & -> & Hfe)|[-> Hc]];
    [by eapply holds_readable| |]; rewrite bind_ret.
  - apply (first_empty_cell n σ brd g) in Hfe as (Hr & Hcl & Hz & Hget); [|done..].
    destruct (solve_loop_spec n (λ σ', solve fuel self σ' (Some brd)) brd g r c (nums n) σ)
      as (b & σ' & -> & Hfr & Hpost); [done..| | |done|].
    + intros v σ1 Hv Hncf Hh1.
      apply (IH (filter (λ rc, rc ≠ (r, c)) L) σ1 (upd g r c v) (Some brd)); try done.
      * by apply wfg_upd.
      * by apply valid_upd.
      * apply inrange_upd; [done..|lia].
      * apply covers_upd; [done..|lia|done].
      * by eapply covers_shrink.
    + intros v. by rewrite elem_of_nums.
    + exists b, σ'. split; [done|]. split; [done|]. destruct b; [done|].
      destruct Hpost as [-> Hnone]. split; [done|]. intros s Hs.
      apply (Hnone s Hs). apply elem_of_nums. by eapply completion_cell_range.
  - exists true, σ. split; [done|]. split; [apply frame_refl|].
    exists g. split; [done|]. apply completion_full; [done| |done..].
    by eapply complete_full.
Qed.

(** ** Fuel *)

Lemma solve_loop_mono n (rec rec' : gmap nat (list Z) → res (bool * gmap nat (list Z)))
    brd row col cands σ x :
  (∀ σ1 y, rec σ1 = Ok y → rec' σ1 = Ok y) →
  solve_loop n rec brd row col cands σ = Ok x →
  solve_loop n rec' brd row col cands σ = Ok x.
Proof.
  intros Hrec. revert σ. induction cands as [|v cands IH]; intros σ; simpl; [done|].
  intros (ok & -> & H)%bind_Ok. rewrite bind_ret. destruct ok; [|by apply IH].
  apply bind_Ok in H as (σ1 & -> & H). rewrite bind_ret.
  apply bind_Ok in H as ([solved σ2] & Hsol & H).
  rewrite (Hrec _ _ Hsol), bind_ret. destruct solved; [done|].
  apply bind_Ok in H as (σ3 & -> & H). rewrite bind_ret. by apply IH.
Qed.

Lemma solve_mono fuel fuel' self σ board_arg x :
  fuel ≤ fuel' → solve fuel self σ board_arg = Ok x →
  solve fuel' self σ board_arg = Ok x.
Proof.
  revert fuel' σ board_arg x. induction fuel as [|fuel IH];
    intros fuel' σ board_arg x Hle; simpl; [done|].
  destruct fuel' as [|fuel']; [lia|]. simpl.
  intros (cell & -> & H)%bind_Ok. rewrite bind_ret.
  destruct cell as [[row col]|]; [|done].
  eapply solve_loop_mono; [|done]. intros σ1 y. apply IH. lia.
Qed.

(** ** Units of a solved grid *)

Lemma solved_unit s (U : list (nat * nat)) :
  solved 9 s → NoDup U → length U = 9 →
  (∀ p, p ∈ U → p.1 < 9 ∧ p.2 < 9) →
  (∀ p q, p ∈ U → q ∈ U → peer p.1 p.2 q.1 q.2) →
  values s U ≡ₚ nums 9.
Proof.
  intros (Hwf & Hfull & Hval & Hin) Hnd Hlen Hrange Hpeer.
  apply submseteq_length_Permutation.
  - apply NoDup_submseteq.
    + apply NoDup_fmap_2_strong; [|done]. intros [r c] [r' c'] Hp Hq Heq.
      destruct (decide ((r', c') = (r, c))) as [|Hne]; [done|]. exfalso.
      destruct (Hrange _ Hp), (Hrange _ Hq). simpl in *.
      apply (Hval r c r' c'); [done..|by apply (Hpeer (r, c) (r', c'))|by apply Hfull|done].
    + intros v ((r & c) & -> & Hp)%list_elem_of_fmap. apply elem_of_nums.
      destruct (Hrange _ Hp). simpl in *.
      specialize (Hfull r c). specialize (Hin r c). lia.
  - unfold values. rewrite length_fmap, Hlen. done.
Qed.

Lemma elem_of_box_cells br bc r c :
  (r, c) ∈ box_cells 3 br bc ↔ r / 3 = br ∧ c / 3 = bc.
Proof.
  unfold box_cells. rewrite list_elem_of_bind. split.
  - intros (r' & (c' & Hin & Hc')%list_elem_of_bind & Hr').
    apply list_elem_of_singleton in Hin as [= -> ->].
    apply elem_of_seq in Hr', Hc'. divmod r'. divmod c'. lia.
  - intros [<- <-]. exists r. split.
    + apply list_elem_of_bind. exists c. split; [by apply list_elem_of_singleton|].
      apply elem_of_seq. divmod c. lia.
    + apply elem_of_seq. divmod r. lia.
Qed.

Lemma NoDup_box_cells br bc : NoDup (box_cells 3 br bc).
Proof.
  unfold box_cells. apply NoDup_bind; [| |apply NoDup_seq].
  - intros r r' p _ _ (c & Hp & _)%list_elem_of_bind (c' & Hp' & _)%list_elem_of_bind.
    apply list_elem_of_singleton in Hp, Hp'. congruence.
  - intros r _. apply NoDup_bind; [| |apply NoDup_seq].
    + intros c c' p _ _ Hp%list_elem_of_singleton Hp'%list_elem_of_singleton. congruence.
    + intros c _. apply NoDup_singleton.
Qed.

Lemma solved_units s : solved 9 s → units_are_permutations 9 s.
Proof.
  intros Hs. split_and!.
  - intros r Hr. apply solved_unit; [done| | | |].
    + apply NoDup_fmap_2; [intros c c'; congruence|apply NoDup_seq].
    + unfold row_cells. by rewrite length_fmap, length_seq.
    + intros p (c & -> & Hc%elem_of_seq)%list_elem_of_fmap. simpl. lia.
    + intros p q (c & -> & _)%list_elem_of_fmap (c' & -> & _)%list_elem_of_fmap.
      by left.
  - intros c Hc. apply solved_unit; [done| | | |].
    + apply NoDup_fmap_2; [intros r r'; congruence|apply NoDup_seq].
    + unfold col_cells. by rewrite length_fmap, length_seq.
    + intros p (r & -> & Hr%elem_of_seq)%list_elem_of_fmap. simpl. lia.
    + intros p q (r & -> & _)%list_elem_of_fmap (r' & -> & _)%list_elem_of_fmap.
      right. by left.
  - change (box_size 9) with 3. intros br bc Hbr Hbc. apply solved_unit; [done| | | |].
    + apply NoDup_box_cells.
    + do 3 (destruct br as [|br]; [do 3 (destruct bc as [|bc]; [done|]); lia|]); lia.
    + intros [r c] [Hr Hc]%elem_of_box_cells. simpl. divmod r. divmod c. lia.
    + intros [r c] [r' c'] [Hr Hc]%elem_of_box_cells [Hr' Hc']%elem_of_box_cells.
      right. right. cbn [fst snd]. split; congruence.
Qed.

(** C5, as amended.  For a 9×9 board whose cells are 0..9 and which has no
    duplicate non-empty value in a row, column or 3×3 box at call entry:
    when [solve] returns [True] the board is complete, keeps the cells given
    at entry, and every row, column and box is a permutation of 1..9. *)
Theorem solve_true_solved fuel self σ g board_arg σ' :
  size self = 9 →
  holds σ (board_of self board_arg) g → wfg 9 g → valid 9 g → inrange 9 g →
  solve fuel self σ board_arg = Ok (true, σ') →
  ∃ s, holds σ' (board_of self board_arg) s ∧ wfg 9 s ∧ full 9 s ∧
       extends 9 g s ∧ units_are_permutations 9 s.
Proof.
  intros Hsz Hh Hwf Hval Hin Hsolve.
  destruct (solve_spec (fuel `max` depth 9) self (all_cells 9) σ g board_arg)
    as (b & σ'' & Hsolve' & Hfr & Hpost); rewrite ?Hsz; try done.
  { intros r c Hr Hc _. unfold all_cells. apply list_elem_of_bind. exists r.
    split; [|apply elem_of_seq; lia]. apply list_elem_of_bind. exists c.
    split; [by apply list_elem_of_singleton|apply elem_of_seq; lia]. }
  { change (length (all_cells 9)) with 81. unfold depth. lia. }
  rewrite (solve_mono fuel _ self σ board_arg (true, σ')) in Hsolve' by (done || lia).
  simplify_eq. rewrite Hsz in Hpost. destruct Hpost as (s & Hhs & Hsol & Hext).
  exists s. split_and!; [done|by destruct Hsol|by destruct Hsol as (?&?&?)|done|].
  by apply solved_units.
Qed.

(** ** Allocation and cloning *)

Lemma alloc_spec (σ : gmap nat (list Z)) row l σ1 :
  alloc σ row = (l, σ1) → σ !! l = None ∧ σ1 = <[l := row]> σ ∧ σ ⊆ σ1.
Proof.
  unfold alloc. intros [= <- <-].
  assert (σ !! fresh (dom σ) = None) as Hfresh by (apply not_elem_of_dom, is_fresh).
  split_and!; [done..|]. by apply insert_subseteq.
Qed.

Lemma holds_weaken (σ σ' : gmap nat (list Z)) brd g : σ ⊆ σ' → holds σ brd g → holds σ' brd g.
Proof.
  intros Hsub (Hnd & Hlen & Hrows). split_and!; [done..|].
  intros r l row Hl Hrow. eapply lookup_weaken; [|done]. by eapply Hrows.
Qed.

Lemma holds_cons (σ : gmap nat (list Z)) l brd row g :
  holds σ (l :: brd) (row :: g) ↔ (σ !! l = Some row) ∧ (l ∉ brd) ∧ holds σ brd g.
Proof.
  unfold holds. rewrite NoDup_cons. simpl. split.
  - intros ([Hl Hnd] & Hlen & Hrows). split_and!; [by apply (Hrows 0)|done..|lia|].
    intros r. apply (Hrows (S r)).
  - intros (Hrow & Hl & Hnd & Hlen & Hrows). split_and!; [done..|lia|].
    intros [|r] l' row'; simpl; [congruence|apply Hrows].
Qed.

Lemma load_cons (σ : gmap nat (list Z)) row g :
  load σ (row :: g) =
  let '(l, σ1) := alloc σ row in
  let '(rest, σ2) := load σ1 g in (l :: rest, σ2).
Proof. reflexivity. Qed.

Lemma clone_cons (σ : gmap nat (list Z)) l brd :
  clone σ (l :: brd) =
  match σ !! l with
  | None => Err Dangling
  | Some row =>
      let '(l', σ1) := alloc σ row in
      '(rest, σ2) ← clone σ1 brd; Ok (l' :: rest, σ2)
  end.
Proof. reflexivity. Qed.

Lemma load_spec (σ : gmap nat (list Z)) g brd σ' :
  load σ g = (brd, σ') →
  σ ⊆ σ' ∧ holds σ' brd g ∧ ∀ l, l ∈ brd → σ !! l = None.
Proof.
  revert σ brd σ'. induction g as [|row g IH]; intros σ brd σ'; [simpl|rewrite load_cons].
  { intros ?; simplify_eq. split_and!; [done| |by intros l ?%elem_of_nil].
    split_and!; [constructor|done|]. by intros r l row ?. }
  destruct (alloc σ row) as [l σ1] eqn:Halloc.
  destruct (load σ1 g) as [rest σ2] eqn:Hload. intros ?; simplify_eq.
  apply alloc_spec in Halloc as (Hfresh & -> & Hsub1).
  apply IH in Hload as (Hsub2 & Hh & Hnew).
  split_and!.
  - etrans; [exact Hsub1|exact Hsub2].
  - apply holds_cons. split_and!; [|by intros ?%Hnew; simplify_map_eq|done].
    eapply lookup_weaken; [|done]. by rewrite lookup_insert_eq.
  - intros l' [->|Hin]%elem_of_cons; [done|].
    apply Hnew in Hin. eapply lookup_weaken_None; done.
Qed.

Lemma zeros_load (σ : gmap nat (list Z)) n m :
  zeros σ n m = load σ (replicate m (replicate n 0%Z)).
Proof.
  revert σ. induction m as [|m IH]; intros σ; [done|].
  change (replicate (S m) (replicate n 0%Z))
    with (replicate n 0%Z :: replicate m (replicate n 0%Z)).
  rewrite load_cons. change (zeros σ n (S m)) with
    (let '(l, σ1) := alloc σ (replicate n 0%Z) in
     let '(rest, σ2) := zeros σ1 n m in (l :: rest, σ2)).
  destruct (alloc σ _) as [l σ1]. by rewrite IH.
Qed.

Lemma clone_load (σ : gmap nat (list Z)) brd g :
  holds σ brd g → clone σ brd = Ok (load σ g).
Proof.
  revert σ g. induction brd as [|l brd IH]; intros σ g Hh.
  { destruct g; [done|]. by destruct Hh as (_ & ? & _). }
  destruct g as [|row g]; [by destruct Hh as (_ & ? & _)|].
  apply holds_cons in Hh as (Hrow & Hl & Hh). rewrite clone_cons, load_cons, Hrow.
  destruct (alloc σ row) as [l' σ1] eqn:Halloc.
  apply alloc_spec in Halloc as (_ & _ & Hsub).
  rewrite (IH σ1 g) by (by eapply holds_weaken).
  rewrite bind_ret. by destruct (load σ1 g).
Qed.

Lemma clone_fresh (σ : gmap nat (list Z)) brd brd' σ' :
  clone σ brd = Ok (brd', σ') → σ ⊆ σ' ∧ ∀ l, l ∈ brd' → σ !! l = None.
Proof.
  revert σ brd' σ'. induction brd as [|l brd IH]; intros σ brd' σ';
    [simpl|rewrite clone_cons].
  { intros ?; simplify_eq. split; [done|by intros l ?%elem_of_nil]. }
  destruct (σ !! l) as [row|] eqn:Hrow; [|done].
  destruct (alloc σ row) as [l' σ1] eqn:Halloc.
  intros ([rest σ2] & Hclone & ?)%bind_Ok. simplify_eq.
  apply alloc_spec in Halloc as (Hfresh & -> & Hsub1).
  apply IH in Hclone as (Hsub2 & Hnew). split.
  - etrans; [exact Hsub1|exact Hsub2].
  - intros x [->|Hin]%elem_of_cons; [done|].
    apply Hnew in Hin. eapply lookup_weaken_None; done.
Qed.

(** ** Tallies *)

Lemma tally_ext (P Q : list (list Z) → Prop) k :
  (∀ s, P s ↔ Q s) → tally P k → tally Q k.
Proof.
  intros Hext. destruct k as [|[|k]]; simpl.
  - intros H s Hs. by apply (H s), Hext.
  - intros (s & Hs & Huniq). exists s. split; [by apply Hext|].
    intros s' Hs'. by apply Huniq, Hext.
  - intros (s & s' & Hs & Hs' & Hne). exists s, s'. split_and!; [by apply Hext..|done].
Qed.

Lemma tally_mono (P Q : list (list Z) → Prop) k :
  2 ≤ k → (∀ s, P s → Q s) → tally P k → tally Q k.
Proof.
  intros Hk Himp. destruct k as [|[|k]]; [lia..|]. simpl.
  intros (s & s' & Hs & Hs' & Hne). exists s, s'. split_and!; [by apply Himp..|done].
Qed.

Lemma tally_add (P Q : list (list Z) → Prop) a b :
  (∀ s, P s → Q s → False) → tally P a → tally Q b →
  tally (λ s, P s ∨ Q s) (a + b).
Proof.
  intros Hdisj HP HQ. destruct a as [|[|a]].
  - simpl in HP. eapply tally_ext; [|exact HQ]. intros s.
    split; [by right|]. intros [Hs|Hs]; [by destruct (HP s)|done].
  - destruct HP as (s & Hs & Huniq). destruct b as [|[|b]].
    + simpl in HQ. exists s. split; [by left|]. intros s' [Hs'|Hs']; [by apply Huniq|].
      by destruct (HQ s').
    + destruct HQ as (s' & Hs' & _). exists s, s'. split_and!; [by left|by right|].
      intros ->. by eapply Hdisj.
    + destruct HQ as (s1 & s2 & Hs1 & Hs2 & Hne). exists s1, s2.
      split_and!; [by right..|done].
  - destruct HP as (s1 & s2 & Hs1 & Hs2 & Hne). exists s1, s2.
    split_and!; [by left..|done].
Qed.

Lemma tally_zero (P : list (list Z) → Prop) k : (∀ s, ¬ P s) → tally P k → k = 0.
Proof.
  intros Hnone. destruct k as [|[|k]]; [done| |].
  - intros (s & Hs & _). by destruct (Hnone s).
  - intros (s & _ & Hs & _). by destruct (Hnone s).
Qed.

Lemma tally_one (P : list (list Z) → Prop) k :
  (∃ s, P s ∧ ∀ s', P s' → s' = s) → tally P k → k = 1.
Proof.
  intros (s & Hs & Huniq). destruct k as [|[|k]]; [|done|].
  - intros Hnone. by destruct (Hnone s).
  - intros (s1 & s2 & Hs1 & Hs2 & Hne). destruct Hne.
    by rewrite (Huniq s1), (Huniq s2).
Qed.

Lemma tally_many (P : list (list Z) → Prop) k :
  (∃ s s', P s ∧ P s' ∧ s ≠ s') → tally P k → 2 ≤ k.
Proof.
  intros (s1 & s2 & Hs1 & Hs2 & Hne). destruct k as [|[|k]]; [| |lia].
  - intros Hnone. by destruct (Hnone s1).
  - intros (s & _ & Huniq). destruct Hne. by rewrite (Huniq s1), (Huniq s2).
Qed.

(** ** The search of [_count_solutions] *)

Lemma count_loop_spec n rec brd g row col cands count σ :
  wfg n g → n mod 3 = 0 → row < n → col < n → cell g row col = 0%Z →
  (∀ v σ1, (1 ≤ v ≤ Z.of_nat n)%Z → ¬ gconflict n g row col v →
     holds σ1 brd (upd g row col v) →
     ∃ k, rec σ1 = Ok (k, σ1) ∧ tally (completion n (upd g row col v)) k) →
  (∀ v, v ∈ cands → (1 ≤ v ≤ Z.of_nat n)%Z) → NoDup cands →
  holds σ brd g →
  tally (λ s, completion n g s ∧ cell s row col ∉ cands) count →
  ∃ k, count_loop n rec brd row col cands count σ = Ok (k, σ) ∧
       tally (completion n g) k.
Proof.
  intros Hwf Hn Hrow Hcol Hempty Hrec Hcands Hnd Hh. revert count.
  induction cands as [|v cands IH]; intros count Hcount; simpl.
  { exists count. split; [done|]. eapply tally_ext; [|done].
    intros s. split; [by intros [? _]|]. intros Hs. split; [done|apply not_elem_of_nil]. }
  assert (1 ≤ v ≤ Z.of_nat n)%Z as Hv by (apply Hcands; left).
  apply NoDup_cons in Hnd as [Hv_new Hnd].
  specialize (IH ltac:(by intros w Hw; apply Hcands; right) Hnd).
  destruct (holds_is_valid n σ brd g row col v) as [[-> Hcf]|[-> Hcf]]; [done..| |];
    rewrite bind_ret.
  - apply IH. eapply tally_ext; [|done]. intros s. split.
    + intros [Hs Hnin]. split; [done|]. intros Hin. apply Hnin. by right.
    + intros [Hs Hnin]. split; [done|]. intros [Heq|Hin]%elem_of_cons; [|done].
      subst v. by apply (completion_no_conflict n g s row col).
  - destruct (holds_set n σ brd g row col v) as (σ1 & Hset & Hh1 & Hfr1); [done..|].
    rewrite Hset, bind_ret.
    destruct (Hrec v σ1) as (k & -> & Hk); [done..|]. rewrite bind_ret. cbv zeta.
    rewrite (set_undo σ brd row col 0%Z v σ1); [| |done].
    2:{ rewrite (holds_get n _ _ g) by done. by rewrite Hempty. }
    rewrite bind_ret.
    assert (tally (λ s, completion n g s ∧ cell s row col ∉ cands) (count + k)) as Hsum.
    { eapply tally_ext; [|apply (tally_add
        (λ s, completion n g s ∧ cell s row col ∉ v :: cands)
        (completion n (upd g row col v)) count k); [|exact Hcount|exact Hk]].
      - intros s. cbv beta. rewrite (completion_upd n) by (done || lia). split.
        + intros [[Hs Hnin]|[Hs <-]]; (split; [done|]); [|done].
          intros Hin. apply Hnin. by right.
        + intros [Hs Hnin]. destruct (decide (cell s row col = v)) as [<-|Hne];
            [by right|left]. split; [done|]. by intros [?|?]%elem_of_cons.
      - intros s [_ Hnin] [_ <-]%(completion_upd n); [|done..|lia].
        apply Hnin. by left. }
    destruct (1 <? count + k) eqn:Hlt.
    + exists (count + k). split; [done|]. apply Nat.ltb_lt in Hlt.
      eapply tally_mono; [lia| |done]. by intros s [? _].
    + by apply IH.
Qed.

Lemma elem_of_all_cells n r c : (r, c) ∈ all_cells n ↔ r < n ∧ c < n.
Proof.
  unfold all_cells. rewrite list_elem_of_bind. split.
  - intros (r' & (c' & Hin & Hc')%list_elem_of_bind & Hr').
    apply list_elem_of_singleton in Hin as [= -> ->].
    apply elem_of_seq in Hr', Hc'. lia.
  - intros [Hr Hc]. exists r. split; [|apply elem_of_seq; lia].
    apply list_elem_of_bind. exists c.
    split; [by apply list_elem_of_singleton|apply elem_of_seq; lia].
Qed.

Lemma covers_all_cells n g : covers n g (all_cells n).
Proof. intros r c Hr Hc _. by apply elem_of_all_cells. Qed.

Lemma length_bind_const {A B} (f : A → list B) (l : list A) m :
  (∀ x, length (f x) = m) → length (l ≫= f) = length l * m.
Proof.
  intros Hf. induction l as [|x l IH]; [done|].
  rewrite bind_cons, length_app, Hf, IH. simpl. lia.
Qed.

Lemma length_all_cells n : length (all_cells n) = n * n.
Proof.
  unfold all_cells. rewrite (length_bind_const _ _ n), length_seq; [done|].
  intros r. rewrite (length_bind_const _ _ 1), length_seq; [lia|done].
Qed.

Lemma count_solutions_spec fuel self L σ g brd :
  holds σ brd g → wfg (size self) g → size self mod 3 = 0 →
  valid (size self) g → inrange (size self) g →
  covers (size self) g L → length L < fuel →
  ∃ k, _count_solutions fuel self σ (Some brd) = Ok (k, σ) ∧
       tally (completion (size self) g) k.
Proof.
  revert L σ g. induction fuel as [|fuel IH];
    intros L σ g Hh Hwf Hn Hval Hin Hcov Hlen; [lia|].
  simpl. set (n := size self) in *.
  destruct (find_empty_cell_cases n σ brd) as [(r & c & -> & Hfe)|[-> Hc]];
    [by eapply holds_readable| |]; rewrite bind_ret.
  - apply (first_empty_cell n σ brd g) in Hfe as (Hr & Hcl & Hz & Hget); [|done..].
    apply (count_loop_spec n _ brd g); try done.
    + intros v σ1 Hv Hncf Hh1.
      apply (IH (filter (λ rc, rc ≠ (r, c)) L) σ1 (upd g r c v)); try done.
      * by apply wfg_upd.
      * by apply valid_upd.
      * apply inrange_upd; [done..|lia].
      * apply covers_upd; [done..|lia|done].
      * by eapply covers_shrink.
    + intros v. by rewrite elem_of_nums.
    + unfold nums. apply NoDup_fmap_2; [apply _|apply NoDup_seq].
    + intros s [Hs Hnin]. apply Hnin, elem_of_nums. by eapply completion_cell_range.
  - exists 1. split; [done|]. exists g.
    assert (∀ s, completion n g s ↔ s = g) as Hiff.
    { apply completion_full; [done| |done..]. by eapply complete_full. }
    split; [by apply Hiff|]. intros s'. apply Hiff.
Qed.

Lemma count_solutions_clone_spec fuel self σ g :
  holds σ (board self) g → wfg (size self) g → size self mod 3 = 0 →
  valid (size self) g → inrange (size self) g → depth (size self) ≤ fuel →
  ∃ k σ', _count_solutions fuel self σ None = Ok (k, σ') ∧ σ ⊆ σ' ∧
          tally (completion (size self) g) k.
Proof.
  intros Hh Hwf Hn Hval Hin Hfuel. destruct fuel as [|fuel]; [unfold depth in *; lia|].
  destruct (load σ g) as [brd' σ0] eqn:Hload.
  pose proof (load_spec _ _ _ _ Hload) as (Hsub & Hh' & _).
  destruct (count_solutions_spec (S fuel) self (all_cells (size self)) σ0 g brd')
    as (k & Hcount & Hk); try done.
  { apply covers_all_cells. }
  { rewrite length_all_cells. unfold depth in *. lia. }
  exists k, σ0. split_and!; [|done..].
  simpl in *. by rewrite (clone_load _ _ g), Hload by done.
Qed.

(** ** Checkers *)

Lemma peerb_spec row col r c : peerb row col r c = true ↔ peer row col r c.
Proof.
  unfold peerb, peer. rewrite !orb_true_iff, andb_true_iff, !Nat.eqb_eq. tauto.
Qed.

Lemma wfgb_spec n g : wfgb n g = true → wfg n g.
Proof.
  unfold wfgb. intros [Hlen Hrows]%andb_true_iff. apply Nat.eqb_eq in Hlen.
  split; [done|]. intros r row Hrow. rewrite forallb_forall in Hrows.
  apply Nat.eqb_eq, Hrows, list_elem_of_In. by eapply list_elem_of_lookup_2.
Qed.

Lemma forallb_all_cells n (f : nat * nat → bool) :
  forallb f (all_cells n) = true → ∀ r c, r < n → c < n → f (r, c) = true.
Proof.
  rewrite forallb_forall. intros H r c Hr Hc.
  by apply H, list_elem_of_In, elem_of_all_cells.
Qed.

Lemma validb_spec n g : validb n g = true → valid n g.
Proof.
  intros H r c r' c' Hr Hc Hr' Hc' Hne Hp Hnz.
  pose proof (forallb_all_cells n _ H r c Hr Hc) as Hq. cbv beta in Hq.
  apply (λ Hq, forallb_all_cells n _ Hq r' c' Hr' Hc') in Hq. simpl in Hq.
  rewrite !orb_true_iff, !negb_true_iff, bool_decide_eq_true in Hq.
  destruct Hq as [[[?|Hq]|Hq]|Hq]; [done| | |].
  - apply peerb_spec in Hp. congruence.
  - by apply Z.eqb_eq in Hq.
  - by apply Z.eqb_neq in Hq.
Qed.

Lemma inrangeb_spec n g : inrangeb n g = true → inrange n g.
Proof.
  intros H r c Hr Hc. pose proof (forallb_all_cells n _ H r c Hr Hc) as Hrc.
  clear Hc. rename Hrc into Hc. simpl in Hc.
  apply andb_true_iff in Hc as [?%Z.leb_le ?%Z.leb_le]. lia.
Qed.

Lemma fullb_spec n g : fullb n g = true → full n g.
Proof.
  intros H r c Hr Hc. pose proof (forallb_all_cells n _ H r c Hr Hc) as Hrc.
  clear Hc. rename Hrc into Hc. simpl in Hc.
  by apply negb_true_iff, Z.eqb_neq in Hc.
Qed.

Lemma solved_solved9 : solved 9 solved9.
Proof.
  split_and!; [apply wfgb_spec|apply fullb_spec|apply validb_spec|apply inrangeb_spec];
    by vm_compute.
Qed.

Lemma object_of_holds n g self σ :
  object_of n g = (self, σ) → size self = n ∧ holds σ (board self) g.
Proof.
  unfold object_of. destruct (load ∅ g) as [brd σ0] eqn:Hload. intros [= <- <-].
  split; [done|]. by apply load_spec in Hload as (_ & ? & _).
Qed.

(** ** [_count_solutions] *)

Lemma count_loop_short_circuit n rec brd row col num cands count σ0 σ1 k σ2 σ3 :
  is_valid n σ0 brd row col num = Ok true →
  set σ0 brd row col num = Ok σ1 → rec σ1 = Ok (k, σ2) →
  set σ2 brd row col 0%Z = Ok σ3 → 2 ≤ count + k →
  count_loop n rec brd row col (num :: cands) count σ0 = Ok (count + k, σ3).
Proof.
  intros Hok Hset Hrec Hback Hk. simpl.
  rewrite Hok, bind_ret, Hset, bind_ret, Hrec, bind_ret. cbv zeta.
  rewrite Hback, bind_ret. by destruct (Nat.ltb_spec 1 (count + k)); [|lia].
Qed.

(** C3, as amended.  For a 9×9 board whose cells are 0..9 and which has no
    duplicate non-empty value in a row, column or 3×3 box, [_count_solutions]
    returns; it returns 0 if the board has no valid completion, 1 if it has
    exactly one (in particular on a complete board), and at least 2 if it has
    two or more.  And in every candidate loop, as soon as the running count
    exceeds 1 the loop returns that count, whatever candidates remain. *)
Theorem count_solutions_classifies fuel self σ g :
  size self = 9 → holds σ (board self) g →
  wfg 9 g → valid 9 g → inrange 9 g → depth 9 ≤ fuel →
  (∃ k σ', _count_solutions fuel self σ None = Ok (k, σ') ∧
     ((∀ s, ¬ completion 9 g s) → k = 0) ∧
     ((∃ s, completion 9 g s ∧ ∀ s', completion 9 g s' → s' = s) → k = 1) ∧
     (full 9 g → k = 1) ∧
     ((∃ s s', completion 9 g s ∧ completion 9 g s' ∧ s ≠ s') → 2 ≤ k)) ∧
  (∀ rec brd row col num cands count σ0 σ1 k σ2 σ3,
     is_valid 9 σ0 brd row col num = Ok true →
     set σ0 brd row col num = Ok σ1 → rec σ1 = Ok (k, σ2) →
     set σ2 brd row col 0%Z = Ok σ3 → 2 ≤ count + k →
     count_loop 9 rec brd row col (num :: cands) count σ0 = Ok (count + k, σ3)).
Proof.
  intros Hsz Hh Hwf Hval Hin Hfuel. split; [|apply count_loop_short_circuit].
  destruct (count_solutions_clone_spec fuel self σ g) as (k & σ' & Hcount & _ & Hk);
    rewrite ?Hsz; try done.
  rewrite Hsz in Hk. exists k, σ'. split_and!; [done|..].
  - intros Hnone. by eapply tally_zero.
  - intros Hone. by eapply tally_one.
  - intros Hfull. eapply tally_one; [|done]. exists g.
    assert (∀ s, completion 9 g s ↔ s = g) as Hiff by by apply completion_full.
    split; [by apply Hiff|]. intros s'. apply Hiff.
  - intros Hmany. by eapply tally_many.
Qed.

Lemma count_solutions_classifies_witness :
  let '(self, σ) := object_of 9 puzzle9 in
  ∃ k σ', _count_solutions (depth 9) self σ None = Ok (k, σ') ∧
     ((∃ s, completion 9 puzzle9 s ∧ ∀ s', completion 9 puzzle9 s' → s' = s) → k = 1).
Proof.
  destruct (object_of 9 puzzle9) as [self σ] eqn:Hobj.
  apply object_of_holds in Hobj as [Hsz Hh].
  assert (wfg 9 puzzle9) as Hwf by (apply wfgb_spec; by vm_compute).
  assert (valid 9 puzzle9) as Hval by (apply validb_spec; by vm_compute).
  assert (inrange 9 puzzle9) as Hin by (apply inrangeb_spec; by vm_compute).
  destruct (count_solutions_classifies (depth 9) self σ puzzle9 Hsz Hh Hwf Hval Hin
              (le_n _)) as [(k & σ' & Hcount & _ & Hone & _) _].
  by exists k, σ'.
Defined.

(** The complete grid of ones has no valid completion and is counted once. *)
Lemma count_solutions_counterexample :
  let '(self, σ) := object_of 9 ones9 in
  holds σ (board self) ones9 ∧
  (∀ s, ¬ completion 9 ones9 s) ∧
  ∃ σ', _count_solutions (depth 9) self σ None = Ok (1, σ').
Proof.
  destruct (object_of 9 ones9) as [self σ] eqn:Hobj.
  pose proof (object_of_holds _ _ _ _ Hobj) as [_ Hh].
  vm_compute in Hobj. simplify_eq. split; [done|]. split.
  - intros s [(_ & _ & Hval & _) Hext].
    apply (Hval 0 0 0 1); [lia..|congruence|by left| |].
    + by rewrite (Hext 0 0) by (done || lia).
    + by rewrite (Hext 0 0), (Hext 0 1) by (done || lia).
  - eexists. by vm_compute.
Qed.

Lemma set_frame σ brd r c v σ' : set σ brd r c v = Ok σ' → frame brd σ σ'.
Proof.
  intros (l & row & Hl & _ & _ & ->)%set_Ok l' Hl'.
  rewrite lookup_insert_ne; [done|]. intros <-. apply Hl'.
  by eapply list_elem_of_lookup_2.
Qed.

Lemma count_loop_frame n rec brd row col cands count σ k σ' :
  (∀ σ1 k1 σ2, rec σ1 = Ok (k1, σ2) → frame brd σ1 σ2) →
  count_loop n rec brd row col cands count σ = Ok (k, σ') → frame brd σ σ'.
Proof.
  intros Hrec. revert count σ. induction cands as [|v cands IH]; intros count σ; simpl.
  { intros [= <- <-]. apply frame_refl. }
  intros (ok & _ & H)%bind_Ok. destruct ok; [|by apply (IH count)].
  apply bind_Ok in H as (σ1 & Hset%set_frame & H).
  apply bind_Ok in H as ([k1 σ2] & Hk%Hrec & H). cbv zeta in H.
  apply bind_Ok in H as (σ3 & Hback%set_frame & H).
  assert (frame brd σ σ3) by eauto using frame_trans.
  destruct (1 <? count + k1).
  - by simplify_eq.
  - eapply frame_trans; [done|]. by eapply IH.
Qed.

Lemma count_solutions_frame fuel self σ brd k σ' :
  _count_solutions fuel self σ (Some brd) = Ok (k, σ') → frame brd σ σ'.
Proof.
  revert σ k σ'. induction fuel as [|fuel IH]; intros σ k σ'; simpl; [done|].
  intros (cell & _ & H)%bind_Ok. destruct cell as [[row col]|].
  - eapply count_loop_frame; [|done]. intros σ1 k1 σ2. apply IH.
  - simplify_eq. apply frame_refl.
Qed.

Lemma count_solutions_extends fuel self σ k σ' :
  _count_solutions fuel self σ None = Ok (k, σ') → σ ⊆ σ'.
Proof.
  destruct fuel as [|fuel]; [done|]. simpl.
  intros ([brd' σ0] & (Hsub & Hnew)%clone_fresh & H)%bind_Ok.
  assert (frame brd' σ0 σ') as Hfr.
  { apply (count_solutions_frame (S fuel) self σ0 brd' k). by simpl. }
  apply map_subseteq_spec. intros l row Hl.
  rewrite Hfr; [by eapply lookup_weaken|]. intros Hin%Hnew. congruence.
Qed.

Lemma get_weaken (σ σ' : gmap nat (list Z)) brd r c v :
  σ ⊆ σ' → get σ brd r c = Ok v → get σ' brd r c = Ok v.
Proof.
  intros Hsub (l & row & Hl & Hrow & Hv)%get_Ok. apply get_Ok.
  exists l, row. split_and!; [done| |done]. by eapply lookup_weaken.
Qed.

(** C6.  When [_count_solutions] is called without a board and returns, every
    row object that existed at the call is unchanged (the store only grew by
    the rows of the clone), so every cell of [self.board] reads as before. *)
Theorem count_solutions_board_untouched fuel self σ k σ' :
  _count_solutions fuel self σ None = Ok (k, σ') →
  σ ⊆ σ' ∧
  ∀ r c v, get σ (board self) r c = Ok v → get σ' (board self) r c = Ok v.
Proof.
  intros Hsub%count_solutions_extends. split; [done|].
  intros r c v. by apply get_weaken.
Qed.

Lemma count_solutions_board_untouched_witness :
  let '(self, σ) := object_of 9 puzzle9 in
  ∃ σ', _count_solutions (depth 9) self σ None = Ok (1, σ') ∧ σ ⊆ σ'.
Proof.
  destruct (object_of 9 puzzle9) as [self σ] eqn:Hobj.
  assert (∃ σ', _count_solutions (depth 9) self σ None = Ok (1, σ')) as [σ' Hcount].
  { vm_compute in Hobj. simplify_eq. eexists. by vm_compute. }
  exists σ'. split; [done|].
  by destruct (count_solutions_board_untouched (depth 9) self σ 1 σ' Hcount).
Defined.

(** ** Runs on concrete boards *)

Lemma find_empty_cell_row_major_witness :
  let '(self, σ) := object_of 9 puzzle9 in
  (∃ o, find_empty_cell 9 σ (board self) = Ok o) ∧
  (∀ r c, find_empty_cell 9 σ (board self) = Ok (Some (r, c)) ↔
          first_empty 9 σ (board self) r c) ∧
  (find_empty_cell 9 σ (board self) = Ok None ↔ complete 9 σ (board self)).
Proof.
  destruct (object_of 9 puzzle9) as [self σ] eqn:Hobj.
  apply object_of_holds in Hobj as [_ Hh].
  apply find_empty_cell_row_major.
  apply (holds_readable 9 σ (board self) puzzle9 Hh).
  apply wfgb_spec. by vm_compute.
Defined.

Lemma is_valid_sound_witness :
  let '(self, σ) := object_of 9 puzzle9 in
  (∃ b, is_valid 9 σ (board self) 0 2 5%Z = Ok b) ∧
  (is_valid 9 σ (board self) 0 2 5%Z = Ok false ↔ conflict 9 σ (board self) 0 2 5%Z).
Proof.
  destruct (object_of 9 puzzle9) as [self σ] eqn:Hobj.
  apply object_of_holds in Hobj as [_ Hh].
  apply is_valid_sound; [|done|lia|lia].
  apply (holds_readable 9 σ (board self) puzzle9 Hh).
  apply wfgb_spec. by vm_compute.
Defined.

Lemma solve_unsolvable_unchanged_witness :
  let '(self, σ) := object_of 9 stuck9 in
  ∃ σ', solve (depth 9) self σ None = Ok (false, σ') ∧ σ' = σ.
Proof.
  destruct (object_of 9 stuck9) as [self σ] eqn:Hobj.
  assert (∃ σ', solve (depth 9) self σ None = Ok (false, σ')) as [σ' Hsolve].
  { vm_compute in Hobj. simplify_eq. eexists. by vm_compute. }
  exists σ'. split; [done|].
  by destruct (solve_unsolvable_unchanged (depth 9) self σ None σ' Hsolve).
Defined.

Lemma solve_preserves_givens_witness :
  let '(self, σ) := object_of 9 puzzle9 in
  ∃ σ', solve (depth 9) self σ None = Ok (true, σ') ∧
        get σ' (board self) 0 0 = Ok 5%Z.
Proof.
  destruct (object_of 9 puzzle9) as [self σ] eqn:Hobj.
  assert (∃ σ', solve (depth 9) self σ None = Ok (true, σ') ∧
                get σ (board self) 0 0 = Ok 5%Z) as (σ' & Hsolve & Hget).
  { vm_compute in Hobj. simplify_eq. eexists. split; by vm_compute. }
  exists σ'. split; [done|].
  by apply (solve_preserves_givens (depth 9) self σ None true σ' 0 0 5%Z Hsolve Hget).
Defined.

Lemma solve_true_solved_witness :
  let '(self, σ) := object_of 9 puzzle9 in
  ∃ σ' s, solve (depth 9) self σ None = Ok (true, σ') ∧
          holds σ' (board self) s ∧ units_are_permutations 9 s.
Proof.
  destruct (object_of 9 puzzle9) as [self σ] eqn:Hobj.
  assert (∃ σ', solve (depth 9) self σ None = Ok (true, σ')) as [σ' Hsolve].
  { vm_compute in Hobj. simplify_eq. eexists. by vm_compute. }
  apply object_of_holds in Hobj as [Hsz Hh].
  assert (wfg 9 puzzle9) as Hwf by (apply wfgb_spec; by vm_compute).
  assert (valid 9 puzzle9) as Hval by (apply validb_spec; by vm_compute).
  assert (inrange 9 puzzle9) as Hin by (apply inrangeb_spec; by vm_compute).
  destruct (solve_true_solved (depth 9) self σ puzzle9 None σ' Hsz Hh Hwf Hval Hin Hsolve)
    as (s & Hhs & _ & _ & _ & Hperm).
  by exists σ', s.
Defined.

(** [solve] accepts the complete grid of ones, whose rows are no
    permutations of 1..9. *)
Lemma solve_true_counterexample :
  let '(self, σ) := object_of 9 ones9 in
  ∃ σ', solve (depth 9) self σ None = Ok (true, σ') ∧
        holds σ' (board self) ones9 ∧ ¬ units_are_permutations 9 ones9.
Proof.
  destruct (object_of 9 ones9) as [self σ] eqn:Hobj.
  pose proof (object_of_holds _ _ _ _ Hobj) as [_ Hh].
  exists σ. split_and!; [|done|].
  - vm_compute in Hobj. simplify_eq. by vm_compute.
  - intros (Hrow & _). specialize (Hrow 0 ltac:(lia)).
    assert (2%Z ∈ values ones9 (row_cells 9 0)) as Hin.
    { rewrite Hrow. apply elem_of_nums. lia. }
    vm_compute in Hin.
    repeat (apply elem_of_cons in Hin as [Hin|Hin]; [discriminate|]).
    by apply elem_of_nil in Hin.
Qed.

(** ** The search of [_fill_board] *)

Section Fill.
Context (rng : Type) (shuffle : ∀ A : Type, rng → list A → list A * rng).
Hypothesis shuffle_perm : ∀ A (ρ : rng) (l : list A), (shuffle A ρ l).1 ≡ₚ l.

Lemma fill_loop_spec n rec brd g row col cands ρ σ :
  wfg n g → n mod 3 = 0 → row < n → col < n → cell g row col = 0%Z →
  (∀ v ρ1 σ1, (1 ≤ v ≤ Z.of_nat n)%Z → ¬ gconflict n g row col v →
     holds σ1 brd (upd g row col v) →
     ∃ b ρ2 σ2, rec ρ1 σ1 = Ok (b, ρ2, σ2) ∧
                search_post n brd (upd g row col v) σ1 b σ2) →
  (∀ v, v ∈ cands → (1 ≤ v ≤ Z.of_nat n)%Z) →
  holds σ brd g →
  ∃ b ρ' σ', fill_loop rng n rec brd row col cands ρ σ = Ok (b, ρ', σ') ∧
    frame brd σ σ' ∧
    if b then ∃ s, holds σ' brd s ∧ completion n g s
    else σ' = σ ∧ ∀ s, completion n g s → cell s row col ∉ cands.
Proof.
  intros Hwf Hn Hrow Hcol Hempty Hrec Hcands Hh. revert ρ.
  induction cands as [|v cands IH]; intros ρ; simpl.
  { exists false, ρ, σ. split_and!; [done|apply frame_refl|done|].
    intros s _ []%elem_of_nil. }
  assert (1 ≤ v ≤ Z.of_nat n)%Z as Hv by (apply Hcands; left).
  specialize (IH ltac:(by intros w Hw; apply Hcands; right)).
  destruct (holds_is_valid n σ brd g row col v) as [[-> Hcf]|[-> Hcf]]; [done..| |];
    rewrite bind_ret.
  - destruct (IH ρ) as (b & ρ' & σ' & Hloop & Hfr & Hpost).
    exists b, ρ', σ'. split_and!; [done..|]. destruct b; [done|].
    destruct Hpost as [-> Hnone]. split; [done|].
    intros s Hs [Heq|Hin]%elem_of_cons; [|by eapply Hnone].
    subst v. by apply (completion_no_conflict n g s row col).
  - destruct (holds_set n σ brd g row col v) as (σ1 & Hset & Hh1 & Hfr1); [done..|].
    rewrite Hset, bind_ret.
    destruct (Hrec v ρ σ1) as (b1 & ρ2 & σ2 & -> & Hfr2 & Hpost1); [done..|].
    rewrite bind_ret. destruct b1.
    + exists true, ρ2, σ2. split_and!; [done|by eapply frame_trans|].
      destruct Hpost1 as (s & Hhs & Hs). exists s. split; [done|].
      apply (completion_upd n) in Hs; [|done..|lia]. by destruct Hs.
    + destruct Hpost1 as [-> Hnone1].
      rewrite (set_undo σ brd row col 0%Z v σ1); [| |done].
      2:{ rewrite (holds_get n _ _ g) by done. by rewrite Hempty. }
      rewrite bind_ret. destruct (IH ρ2) as (b & ρ' & σ' & Hloop & Hfr & Hpost).
      exists b, ρ', σ'. split_and!; [done..|]. destruct b; [done|].
      destruct Hpost as [-> Hnone]. split; [done|].
      intros s Hs [Heq|Hin]%elem_of_cons; [|by eapply Hnone].
      subst v. apply (Hnone1 s). apply (completion_upd n); [done..|lia|done].
Qed.

Lemma fill_board_spec fuel n L ρ σ g brd :
  holds σ brd g → wfg n g → n mod 3 = 0 → valid n g → inrange n g →
  covers n g L → length L < fuel →
  ∃ b ρ' σ', _fill_board rng shuffle fuel n ρ σ brd = Ok (b, ρ', σ') ∧
             search_post n brd g σ b σ'.
Proof.
  revert L ρ σ g. induction fuel as [|fuel IH];
    intros L ρ σ g Hh Hwf Hn Hval Hin Hcov Hlen; [lia|].
  simpl.
  destruct (find_empty_cell_cases n σ brd) as [(r & c & -> & Hfe)|[-> Hc]];
    [by eapply holds_readable| |]; rewrite bind_ret.
  - apply (first_empty_cell n σ brd g) in Hfe as (Hr & Hcl & Hz & Hget); [|done..].
    pose proof (shuffle_perm Z ρ (nums n)) as Hperm.
    destruct (shuffle Z ρ (nums n)) as [cands ρ1]. simpl in Hperm.
    destruct (fill_loop_spec n (λ ρ' σ', _fill_board rng shuffle fuel n ρ' σ' brd)
                brd g r c cands ρ1 σ) as (b & ρ' & σ' & -> & Hfr & Hpost); [done..| | |done|].
    + intros v ρ2 σ1 Hv Hncf Hh1.
      apply (IH (filter (λ rc, rc ≠ (r, c)) L) ρ2 σ1 (upd g r c v)); try done.
      * by apply wfg_upd.
      * by apply valid_upd.
      * apply inrange_upd; [done..|lia].
      * apply covers_upd; [done..|lia|done].
      * by eapply covers_shrink.
    + intros v. rewrite Hperm. by rewrite elem_of_nums.
    + exists b, ρ', σ'. split; [done|]. split; [done|]. destruct b; [done|].
      destruct Hpost as [-> Hnone]. split; [done|]. intros s Hs.
      apply (Hnone s Hs). rewrite Hperm. apply elem_of_nums.
      by eapply completion_cell_range.
  - exists true, ρ, σ. split; [done|]. split; [apply frame_refl|].
    exists g. split; [done|]. apply completion_full; [done| |done..].
    by eapply complete_full.
Qed.

End Fill.

(** ** Grids below a solved grid *)

Lemma extends_valid n g s :
  solved n s → extends n g s → valid n g ∧ inrange n g.
Proof.
  intros (Hwfs & Hfull & Hval & Hin) Hext. split.
  - intros r c r' c' Hr Hc Hr' Hc' Hne Hp Hnz Heq.
    apply (Hval r c r' c'); [done..|by apply Hfull|].
    rewrite (Hext r c), (Hext r' c'); [done..|congruence|done|done|done].
  - intros r c Hr Hc. destruct (decide (cell g r c = 0%Z)) as [->|Hnz].
    + lia.
    + rewrite <- (Hext r c) by done. by apply Hin.
Qed.

Lemma extends_clear n g s r c :
  wfg n g → r < n → c < n → extends n g s → extends n (upd g r c 0%Z) s.
Proof.
  intros Hwf Hr Hc Hext r' c' Hr' Hc'.
  destruct (decide ((r', c') = (r, c))) as [[= -> ->]|Hne].
  - by rewrite (cell_upd_eq n).
  - rewrite cell_upd_ne by done. by apply Hext.
Qed.

Lemma completion_below n g g' s :
  (∀ r c, r < n → c < n → cell g' r c ≠ 0%Z → cell g' r c = cell g r c) →
  completion n g s → completion n g' s.
Proof.
  intros Hsub [Hs Hext]. split; [done|]. intros r c Hr Hc Hnz.
  rewrite (Hsub r c) by done. apply Hext; [done..|]. by rewrite <- (Hsub r c).
Qed.

Lemma ambiguous_clear n g r c r' c' :
  wfg n g → r < n → c < n → r' < n → c' < n →
  ambiguous n g r c → ambiguous n (upd g r' c' 0%Z) r c.
Proof.
  intros Hwf Hr Hc Hr' Hc' (s1 & s2 & Hs1 & Hs2 & Hne).
  assert (∀ x y, x < n → y < n →
            cell (upd (upd g r' c' 0%Z) r c 0%Z) x y ≠ 0%Z →
            cell (upd (upd g r' c' 0%Z) r c 0%Z) x y = cell (upd g r c 0%Z) x y) as Hsub.
  { intros x y Hx Hy. destruct (decide ((x, y) = (r, c))) as [[= -> ->]|Hne1].
    { rewrite !(cell_upd_eq n); [done..|by apply wfg_upd|done|done]. }
    rewrite !(cell_upd_ne _ r c) by done.
    destruct (decide ((x, y) = (r', c'))) as [[= -> ->]|Hne2].
    - by rewrite (cell_upd_eq n).
    - by rewrite cell_upd_ne. }
  exists s1, s2. split_and!; [by eapply completion_below..|done].
Qed.

(** ** Counting empty cells *)

Lemma length_filter_gain `{EqDecision A} (P Q : A → Prop)
    `{∀ x, Decision (P x)} `{∀ x, Decision (Q x)} (l : list A) x :
  NoDup l → x ∈ l → Q x → ¬ P x → (∀ y, y ≠ x → P y ↔ Q y) →
  length (filter Q l) = S (length (filter P l)).
Proof.
  intros Hnd Hin HQ HP Hiff. induction l as [|y l IH]; [by apply elem_of_nil in Hin|].
  apply NoDup_cons in Hnd as [Hy Hnd]. destruct (decide (y = x)) as [->|Hne].
  - rewrite filter_cons_True, filter_cons_False by done. simpl. f_equal.
    clear IH Hin. induction l as [|z l IH]; [done|].
    apply not_elem_of_cons in Hy as [Hz Hy]. apply NoDup_cons in Hnd as [_ Hnd].
    rewrite !filter_cons. specialize (IH Hy Hnd).
    destruct (decide (Q z)) as [HQz|HQz], (decide (P z)) as [HPz|HPz]; simpl;
      [by f_equal| |  |done].
    + destruct HPz. by apply Hiff.
    + destruct HQz. by apply Hiff.
  - apply elem_of_cons in Hin as [->|Hin]; [done|]. specialize (IH Hnd Hin).
    rewrite !filter_cons.
    destruct (decide (Q y)) as [HQy|HQy], (decide (P y)) as [HPy|HPy]; simpl;
      [by f_equal| |  |done].
    + destruct HPy. by apply Hiff.
    + destruct HQy. by apply Hiff.
Qed.

Lemma NoDup_all_cells n : NoDup (all_cells n).
Proof.
  unfold all_cells. apply NoDup_bind; [| |apply NoDup_seq].
  - intros r r' p _ _ (c & Hp & _)%list_elem_of_bind (c' & Hp' & _)%list_elem_of_bind.
    apply list_elem_of_singleton in Hp, Hp'. congruence.
  - intros r _. apply NoDup_bind; [| |apply NoDup_seq].
    + intros c c' p _ _ Hp%list_elem_of_singleton Hp'%list_elem_of_singleton. congruence.
    + intros c _. apply NoDup_singleton.
Qed.

Lemma empties_clear n g r c :
  wfg n g → r < n → c < n → cell g r c ≠ 0%Z →
  empties n (upd g r c 0%Z) = S (empties n g).
Proof.
  intros Hwf Hr Hc Hnz. unfold empties.
  apply (length_filter_gain _ _ _ (r, c)).
  - apply NoDup_all_cells.
  - by apply elem_of_all_cells.
  - simpl. by rewrite (cell_upd_eq n).
  - done.
  - intros [r' c'] Hne. simpl. by rewrite cell_upd_ne.
Qed.

Lemma empties_full n g : full n g → empties n g = 0.
Proof.
  intros Hfull. unfold empties.
  assert (∀ l : list (nat * nat), (∀ p, p ∈ l → p ∈ all_cells n) →
            filter (λ p, cell g p.1 p.2 = 0%Z) l = []) as Hnil.
  { induction l as [|[r c] l IH]; intros Hl; [done|].
    rewrite filter_cons_False.
    - apply IH. intros p Hp. apply Hl. by right.
    - simpl. apply Hfull; apply (elem_of_all_cells n r c), Hl; left. }
  by rewrite Hnil.
Qed.

(** ** The removal loop of [generate_puzzle] *)

Lemma puzzle_inv_completion brd sol s σ g :
  puzzle_inv brd sol s σ g → completion 9 g s.
Proof. intros (_ & _ & _ & _ & Hs & Hext & _). by split. Qed.

Lemma holds_other (σ σ' : gmap nat (list Z)) brd sol s :
  (∀ l, l ∈ brd → l ∉ sol) → frame brd σ σ' → holds σ sol s → holds σ' sol s.
Proof.
  intros Hdisj Hfr Hh. eapply holds_frame; [done|].
  intros l Hl. apply Hfr. intros Hin. by apply (Hdisj l).
Qed.

Lemma tally_ambiguous (P : list (list Z) → Prop) k s :
  tally P k → P s → k ≠ 1 → ∃ s1 s2, P s1 ∧ P s2 ∧ s1 ≠ s2.
Proof.
  destruct k as [|[|k]]; simpl; [|done|done].
  intros Hnone Hs. by destruct (Hnone s).
Qed.

Lemma remove_loop_cons self target r c cells removed σ :
  remove_loop self target ((r, c) :: cells) removed σ =
  if target <=? removed then Ok (removed, σ)
  else
    temp ← get σ (board self) r c;
    σ1 ← set σ (board self) r c 0%Z;
    '(solutions, σ2) ← _count_solutions (depth (size self)) self σ1 None;
    if solutions =? 1 then remove_loop self target cells (S removed) σ2
    else
      σ3 ← set σ2 (board self) r c temp;
      remove_loop self target cells removed σ3.
Proof. reflexivity. Qed.

Lemma remove_loop_spec self target sol s cells :
  size self = 9 →
  ∀ visited removed σ g,
  puzzle_inv (board self) sol s σ g →
  NoDup cells →
  (∀ p, p ∈ cells → p.1 < 9 ∧ p.2 < 9 ∧ cell g p.1 p.2 ≠ 0%Z) →
  empties 9 g = removed → removed ≤ target →
  (∀ p, p ∈ visited → p.1 < 9 → p.2 < 9 → cell g p.1 p.2 ≠ 0%Z →
        ambiguous 9 g p.1 p.2) →
  ∃ removed' σ' g',
    remove_loop self target cells removed σ = Ok (removed', σ') ∧
    puzzle_inv (board self) sol s σ' g' ∧
    empties 9 g' = removed' ∧ removed' ≤ target ∧
    (removed' < target →
     ∀ p, p ∈ visited ++ cells → p.1 < 9 → p.2 < 9 → cell g' p.1 p.2 ≠ 0%Z →
          ambiguous 9 g' p.1 p.2).
Proof.
  intros Hsz. induction cells as [|[r c] cells IH];
    intros visited removed σ g Hinv Hnd Hcells Hemp Hle Hvis.
  { exists removed, σ, g. split_and!; [done..|]. intros _ p. rewrite app_nil_r. apply Hvis. }
  rewrite remove_loop_cons. destruct (Nat.leb_spec target removed) as [Hbreak|Hgo].
  { exists removed, σ, g. split_and!; [done..|]. lia. }
  apply NoDup_cons in Hnd as [Hrc Hnd].
  destruct (Hcells (r, c) ltac:(left)) as (Hr & Hc & Hnz). simpl in Hr, Hc, Hnz.
  pose proof (puzzle_inv_completion _ _ _ _ _ Hinv) as Hcomp.
  destruct Hinv as (Hh & Hhsol & Hdisj & Hwf & Hs & Hext & Huniq).
  rewrite (holds_get 9 σ _ g) by done. rewrite bind_ret.
  destruct (holds_set 9 σ (board self) g r c 0%Z) as (σ1 & -> & Hh1 & Hfr1); [done..|].
  rewrite bind_ret.
  pose proof (extends_clear 9 g s r c Hwf Hr Hc Hext) as Hext0.
  destruct (extends_valid 9 _ s Hs Hext0) as [Hval0 Hin0].
  pose proof (wfg_upd 9 g r c 0%Z Hwf) as Hwf0.
  destruct (count_solutions_clone_spec (depth (size self)) self σ1 (upd g r c 0%Z))
    as (k & σ2 & -> & Hsub & Hk); rewrite ?Hsz; try done.
  rewrite Hsz in Hk. rewrite bind_ret.
  assert (holds σ2 (board self) (upd g r c 0%Z)) as Hh2 by (by eapply holds_weaken).
  assert (holds σ2 sol s) as Hhsol2.
  { eapply holds_weaken; [done|]. by eapply holds_other. }
  assert (∀ p, p ∈ cells → p.1 < 9 ∧ p.2 < 9 ∧ cell (upd g r c 0%Z) p.1 p.2 ≠ 0%Z)
    as Hcells0.
  { intros [r' c'] Hp. destruct (Hcells (r', c')) as (? & ? & ?); [by right|].
    split_and!; [done..|]. simpl in *. rewrite cell_upd_ne; [done|].
    intros [= -> ->]. done. }
  destruct (Nat.eqb_spec k 1) as [->|Hk1].
  - destruct (IH (visited ++ [(r, c)]) (S removed) σ2 (upd g r c 0%Z))
      as (removed' & σ' & g' & Hloop & Hinv' & Hemp' & Hle' & Hvis'); try done.
    + split_and!; try done. destruct Hk as (s0 & Hs0 & Huniq0).
      intros s' Hs'. rewrite (Huniq0 s') by done. symmetry. apply Huniq0. by split.
    + rewrite (empties_clear 9) by done. by rewrite Hemp.
    + intros [r' c'] Hp Hr' Hc' Hnz'. simpl in *.
      assert ((r', c') ≠ (r, c)) as Hne.
      { intros [= -> ->]. by rewrite (cell_upd_eq 9) in Hnz'. }
      apply ambiguous_clear; [done..|]. rewrite cell_upd_ne in Hnz' by done.
      apply elem_of_app in Hp as [Hp|Hp%list_elem_of_singleton]; [|done].
      by apply (Hvis (r', c')).
    + exists removed', σ', g'. split_and!; [done..|].
      intros Hlt p Hp. apply Hvis'; [done|]. rewrite <- app_assoc. done.
  - destruct (holds_set 9 σ2 (board self) (upd g r c 0%Z) r c (cell g r c))
      as (σ3 & -> & Hh3 & Hfr3); [done..|]. rewrite bind_ret.
    rewrite (upd_upd 9), (upd_same 9) in Hh3 by done.
    destruct (IH (visited ++ [(r, c)]) removed σ3 g)
      as (removed' & σ' & g' & Hloop & Hinv' & Hemp' & Hle' & Hvis'); try done.
    + split_and!; try done. by eapply holds_other.
    + intros p Hp. apply Hcells. by right.
    + intros [r' c'] [Hp|Hp%list_elem_of_singleton]%elem_of_app Hr' Hc' Hnz'.
      * by apply (Hvis (r', c')).
      * simplify_eq. simpl. eapply tally_ambiguous; [done| |done]. by split.
    + exists removed', σ', g'. split_and!; [done..|].
      intros Hlt p Hp. apply Hvis'; [done|]. rewrite <- app_assoc. done.
Qed.

(** ** [generate_board] and [generate_puzzle] *)

Lemma cell_zeros n r c : cell (replicate n (replicate n 0%Z)) r c = 0%Z.
Proof.
  unfold cell. destruct (replicate n (replicate n 0%Z) !! r) as [row|] eqn:Hrow; [|done].
  apply lookup_replicate_1 in Hrow as [-> _]. simpl.
  destruct (replicate n 0%Z !! c) as [v|] eqn:Hv; [|done].
  by apply lookup_replicate_1 in Hv as [-> _].
Qed.

Lemma wfg_zeros n : wfg n (replicate n (replicate n 0%Z)).
Proof.
  split; [by rewrite length_replicate|].
  intros r row [-> _]%lookup_replicate_1. by rewrite length_replicate.
Qed.

Lemma holds_allocated (σ : gmap nat (list Z)) brd g l :
  holds σ brd g → l ∈ brd → is_Some (σ !! l).
Proof.
  intros (_ & Hlen & Hrows) [r Hr]%list_elem_of_lookup.
  destruct (lookup_lt_is_Some_2 g r) as [row Hrow].
  { rewrite <- Hlen. by eapply lookup_lt_Some. }
  exists row. by eapply Hrows.
Qed.

Lemma clone_spec (σ : gmap nat (list Z)) brd g :
  holds σ brd g →
  ∃ brd' σ', clone σ brd = Ok (brd', σ') ∧ σ ⊆ σ' ∧ holds σ' brd' g ∧
             holds σ' brd g ∧ (∀ l, l ∈ brd → l ∉ brd').
Proof.
  intros Hh. destruct (load σ g) as [brd' σ'] eqn:Hload.
  pose proof (load_spec _ _ _ _ Hload) as (Hsub & Hh' & Hnew). exists brd', σ'.
  split_and!; [by rewrite (clone_load σ brd g), Hload|done|done|by eapply holds_weaken|].
  intros l Hl Hl'. destruct (holds_allocated _ _ _ _ Hh Hl) as [row Hrow].
  rewrite (Hnew l Hl') in Hrow. done.
Qed.

Section Generator.
Context (rng : Type) (shuffle : ∀ A : Type, rng → list A → list A * rng).
Hypothesis shuffle_perm : ∀ A (ρ : rng) (l : list A), (shuffle A ρ l).1 ≡ₚ l.

Lemma generate_board_spec self ρ σ :
  size self = 9 →
  ∃ brd sol ρ' σ' s,
    generate_board rng shuffle self ρ σ
      = Ok (mkSudoku 9 brd (Some sol) (original_puzzle self), ρ', σ') ∧
    holds σ' brd s ∧ holds σ' sol s ∧ (∀ l, l ∈ brd → l ∉ sol) ∧ solved 9 s.
Proof.
  intros Hsz. unfold generate_board. rewrite Hsz, zeros_load.
  destruct (load σ (replicate 9 (replicate 9 0%Z))) as [brd σ1] eqn:Hload.
  apply load_spec in Hload as (_ & Hh1 & _). cbn [size board solution original_puzzle].
  assert (extends 9 (replicate 9 (replicate 9 0%Z)) solved9) as Hext.
  { intros r c _ _ []. apply cell_zeros. }
  destruct (extends_valid 9 _ _ solved_solved9 Hext) as [Hval Hin].
  destruct (fill_board_spec rng shuffle shuffle_perm (depth 9) 9 (all_cells 9) ρ σ1
              (replicate 9 (replicate 9 0%Z)) brd)
    as (b & ρ' & σ2 & -> & Hfr & Hpost); [done|apply wfg_zeros|done..| | |].
  { apply covers_all_cells. }
  { rewrite length_all_cells. unfold depth. lia. }
  rewrite bind_ret. destruct b.
  - destruct Hpost as (s & Hh2 & Hs & _).
    destruct (clone_spec σ2 brd s Hh2) as (sol & σ3 & -> & _ & Hhsol & Hh3 & Hdisj).
    rewrite bind_ret. by exists brd, sol, ρ', σ3, s.
  - destruct Hpost as [_ Hnone]. destruct (Hnone solved9).
    split; [apply solved_solved9|done].
Qed.

Lemma generate_puzzle_spec self ρ σ difficulty :
  size self = 9 →
  ∃ self' ρ' σ' gv s,
    generate_puzzle rng shuffle self ρ σ difficulty = Ok (self', ρ', σ') ∧
    generated (squares_to_remove difficulty) self' σ' gv s.
Proof.
  intros Hsz. unfold generate_puzzle.
  destruct (generate_board_spec self ρ σ Hsz)
    as (brd & sol & ρ1 & σ1 & s & -> & Hh & Hhsol & Hdisj & Hs).
  rewrite bind_ret. cbn [size board solution original_puzzle].
  pose proof (shuffle_perm (nat * nat)%type ρ1 (all_cells 9)) as Hperm.
  destruct (shuffle (nat * nat)%type ρ1 (all_cells 9)) as [cells ρ2]. simpl in Hperm.
  pose proof Hs as (Hwf & Hfull & Hval & Hin).
  set (self1 := mkSudoku 9 brd (Some sol) (original_puzzle self)).
  destruct (remove_loop_spec self1 (squares_to_remove difficulty) sol s cells eq_refl
              [] 0 σ1 s) as (removed & σ2 & gv & -> & Hinv & Hemp & Hle & Hstuck).
  - split_and!; try done. apply completion_full; done.
  - rewrite Hperm. apply NoDup_all_cells.
  - intros [r c] Hp. rewrite Hperm in Hp. apply elem_of_all_cells in Hp as [Hr Hc].
    split_and!; [done..|]. by apply Hfull.
  - by apply empties_full.
  - lia.
  - by intros p ?%elem_of_nil.
  - rewrite bind_ret. destruct Hinv as (Hhgv & Hhsol2 & _ & Hwfgv & _ & Hext & Huniq).
    destruct (clone_spec σ2 brd gv Hhgv) as (orig & σ3 & Hclone & Hsub & Hhorig & Hh3 & Hdo).
    subst self1. cbn [size board solution original_puzzle] in *.
    rewrite Hclone, bind_ret. eexists _, ρ2, σ3, gv, s. split; [done|].
    exists sol, orig. cbn [size board solution original_puzzle].
    split_and!; try done.
    + by eapply holds_weaken.
    + by rewrite Hemp.
    + rewrite Hemp. intros Hlt r c Hr Hc Hnz. apply (Hstuck Hlt (r, c)); [|done..].
      rewrite app_nil_l, Hperm. by apply elem_of_all_cells.
Qed.

End Generator.

(** ** The move of [play] *)

Lemma make_move_locked self σ orig row col val v :
  original_puzzle self = Some orig → (0 ≤ row)%Z → (0 ≤ col)%Z →
  get σ orig (Z.to_nat row) (Z.to_nat col) = Ok v → v ≠ 0%Z →
  ∃ msg, make_move self σ row col val = Ok (σ, Some msg).
Proof.
  intros Horig Hrow Hcol Hget Hv. unfold make_move.
  destruct (_ && _)%bool; [|by eexists].
  rewrite Horig, bind_ret, Hget, bind_ret.
  destruct (Z.eqb_spec v 0); [done|]. by eexists.
Qed.

Lemma make_move_inv self orig gv σ row col val σ' msg :
  size self = 9 → original_puzzle self = Some orig →
  (∀ l, l ∈ board self → l ∉ orig) → wfg 9 gv →
  locked_inv self orig gv σ →
  make_move self σ row col val = Ok (σ', msg) →
  locked_inv self orig gv σ'.
Proof.
  intros Hsz Horig Hdisj Hwfgv (Hho & g & Hh & Hwf & Hext). unfold make_move.
  rewrite Hsz, Horig.
  destruct (_ && _)%bool eqn:Hrange; [|intros ?; simplify_eq; by split; [|exists g]].
  rewrite !andb_true_iff in Hrange.
  destruct Hrange as [[[[[Hr0%Z.leb_le Hr9%Z.ltb_lt] Hc0%Z.leb_le] Hc9%Z.ltb_lt] _] _].
  assert (Z.to_nat row < 9 ∧ Z.to_nat col < 9) as [Hr Hc] by lia.
  rewrite bind_ret, (holds_get 9 σ orig gv) by done. rewrite bind_ret.
  destruct (Z.eqb_spec (cell gv (Z.to_nat row) (Z.to_nat col)) 0) as [Hz|Hnz]; simpl.
  2:{ intros ?; simplify_eq. by split; [|exists g]. }
  intros (ok & _ & H)%bind_Ok. destruct ok; [|simplify_eq; by split; [|exists g]].
  apply bind_Ok in H as (σ1 & Hset & H). simplify_eq.
  destruct (holds_set 9 σ (board self) g (Z.to_nat row) (Z.to_nat col) val)
    as (σ2 & Hset' & Hh2 & Hfr); [done..|].
  rewrite Hset in Hset'. simplify_eq. split; [by eapply holds_other|].
  exists (upd g (Z.to_nat row) (Z.to_nat col) val). split_and!; [done|by apply wfg_upd|].
  intros r c Hr' Hc' Hnz. rewrite cell_upd_ne; [by apply Hext|]. congruence.
Qed.

Lemma play_moves_inv self orig gv moves σ σ' :
  size self = 9 → original_puzzle self = Some orig →
  (∀ l, l ∈ board self → l ∉ orig) → wfg 9 gv →
  locked_inv self orig gv σ →
  play_moves self σ moves = Ok σ' →
  locked_inv self orig gv σ'.
Proof.
  intros Hsz Horig Hdisj Hwfgv. revert σ.
  induction moves as [|[[row col] val] moves IH]; intros σ Hinv; simpl.
  { by intros [= <-]. }
  intros ([σ1 msg] & Hmove & Hrest)%bind_Ok.
  eapply IH; [|done]. by eapply make_move_inv.
Qed.

(** ** The generator *)

Section Claims.
Context (rng : Type) (shuffle : ∀ A : Type, rng → list A → list A * rng).
Hypothesis shuffle_perm : ∀ A (ρ : rng) (l : list A), (shuffle A ρ l).1 ≡ₚ l.

(** C1.  On a 9×9 game, under every random source, [generate_puzzle]
    returns; the givens left on the board have exactly one valid completion,
    it is the grid held by [solution], [_count_solutions] on the givens
    returns 1, and [solve] on a copy of the givens produces the solution. *)
Theorem generate_puzzle_unique self ρ σ difficulty :
  size self = 9 →
  ∃ self' ρ' σ' sol gv s,
    generate_puzzle rng shuffle self ρ σ difficulty = Ok (self', ρ', σ') ∧
    solution self' = Some sol ∧
    holds σ' (board self') gv ∧ holds σ' sol s ∧
    completion 9 gv s ∧ (∀ s', completion 9 gv s' → s' = s) ∧
    (∃ σ'', _count_solutions (depth 9) self' σ' None = Ok (1, σ'')) ∧
    (∃ copy σ1 σ2, clone σ' (board self') = Ok (copy, σ1) ∧
       solve (depth 9) self' σ1 (Some copy) = Ok (true, σ2) ∧ holds σ2 copy s).
Proof.
  intros Hsz.
  destruct (generate_puzzle_spec rng shuffle shuffle_perm self ρ σ difficulty Hsz)
    as (self' & ρ' & σ' & gv & s & Hgen &
        sol & orig & Hsz' & Hsol & _ & Hh & Hhsol & _ & _ & Hwf & Hs & Hext & Huniq & _).
  destruct (extends_valid 9 gv s Hs Hext) as [Hval Hin].
  exists self', ρ', σ', sol, gv, s. split_and!; [done..| |].
  - destruct (count_solutions_clone_spec (depth 9) self' σ' gv)
      as (k & σ'' & Hcount & _ & Hk); rewrite ?Hsz'; try done.
    rewrite Hsz' in Hk. exists σ''. rewrite Hcount. do 2 f_equal.
    eapply tally_one; [|done]. by exists s.
  - destruct (clone_spec σ' (board self') gv Hh) as (copy & σ1 & Hclone & _ & Hhc & _).
    destruct (solve_spec (depth 9) self' (all_cells 9) σ1 gv (Some copy))
      as (b & σ2 & Hsolve & _ & Hpost); rewrite ?Hsz'; try done.
    { apply covers_all_cells. }
    { rewrite length_all_cells. unfold depth. lia. }
    rewrite Hsz' in Hpost. simpl in Hpost. destruct b.
    + destruct Hpost as (s' & Hhs' & Hs'). rewrite (Huniq s' Hs') in Hhs'.
      by exists copy, σ1, σ2.
    + destruct Hpost as [_ Hnone]. by destruct (Hnone s).
Qed.

(** C7.  The removal target is 40 for "easy", 50 for "medium", 60 for "hard"
    and 40 for every other input.  On a 9×9 game, under every random source,
    the givens [generate_puzzle] returns have at most that many empty cells,
    and when they have fewer, emptying any further cell leaves more than one
    completion. *)
Theorem generate_puzzle_removal_target self ρ σ difficulty :
  (squares_to_remove "easy" = 40 ∧ squares_to_remove "medium" = 50 ∧
   squares_to_remove "hard" = 60 ∧
   (∀ d, d ≠ "easy"%string → d ≠ "medium"%string → d ≠ "hard"%string →
         squares_to_remove d = 40)) ∧
  (size self = 9 →
   ∃ self' ρ' σ' gv,
     generate_puzzle rng shuffle self ρ σ difficulty = Ok (self', ρ', σ') ∧
     holds σ' (board self') gv ∧ wfg 9 gv ∧
     empties 9 gv ≤ squares_to_remove difficulty ∧
     (empties 9 gv < squares_to_remove difficulty →
      ∀ r c, r < 9 → c < 9 → cell gv r c ≠ 0%Z → ambiguous 9 gv r c)).
Proof.
  split.
  - split_and!; [done..|]. intros d He Hm Hh. unfold squares_to_remove.
    apply String.eqb_neq in He, Hm, Hh. by rewrite He, Hm, Hh.
  - intros Hsz.
    destruct (generate_puzzle_spec rng shuffle shuffle_perm self ρ σ difficulty Hsz)
      as (self' & ρ' & σ' & gv & s & Hgen &
          sol & orig & _ & _ & _ & Hh & _ & _ & _ & Hwf & _ & _ & _ & Hle & Hstuck).
    by exists self', ρ', σ', gv.
Qed.

(** C8.  On a 9×9 game, under every random source, after [generate_puzzle]
    every non-empty cell of the givens has the value of the same cell of the
    solution; [original_puzzle] holds the givens; and after any moves of
    the game, a cell that was not empty in the givens still holds its given
    value, and a move on it returns the store unchanged, with a message. *)
Theorem generate_puzzle_locked self ρ σ difficulty :
  size self = 9 →
  ∃ self' ρ' σ' sol orig,
    generate_puzzle rng shuffle self ρ σ difficulty = Ok (self', ρ', σ') ∧
    solution self' = Some sol ∧ original_puzzle self' = Some orig ∧
    (∀ r c v, get σ' (board self') r c = Ok v → v ≠ 0%Z → get σ' sol r c = Ok v) ∧
    (∀ r c, r < 9 → c < 9 → get σ' orig r c = get σ' (board self') r c) ∧
    (∀ moves σk row col val v,
       play_moves self' σ' moves = Ok σk → (0 ≤ row)%Z → (0 ≤ col)%Z →
       get σ' orig (Z.to_nat row) (Z.to_nat col) = Ok v → v ≠ 0%Z →
       get σk (board self') (Z.to_nat row) (Z.to_nat col) = Ok v ∧
       ∃ msg, make_move self' σk row col val = Ok (σk, Some msg)).
Proof.
  intros Hsz.
  destruct (generate_puzzle_spec rng shuffle shuffle_perm self ρ σ difficulty Hsz)
    as (self' & ρ' & σ' & gv & s & Hgen &
        sol & orig & Hsz' & Hsol & Horig & Hh & Hhsol & Hhorig & Hdisj & Hwf & Hs & Hext & _).
  exists self', ρ', σ', sol, orig. split_and!; [done..| | |].
  - intros r c v Hget Hv.
    assert (r < 9 ∧ c < 9) as [Hr Hc].
    { apply get_Ok in Hget as (l & row & Hl & Hrow & Hc).
      destruct Hh as (_ & Hlen & Hrows). destruct Hwf as [Hlg Hlrow].
      apply lookup_lt_Some in Hl as Hr. split; [lia|].
      destruct (lookup_lt_is_Some_2 gv r) as [row' Hrow']; [lia|].
      rewrite (Hrows _ _ _ Hl Hrow') in Hrow. simplify_eq.
      apply lookup_lt_Some in Hc. by rewrite (Hlrow _ _ Hrow') in Hc. }
    rewrite (holds_get 9 σ' _ gv) in Hget by done. simplify_eq.
    rewrite (holds_get 9 σ' _ s); [|done|by destruct Hs|done..].
    f_equal. by apply Hext.
  - intros r c Hr Hc. by rewrite !(holds_get 9 σ' _ gv).
  - intros moves σk row col val v Hplay Hrow Hcol Hget Hv.
    assert (locked_inv self' orig gv σk) as (Hhok & g & Hhk & Hwfk & Hextk).
    { eapply play_moves_inv; [done..| |done]. split; [done|].
      exists gv. split_and!; [done..|]. by intros r c. }
    assert (Z.to_nat row < 9 ∧ Z.to_nat col < 9) as [Hr Hc].
    { apply get_Ok in Hget as (l & rw & Hl & Hrw & Hcl).
      destruct Hhorig as (_ & Hlen & Hrows). destruct Hwf as [Hlg Hlrow].
      apply lookup_lt_Some in Hl as Hr. split; [lia|].
      destruct (lookup_lt_is_Some_2 gv (Z.to_nat row)) as [rw' Hrw']; [lia|].
      rewrite (Hrows _ _ _ Hl Hrw') in Hrw. simplify_eq.
      apply lookup_lt_Some in Hcl. by rewrite (Hlrow _ _ Hrw') in Hcl. }
    rewrite (holds_get 9 σ' orig gv) in Hget by done. simplify_eq. split.
    + rewrite (holds_get 9 σk _ g) by done. f_equal. by apply Hextk.
    + apply (make_move_locked self' σk orig row col val
               (cell gv (Z.to_nat row) (Z.to_nat col))); [done..| |done].
      by rewrite (holds_get 9 σk orig gv).
Qed.

End Claims.

Lemma no_shuffle_perm A (ρ : unit) (l : list A) : (no_shuffle A ρ l).1 ≡ₚ l.
Proof. reflexivity. Qed.

Lemma generate_puzzle_unique_witness :
  ∃ self' ρ' σ' sol gv s,
    generate_puzzle unit no_shuffle new_game.1 () new_game.2 "easy"
      = Ok (self', ρ', σ') ∧
    solution self' = Some sol ∧
    holds σ' (board self') gv ∧ holds σ' sol s ∧
    completion 9 gv s ∧ (∀ s', completion 9 gv s' → s' = s) ∧
    (∃ σ'', _count_solutions (depth 9) self' σ' None = Ok (1, σ'')) ∧
    (∃ copy σ1 σ2, clone σ' (board self') = Ok (copy, σ1) ∧
       solve (depth 9) self' σ1 (Some copy) = Ok (true, σ2) ∧ holds σ2 copy s).
Proof.
  exact (generate_puzzle_unique unit no_shuffle no_shuffle_perm
           new_game.1 () new_game.2 "easy" ltac:(by vm_compute)).
Defined.

Lemma generate_puzzle_removal_target_witness :
  (squares_to_remove "easy" = 40 ∧ squares_to_remove "medium" = 50 ∧
   squares_to_remove "hard" = 60 ∧
   (∀ d, d ≠ "easy"%string → d ≠ "medium"%string → d ≠ "hard"%string →
         squares_to_remove d = 40)) ∧
  (size new_game.1 = 9 →
   ∃ self' ρ' σ' gv,
     generate_puzzle unit no_shuffle new_game.1 () new_game.2 "hard"
       = Ok (self', ρ', σ') ∧
     holds σ' (board self') gv ∧ wfg 9 gv ∧
     empties 9 gv ≤ squares_to_remove "hard" ∧
     (empties 9 gv < squares_to_remove "hard" →
      ∀ r c, r < 9 → c < 9 → cell gv r c ≠ 0%Z → ambiguous 9 gv r c)).
Proof.
  exact (generate_puzzle_removal_target unit no_shuffle no_shuffle_perm
           new_game.1 () new_game.2 "hard").
Defined.

Lemma generate_puzzle_locked_witness :
  ∃ self' ρ' σ' sol orig,
    generate_puzzle unit no_shuffle new_game.1 () new_game.2 "medium"
      = Ok (self', ρ', σ') ∧
    solution self' = Some sol ∧ original_puzzle self' = Some orig ∧
    (∀ r c v, get σ' (board self') r c = Ok v → v ≠ 0%Z → get σ' sol r c = Ok v) ∧
    (∀ r c, r < 9 → c < 9 → get σ' orig r c = get σ' (board self') r c) ∧
    (∀ moves σk row col val v,
       play_moves self' σ' moves = Ok σk → (0 ≤ row)%Z → (0 ≤ col)%Z →
       get σ' orig (Z.to_nat row) (Z.to_nat col) = Ok v → v ≠ 0%Z →
       get σk (board self') (Z.to_nat row) (Z.to_nat col) = Ok v ∧
       ∃ msg, make_move self' σk row col val = Ok (σk, Some msg)).
Proof.
  exact (generate_puzzle_locked unit no_shuffle no_shuffle_perm
           new_game.1 () new_game.2 "medium" ltac:(by vm_compute)).
Defined.

(** * Further properties of the engine *)

(** ** [__init__] *)

Lemma get_out_of_range (σ : gmap nat (list Z)) brd g n r c :
  holds σ brd g → wfg n g → n ≤ r ∨ n ≤ c → get σ brd r c = Err IndexError.
Proof.
  intros (_ & Hlen & Hrows) [Hlg Hlrow] Hout. unfold get.
  destruct (brd !! r) as [l|] eqn:Hl; [|done].
  apply lookup_lt_Some in Hl as Hr.
  destruct (lookup_lt_is_Some_2 g r) as [row Hrow]; [lia|].
  rewrite (Hrows _ _ _ Hl Hrow). rewrite lookup_ge_None_2; [done|].
  rewrite (Hlrow _ _ Hrow). lia.
Qed.

(** X1.  [Sudoku(n)] leaves the rows already in the store as they are and
    builds an [n]×[n] board of empty cells: reading inside the board gives
    0, reading outside raises [IndexError], and the rows are separate
    objects, so that writing one cell changes this cell only. *)
Theorem init_empty_board (σ : gmap nat (list Z)) n :
  let '(self, σ') := init σ n in
  size self = n ∧ solution self = None ∧ original_puzzle self = None ∧
  σ ⊆ σ' ∧
  (∀ r c, r < n → c < n → get σ' (board self) r c = Ok 0%Z) ∧
  (∀ r c, n ≤ r ∨ n ≤ c → get σ' (board self) r c = Err IndexError) ∧
  (∀ r c v, r < n → c < n →
     ∃ σ'', set σ' (board self) r c v = Ok σ'' ∧
       ∀ r' c', r' < n → c' < n →
         get σ'' (board self) r' c' = Ok (if decide ((r', c') = (r, c)) then v else 0%Z)).
Proof.
  unfold init. rewrite zeros_load.
  destruct (load σ (replicate n (replicate n 0%Z))) as [brd σ'] eqn:Hload.
  apply load_spec in Hload as (Hsub & Hh & _). simpl.
  pose proof (wfg_zeros n) as Hwf. split_and!; [done..| | |].
  - intros r c Hr Hc. rewrite (holds_get n σ' brd _ r c Hh) by done.
    by rewrite cell_zeros.
  - intros r c Hout. by eapply get_out_of_range.
  - intros r c v Hr Hc.
    destruct (holds_set n σ' brd _ r c v Hh Hwf Hr Hc) as (σ'' & Hset & Hh' & _).
    exists σ''. split; [done|]. intros r' c' Hr' Hc'.
    rewrite (holds_get n σ'' brd _ r' c' Hh') by (done || by apply wfg_upd).
    f_equal. case_decide as Heq.
    + simplify_eq. by rewrite (cell_upd_eq n).
    + rewrite cell_upd_ne by done. apply cell_zeros.
Qed.

(** ** [is_valid] *)

Lemma gconflict_upd_self n g row col w value :
  gconflict n (upd g row col w) row col value ↔ gconflict n g row col value.
Proof.
  unfold gconflict. split; intros (r & c & Hr & Hc & Hne & Hp & Hcell);
    exists r, c; split_and!; try done.
  - by rewrite cell_upd_ne in Hcell.
  - by rewrite cell_upd_ne.
Qed.

(** X2.  The answer of [is_valid] for a cell does not depend on what that
    cell holds: it is the same before and after the cell is written. *)
Theorem is_valid_ignores_own_cell n (σ : gmap nat (list Z)) brd g row col w value σ1 :
  holds σ brd g → wfg n g → n mod 3 = 0 → row < n → col < n →
  set σ brd row col w = Ok σ1 →
  is_valid n σ1 brd row col value = is_valid n σ brd row col value.
Proof.
  intros Hh Hwf Hn Hrow Hcol Hset.
  destruct (holds_set n σ brd g row col w Hh Hwf Hrow Hcol) as (σ2 & Hset' & Hh1 & _).
  rewrite Hset in Hset'. simplify_eq.
  pose proof (wfg_upd n g row col w Hwf) as Hwf1.
  destruct (holds_is_valid n σ brd g row col value) as [[-> Hc]|[-> Hc]];
    [done..| |];
    destruct (holds_is_valid n σ2 brd _ row col value Hh1 Hwf1 Hn Hrow Hcol)
      as [[-> Hc1]|[-> Hc1]]; try done.
  - destruct Hc1. by apply gconflict_upd_self.
  - destruct Hc. by apply gconflict_upd_self in Hc1.
Qed.

Lemma for_any_seq_err (f : nat → res bool) s k m e :
  (∀ i, s ≤ i < s + k → ∃ b, f i = Ok b) → f (s + k) = Err e → k < m →
  for_any f (seq s m) = Ok true ∨ for_any f (seq s m) = Err e.
Proof.
  revert s m. induction k as [|k IH]; intros s m Hok Herr Hlt;
    (destruct m as [|m]; [lia|]); simpl.
  - rewrite Nat.add_0_r in Herr. rewrite Herr. by right.
  - destruct (Hok s ltac:(lia)) as [b ->]. simpl. destruct b; [by left|].
    apply IH; [|by rewrite Nat.add_succ_comm|lia]. intros i Hi. apply Hok. lia.
Qed.

(** X3.  On a board whose size is no multiple of 3, the 3×3 box of a cell in
    the last box row or box column runs past the edge: there [is_valid]
    never accepts a value, it returns [False] or raises [IndexError]. *)
Theorem is_valid_box_off_board n (σ : gmap nat (list Z)) brd g row col value :
  holds σ brd g → wfg n g → row < n → col < n →
  n < row - row mod 3 + 3 ∨ n < col - col mod 3 + 3 →
  is_valid n σ brd row col value = Ok false ∨
  is_valid n σ brd row col value = Err IndexError.
Proof.
  intros Hh Hwf Hrow Hcol Hoff. unfold is_valid.
  pose proof (holds_readable n σ brd g Hh Hwf) as Hrd.
  match goal with |- mbind _ (for_any ?f _) = _ ∨ _ =>
    rewrite (for_any_seq f (row_hit σ brd row col value) 0 n) end; last first.
  { intros c Hc. cbv beta. rewrite (readable_val n) by (done || lia). reflexivity. }
  rewrite bind_ret. destruct (existsb _ _); [by left|].
  match goal with |- mbind _ (for_any ?f _) = _ ∨ _ =>
    rewrite (for_any_seq f (col_hit σ brd row col value) 0 n) end; last first.
  { intros r Hr. cbv beta. rewrite (readable_val n) by (done || lia). reflexivity. }
  rewrite bind_ret. destruct (existsb _ _); [by left|].
  set (r0 := row - row mod 3). set (c0 := col - col mod 3).
  assert (r0 ≤ row ∧ c0 ≤ col) as [Hr0 Hc0] by (subst r0 c0; lia).
  match goal with |- mbind _ (for_any ?f _) = _ ∨ _ => set (outer := f) end.
  assert (for_any outer (seq r0 3) = Ok true ∨ for_any outer (seq r0 3) = Err IndexError)
    as [->| ->]; [|by left|by right].
  destruct (decide (n < c0 + 3)) as [Hcoff|Hcin].
  - (* the columns of the box run off the board: the first box row fails *)
    assert (outer r0 = Ok true ∨ outer r0 = Err IndexError) as Hfirst.
    { unfold outer. apply (for_any_seq_err _ c0 (n - c0)); [| |lia].
      - intros c Hc. rewrite (readable_val n) by (done || lia). eexists. reflexivity.
      - replace (c0 + (n - c0)) with n by lia.
        rewrite (get_out_of_range σ brd g n r0 n) by (done || lia). done. }
    change (seq r0 3) with (r0 :: seq (S r0) 2). simpl.
    destruct Hfirst as [-> | ->]; [by left|by right].
  - (* only the rows run off the board: the row past the edge fails *)
    assert (n < r0 + 3) as Hroff by (subst r0 c0; lia).
    apply (for_any_seq_err _ r0 (n - r0)); [| |lia].
    + intros r Hr. unfold outer.
      rewrite (for_any_seq _ (box_hit σ brd row col value r)); [by eexists|].
      intros c Hc. cbv beta. rewrite (readable_val n) by (done || lia). reflexivity.
    + replace (r0 + (n - r0)) with n by lia. unfold outer.
      change (seq c0 3) with (c0 :: seq (S c0) 2). simpl.
      rewrite (get_out_of_range σ brd g n n c0) by (done || lia). done.
Qed.

Lemma is_valid_ignores_own_cell_witness :
  let '(self, σ) := object_of 9 puzzle9 in
  ∃ σ1, set σ (board self) 0 2 7%Z = Ok σ1 ∧
        is_valid 9 σ1 (board self) 0 2 4%Z = is_valid 9 σ (board self) 0 2 4%Z.
Proof.
  destruct (object_of 9 puzzle9) as [self σ] eqn:Hobj.
  apply object_of_holds in Hobj as [_ Hh].
  assert (wfg 9 puzzle9) as Hwf by (apply wfgb_spec; by vm_compute).
  destruct (holds_set 9 σ (board self) puzzle9 0 2 7%Z Hh Hwf) as (σ1 & Hset & _);
    [lia..|].
  exists σ1. split; [done|].
  apply (is_valid_ignores_own_cell 9 σ (board self) puzzle9 0 2 7%Z 4%Z σ1 Hh Hwf);
    [done|lia|lia|done].
Defined.

Lemma is_valid_box_off_board_witness :
  let '(self, σ) := object_of 4 grid4 in
  is_valid 4 σ (board self) 0 3 2%Z = Ok false ∨
  is_valid 4 σ (board self) 0 3 2%Z = Err IndexError.
Proof.
  destruct (object_of 4 grid4) as [self σ] eqn:Hobj.
  apply object_of_holds in Hobj as [_ Hh].
  apply (is_valid_box_off_board 4 σ (board self) grid4 0 3 2%Z Hh).
  - apply wfgb_spec. by vm_compute.
  - lia.
  - lia.
  - right. vm_compute. lia.
Defined.

(** ** [solve] and [_count_solutions] on any store *)

Lemma get_frame (σ σ' : gmap nat (list Z)) brd other r c :
  frame brd σ σ' → (∀ l, l ∈ other → l ∉ brd) →
  get σ' other r c = get σ other r c.
Proof.
  intros Hfr Hdisj. unfold get. destruct (other !! r) as [l|] eqn:Hl; [|done].
  rewrite Hfr; [done|]. apply Hdisj. by eapply list_elem_of_lookup_2.
Qed.

Lemma solve_loop_frame n rec brd row col cands σ b σ' :
  (∀ σ1 b1 σ2, rec σ1 = Ok (b1, σ2) → frame brd σ1 σ2) →
  solve_loop n rec brd row col cands σ = Ok (b, σ') → frame brd σ σ'.
Proof.
  intros Hrec. revert σ. induction cands as [|v cands IH]; intros σ; simpl.
  { intros [= <- <-]. apply frame_refl. }
  intros (ok & _ & H)%bind_Ok. destruct ok; [|by apply IH].
  apply bind_Ok in H as (σ1 & Hset%set_frame & H).
  apply bind_Ok in H as ([solved σ2] & Hsol%Hrec & H).
  assert (frame brd σ σ2) by eauto using frame_trans.
  destruct solved; [by simplify_eq|].
  apply bind_Ok in H as (σ3 & Hback%set_frame & H).
  eapply frame_trans; [|by eapply IH]. eauto using frame_trans.
Qed.

Lemma solve_frame fuel self σ board_arg b σ' :
  solve fuel self σ board_arg = Ok (b, σ') → frame (board_of self board_arg) σ σ'.
Proof.
  revert σ board_arg b σ'. induction fuel as [|fuel IH]; intros σ board_arg b σ'; simpl;
    [done|].
  intros (cell & _ & H)%bind_Ok. fold (board_of self board_arg) in *.
  destruct cell as [[row col]|]; [|simplify_eq; apply frame_refl].
  eapply solve_loop_frame; [|done]. intros σ1 b1 σ2 Hrec. by apply IH in Hrec.
Qed.

(** X4.  [solve] writes to the rows of the board it is given and to nothing
    else: a board that shares no row with it reads the same, cell by cell and
    error by error, after the call. *)
Theorem solve_other_boards_untouched fuel self σ board_arg b σ' other r c :
  solve fuel self σ board_arg = Ok (b, σ') →
  (∀ l, l ∈ other → l ∉ board_of self board_arg) →
  get σ' other r c = get σ other r c.
Proof. intros Hsolve%solve_frame Hdisj. by eapply get_frame. Qed.

Lemma solve_loop_true_full n rec brd row col cands σ σ' :
  (∀ σ1 σ2, rec σ1 = Ok (true, σ2) → find_empty_cell n σ2 brd = Ok None) →
  solve_loop n rec brd row col cands σ = Ok (true, σ') →
  find_empty_cell n σ' brd = Ok None.
Proof.
  intros Hrec. revert σ. induction cands as [|v cands IH]; intros σ; simpl; [done|].
  intros (ok & _ & H)%bind_Ok. destruct ok; [|by eapply IH].
  apply bind_Ok in H as (σ1 & _ & H).
  apply bind_Ok in H as ([solved σ2] & Hsol & H).
  destruct solved; [simplify_eq; by eapply Hrec|].
  apply bind_Ok in H as (σ3 & _ & H). by eapply IH.
Qed.

Lemma solve_true_full fuel self σ board_arg σ' :
  solve fuel self σ board_arg = Ok (true, σ') →
  find_empty_cell (size self) σ' (board_of self board_arg) = Ok None.
Proof.
  revert σ board_arg σ'. induction fuel as [|fuel IH]; intros σ board_arg σ'; simpl;
    [done|].
  intros (cell & Hcell & H)%bind_Ok. fold (board_of self board_arg) in *.
  destruct cell as [[row col]|]; [|by simplify_eq].
  eapply solve_loop_true_full; [|done]. intros σ1 σ2 Hrec. by apply IH in Hrec.
Qed.

(** X5.  Once [solve] has returned [True] the board has no empty cell left,
    and solving it again returns [True] at once and changes nothing. *)
Theorem solve_twice fuel self σ board_arg σ' :
  solve fuel self σ board_arg = Ok (true, σ') →
  find_empty_cell (size self) σ' (board_of self board_arg) = Ok None ∧
  ∀ fuel', solve (S fuel') self σ' board_arg = Ok (true, σ').
Proof.
  intros Hfull%solve_true_full. split; [done|]. intros fuel'. simpl.
  fold (board_of self board_arg). by rewrite Hfull.
Qed.

Lemma count_loop_restores n rec brd row col cands count σ k σ' :
  get σ brd row col = Ok 0%Z →
  (∀ σ1 k1 σ2, rec σ1 = Ok (k1, σ2) → σ2 = σ1) →
  count_loop n rec brd row col cands count σ = Ok (k, σ') → σ' = σ.
Proof.
  intros Hempty Hrec. revert count. induction cands as [|v cands IH]; intros count; simpl.
  { by intros [= _ <-]. }
  intros (ok & _ & H)%bind_Ok. destruct ok; [|by eapply IH].
  apply bind_Ok in H as (σ1 & Hset & H).
  apply bind_Ok in H as ([k1 σ2] & Hk & H). apply Hrec in Hk as ->. cbv zeta in H.
  apply bind_Ok in H as (σ3 & Hback & H).
  rewrite (set_undo _ _ _ _ _ _ _ Hempty Hset) in Hback. simplify_eq.
  destruct (1 <? count + k1); [by simplify_eq|by eapply IH].
Qed.

(** X6.  Called on a given board, [_count_solutions] puts back every cell it
    tried: when it returns, whatever the count, the store is the one it was
    called with. *)
Theorem count_solutions_restores fuel self σ brd k σ' :
  _count_solutions fuel self σ (Some brd) = Ok (k, σ') → σ' = σ.
Proof.
  revert σ k σ'. induction fuel as [|fuel IH]; intros σ k σ'; simpl; [done|].
  intros (cell & Hcell & H)%bind_Ok. destruct cell as [[row col]|]; [|by simplify_eq].
  apply find_empty_cell_sound in Hcell as (_ & _ & Hempty).
  eapply count_loop_restores; [done| |done]. intros σ1 k1 σ2. apply IH.
Qed.

Lemma solve_other_boards_untouched_witness :
  let '(self, σ0) := object_of 9 puzzle9 in
  let '(other, σ) := load σ0 stuck9 in
  ∃ σ', solve (depth 9) self σ None = Ok (true, σ') ∧
        get σ' other 0 0 = get σ other 0 0.
Proof.
  destruct (object_of 9 puzzle9) as [self σ0] eqn:Hobj.
  destruct (load σ0 stuck9) as [other σ] eqn:Hload.
  assert (∃ σ', solve (depth 9) self σ None = Ok (true, σ')) as [σ' Hsolve].
  { vm_compute in Hobj. simplify_eq. vm_compute in Hload. simplify_eq.
    eexists. by vm_compute. }
  exists σ'. split; [done|].
  apply object_of_holds in Hobj as [_ Hh].
  apply load_spec in Hload as (_ & _ & Hnew).
  apply (solve_other_boards_untouched (depth 9) self σ None true σ' other 0 0 Hsolve).
  intros l Hl Hin. destruct (holds_allocated _ _ _ _ Hh Hin) as [row Hrow].
  rewrite (Hnew l Hl) in Hrow. done.
Defined.

Lemma solve_twice_witness :
  let '(self, σ) := object_of 9 puzzle9 in
  ∃ σ', solve (depth 9) self σ None = Ok (true, σ') ∧
        solve 1 self σ' None = Ok (true, σ').
Proof.
  destruct (object_of 9 puzzle9) as [self σ] eqn:Hobj.
  assert (∃ σ', solve (depth 9) self σ None = Ok (true, σ')) as [σ' Hsolve].
  { vm_compute in Hobj. simplify_eq. eexists. by vm_compute. }
  exists σ'. split; [done|].
  by destruct (solve_twice (depth 9) self σ None σ' Hsolve) as [_ Hagain].
Defined.

Lemma count_solutions_restores_witness :
  let '(self, σ) := object_of 9 puzzle9 in
  ∃ σ', _count_solutions (depth 9) self σ (Some (board self)) = Ok (1, σ') ∧ σ' = σ.
Proof.
  destruct (object_of 9 puzzle9) as [self σ] eqn:Hobj.
  assert (∃ σ', _count_solutions (depth 9) self σ (Some (board self)) = Ok (1, σ'))
    as [σ' Hcount].
  { vm_compute in Hobj. simplify_eq. eexists. by vm_compute. }
  exists σ'. split; [done|].
  by apply (count_solutions_restores (depth 9) self σ (board self) 1 σ').
Defined.

(** ** What the searches decide *)

Lemma solve_returns_iff_completion fuel self σ g board_arg :
  holds σ (board_of self board_arg) g → wfg (size self) g → size self mod 3 = 0 →
  valid (size self) g → inrange (size self) g → depth (size self) ≤ fuel →
  ∃ b σ', solve fuel self σ board_arg = Ok (b, σ') ∧
          (b = true ↔ ∃ s, completion (size self) g s).
Proof.
  intros Hh Hwf Hn Hval Hin Hfuel.
  destruct (solve_spec fuel self (all_cells (size self)) σ g board_arg)
    as (b & σ' & Hsolve & _ & Hpost); try done.
  { apply covers_all_cells. }
  { rewrite length_all_cells. unfold depth in Hfuel. lia. }
  exists b, σ'. split; [done|]. destruct b.
  - destruct Hpost as (s & _ & Hs). split; [by exists s|done].
  - destruct Hpost as [_ Hnone]. split; [done|]. intros [s Hs]. by destruct (Hnone s).
Qed.

(** X7.  On a board whose size is a multiple of 3, whose cells are [0..size]
    and which has no duplicate in a row, column or 3×3 box, [solve] returns,
    and it returns [True] exactly when the board has a valid completion. *)
Theorem solve_decides fuel self σ g board_arg :
  holds σ (board_of self board_arg) g → wfg (size self) g → size self mod 3 = 0 →
  valid (size self) g → inrange (size self) g → depth (size self) ≤ fuel →
  ∃ b σ', solve fuel self σ board_arg = Ok (b, σ') ∧
          (b = true ↔ ∃ s, completion (size self) g s).
Proof. apply solve_returns_iff_completion. Qed.

Lemma solve_decides_witness :
  let '(self, σ) := object_of 9 puzzle9 in
  ∃ b σ', solve (depth 9) self σ None = Ok (b, σ') ∧
          (b = true ↔ ∃ s, completion 9 puzzle9 s).
Proof.
  destruct (object_of 9 puzzle9) as [self σ] eqn:Hobj.
  apply object_of_holds in Hobj as [Hsz Hh].
  assert (wfg 9 puzzle9) as Hwf by (apply wfgb_spec; by vm_compute).
  assert (valid 9 puzzle9) as Hval by (apply validb_spec; by vm_compute).
  assert (inrange 9 puzzle9) as Hin by (apply inrangeb_spec; by vm_compute).
  pose proof (solve_decides (depth 9) self σ puzzle9 None) as Hthm.
  rewrite Hsz in Hthm. by apply Hthm.
Defined.

(** X8.  On such a board [solve] and [_count_solutions] agree: [solve]
    returns [True] exactly when the count is at least 1. *)
Theorem solve_agrees_with_count fuel self σ g :
  holds σ (board self) g → wfg (size self) g → size self mod 3 = 0 →
  valid (size self) g → inrange (size self) g → depth (size self) ≤ fuel →
  ∃ k σ1 b σ2,
    _count_solutions fuel self σ None = Ok (k, σ1) ∧
    solve fuel self σ None = Ok (b, σ2) ∧
    (b = true ↔ 1 ≤ k).
Proof.
  intros Hh Hwf Hn Hval Hin Hfuel.
  destruct (count_solutions_clone_spec fuel self σ g) as (k & σ1 & Hcount & _ & Hk);
    try done.
  destruct (solve_returns_iff_completion fuel self σ g None) as (b & σ2 & Hsolve & Hb);
    try done.
  exists k, σ1, b, σ2. split_and!; [done..|]. rewrite Hb. split.
  - intros [s Hs]. destruct k as [|k]; [|lia]. by destruct (Hk s).
  - intros Hk1. destruct k as [|[|k]]; [lia| |].
    + destruct Hk as (s & Hs & _). by exists s.
    + destruct Hk as (s & _ & Hs & _). by exists s.
Qed.

Lemma solve_agrees_with_count_witness :
  let '(self, σ) := object_of 9 puzzle9 in
  ∃ k σ1 b σ2,
    _count_solutions (depth 9) self σ None = Ok (k, σ1) ∧
    solve (depth 9) self σ None = Ok (b, σ2) ∧
    (b = true ↔ 1 ≤ k).
Proof.
  destruct (object_of 9 puzzle9) as [self σ] eqn:Hobj.
  apply object_of_holds in Hobj as [Hsz Hh].
  assert (wfg 9 puzzle9) as Hwf by (apply wfgb_spec; by vm_compute).
  assert (valid 9 puzzle9) as Hval by (apply validb_spec; by vm_compute).
  assert (inrange 9 puzzle9) as Hin by (apply inrangeb_spec; by vm_compute).
  pose proof (solve_agrees_with_count (depth 9) self σ puzzle9) as Hthm.
  rewrite Hsz in Hthm. by apply Hthm.
Defined.

(** ** [_fill_board] and [generate_board] *)

Section Filler.
Context (rng : Type) (shuffle : ∀ A : Type, rng → list A → list A * rng).
Hypothesis shuffle_perm : ∀ A (ρ : rng) (l : list A), (shuffle A ρ l).1 ≡ₚ l.

Lemma fill_board_returns fuel n ρ σ g brd :
  holds σ brd g → wfg n g → n mod 3 = 0 → valid n g → inrange n g →
  depth n ≤ fuel →
  ∃ b ρ' σ', _fill_board rng shuffle fuel n ρ σ brd = Ok (b, ρ', σ') ∧
    frame brd σ σ' ∧
    (b = true → ∃ s, holds σ' brd s ∧ completion n g s) ∧
    (b = false → σ' = σ ∧ ∀ s, ¬ completion n g s).
Proof.
  intros Hh Hwf Hn Hval Hin Hfuel.
  destruct (fill_board_spec rng shuffle shuffle_perm fuel n (all_cells n) ρ σ g brd)
    as (b & ρ' & σ' & Hfill & Hfr & Hpost); try done.
  { apply covers_all_cells. }
  { rewrite length_all_cells. unfold depth in Hfuel. lia. }
  exists b, ρ', σ'. split_and!; [done..| |]; by destruct b.
Qed.

(** X9.  Whatever order the shuffles give, on a board whose size is a
    multiple of 3, with cells [0..size] and no duplicate in a row, column or
    3×3 box, [_fill_board] returns.  When it returns [True] the board holds a
    valid completion of what it held; when it returns [False] there is no
    completion and the store is the one it was called with.  Only rows of
    the board are written. *)
Theorem fill_board_decides fuel n ρ σ g brd :
  holds σ brd g → wfg n g → n mod 3 = 0 → valid n g → inrange n g →
  depth n ≤ fuel →
  ∃ b ρ' σ', _fill_board rng shuffle fuel n ρ σ brd = Ok (b, ρ', σ') ∧
    frame brd σ σ' ∧
    (b = true → ∃ s, holds σ' brd s ∧ completion n g s) ∧
    (b = false → σ' = σ ∧ ∀ s, ¬ completion n g s).
Proof. apply fill_board_returns. Qed.

(** X10.  On a 9×9 game, whatever order the shuffles give, [generate_board]
    returns.  Afterwards the board is new, complete, and every row, column
    and box of it is a permutation of 1..9; [solution] is a copy of it that
    shares no row with it; [original_puzzle] is what it was; and every row
    that was in the store before the call is unchanged. *)
Theorem generate_board_solved self ρ σ :
  size self = 9 →
  ∃ self' ρ' σ' sol s,
    generate_board rng shuffle self ρ σ = Ok (self', ρ', σ') ∧
    size self' = 9 ∧ solution self' = Some sol ∧
    original_puzzle self' = original_puzzle self ∧
    holds σ' (board self') s ∧ holds σ' sol s ∧
    (∀ l, l ∈ board self' → l ∉ sol) ∧
    full 9 s ∧ units_are_permutations 9 s ∧
    σ ⊆ σ'.
Proof.
  intros Hsz. unfold generate_board. rewrite Hsz, zeros_load.
  destruct (load σ (replicate 9 (replicate 9 0%Z))) as [brd σ1] eqn:Hload.
  apply load_spec in Hload as (Hsub1 & Hh1 & Hnew). cbn [size board solution original_puzzle].
  assert (extends 9 (replicate 9 (replicate 9 0%Z)) solved9) as Hext.
  { intros r c _ _ []. apply cell_zeros. }
  destruct (extends_valid 9 _ _ solved_solved9 Hext) as [Hval Hin].
  destruct (fill_board_returns (depth 9) 9 ρ σ1 (replicate 9 (replicate 9 0%Z)) brd)
    as (b & ρ' & σ2 & -> & Hfr & Htrue & Hfalse); [done|apply wfg_zeros|done..|].
  rewrite bind_ret. destruct b.
  - destruct (Htrue eq_refl) as (s & Hh2 & Hs & _).
    destruct (clone_spec σ2 brd s Hh2) as (sol & σ3 & -> & Hsub3 & Hhsol & Hh3 & Hdisj).
    rewrite bind_ret. eexists _, ρ', σ3, sol, s.
    split; [done|]. cbn [size board solution original_puzzle].
    split_and!; try done.
    + by destruct Hs as (_ & ? & _).
    + by apply solved_units.
    + apply map_subseteq_spec. intros l row Hl.
      eapply lookup_weaken; [|exact Hsub3]. rewrite Hfr.
      * by eapply lookup_weaken.
      * intros Hin'%Hnew. congruence.
  - destruct (Hfalse eq_refl) as [_ Hnone]. destruct (Hnone solved9).
    split; [apply solved_solved9|done].
Qed.

End Filler.

Lemma fill_board_decides_witness :
  let '(self, σ) := object_of 9 puzzle9 in
  ∃ b ρ' σ', _fill_board unit no_shuffle (depth 9) 9 () σ (board self) = Ok (b, ρ', σ') ∧
    frame (board self) σ σ' ∧
    (b = true → ∃ s, holds σ' (board self) s ∧ completion 9 puzzle9 s) ∧
    (b = false → σ' = σ ∧ ∀ s, ¬ completion 9 puzzle9 s).
Proof.
  destruct (object_of 9 puzzle9) as [self σ] eqn:Hobj.
  apply object_of_holds in Hobj as [Hsz Hh].
  apply (fill_board_decides unit no_shuffle no_shuffle_perm (depth 9) 9 () σ puzzle9
           (board self) Hh).
  - apply wfgb_spec. by vm_compute.
  - done.
  - apply validb_spec. by vm_compute.
  - apply inrangeb_spec. by vm_compute.
  - done.
Defined.

Lemma generate_board_solved_witness :
  ∃ self' ρ' σ' sol s,
    generate_board unit no_shuffle new_game.1 () new_game.2 = Ok (self', ρ', σ') ∧
    size self' = 9 ∧ solution self' = Some sol ∧
    original_puzzle self' = original_puzzle new_game.1 ∧
    holds σ' (board self') s ∧ holds σ' sol s ∧
    (∀ l, l ∈ board self' → l ∉ sol) ∧
    full 9 s ∧ units_are_permutations 9 s ∧
    new_game.2 ⊆ σ'.
Proof.
  exact (generate_board_solved unit no_shuffle no_shuffle_perm
           new_game.1 () new_game.2 ltac:(by vm_compute)).
Defined.

(** ** Which completion [solve] finds *)

Lemma nums_sorted n : StronglySorted Z.lt (nums n).
Proof.
  unfold nums. generalize 1. induction n as [|n IH]; intros s; simpl; constructor.
  - apply IH.
  - apply Forall_forall. intros x (i & -> & Hi%elem_of_seq)%list_elem_of_fmap. lia.
Qed.

Lemma lex_le_at n g s s' r c :
  completion n g s → completion n g s' →
  r < n → c < n →
  (∀ r' c', r' < n → c' < n → before r' c' r c → cell g r' c' ≠ 0%Z) →
  (cell s r c < cell s' r c)%Z → lex_le n s s'.
Proof.
  intros [_ Hext] [_ Hext'] Hr Hc Hbefore Hlt. right. exists r, c.
  split_and!; [done..|]. intros r' c' Hr' Hc' Hb.
  assert (cell g r' c' ≠ 0%Z) as Hnz by (by apply Hbefore).
  by rewrite (Hext r' c'), (Hext' r' c').
Qed.

Lemma solve_loop_least n (rec : gmap nat (list Z) → res (bool * gmap nat (list Z)))
    brd g row col cands σ :
  wfg n g → n mod 3 = 0 → row < n → col < n → cell g row col = 0%Z →
  (∀ r' c', r' < n → c' < n → before r' c' row col → cell g r' c' ≠ 0%Z) →
  (∀ v σ1, (1 ≤ v ≤ Z.of_nat n)%Z → ¬ gconflict n g row col v →
     holds σ1 brd (upd g row col v) →
     ∃ (b : bool) σ2, rec σ1 = Ok (b, σ2) ∧
       if b then ∃ s, holds σ2 brd s ∧ completion n (upd g row col v) s ∧
                      ∀ s', completion n (upd g row col v) s' → lex_le n s s'
       else σ2 = σ1 ∧ ∀ s, ¬ completion n (upd g row col v) s) →
  (∀ v, v ∈ cands → (1 ≤ v ≤ Z.of_nat n)%Z) → StronglySorted Z.lt cands →
  holds σ brd g →
  ∃ b σ', solve_loop n rec brd row col cands σ = Ok (b, σ') ∧
    if b then ∃ s, holds σ' brd s ∧ completion n g s ∧
                   ∀ s', completion n g s' → cell s' row col ∈ cands → lex_le n s s'
    else σ' = σ ∧ ∀ s, completion n g s → cell s row col ∉ cands.
Proof.
  intros Hwf Hn Hrow Hcol Hempty Hbefore Hrec Hcands Hsorted Hh.
  induction cands as [|v cands IH]; simpl.
  { exists false, σ. split_and!; [done..|]. intros s _ []%elem_of_nil. }
  assert (1 ≤ v ≤ Z.of_nat n)%Z as Hv by (apply Hcands; left).
  apply StronglySorted_inv in Hsorted as [Hsorted Hlt].
  destruct IH as (b & σ' & Hloop & Hpost); [|done|].
  { intros w Hw. apply Hcands. by right. }
  assert (∀ s, completion n g s → cell s row col = v → cell s row col ∈ cands → False)
    as Hfresh.
  { intros s _ Heq Hin. rewrite Forall_forall in Hlt. specialize (Hlt _ Hin). lia. }
  destruct (holds_is_valid n σ brd g row col v) as [[-> Hcf]|[-> Hcf]]; [done..| |];
    rewrite bind_ret.
  - exists b, σ'. split; [done|]. destruct b.
    + destruct Hpost as (s & Hhs & Hs & Hleast). exists s. split_and!; [done..|].
      intros s' Hs' [Heq|Hin]%elem_of_cons; [|by apply Hleast].
      destruct (completion_no_conflict n g s' row col); try done. by rewrite Heq.
    + destruct Hpost as [-> Hnone]. split; [done|].
      intros s Hs [Heq|Hin]%elem_of_cons; [|by eapply Hnone].
      destruct (completion_no_conflict n g s row col); try done. by rewrite Heq.
  - destruct (holds_set n σ brd g row col v) as (σ1 & Hset & Hh1 & Hfr1); [done..|].
    rewrite Hset, bind_ret.
    destruct (Hrec v σ1) as (b1 & σ2 & -> & Hpost1); [done..|].
    rewrite bind_ret. destruct b1.
    + exists true, σ2. split; [done|].
      destruct Hpost1 as (s & Hhs & Hs & Hleast). exists s.
      pose proof Hs as [Hsg Hsv]%(completion_upd n); [|done..|lia].
      split_and!; [done..|].
      intros s' Hs' [Heq|Hin]%elem_of_cons.
      * apply Hleast. apply (completion_upd n); [done..|lia|done].
      * apply (lex_le_at n g s s' row col); try done.
        rewrite Hsv. rewrite Forall_forall in Hlt. by apply Hlt.
    + destruct Hpost1 as [-> Hnone1].
      rewrite (set_undo σ brd row col 0%Z v σ1); [| |done].
      2:{ rewrite (holds_get n _ _ g) by done. by rewrite Hempty. }
      rewrite bind_ret. exists b, σ'. split; [done|]. destruct b.
      * destruct Hpost as (s & Hhs & Hs & Hleast). exists s. split_and!; [done..|].
        intros s' Hs' [Heq|Hin]%elem_of_cons; [|by apply Hleast].
        destruct (Hnone1 s'). apply (completion_upd n); [done..|lia|done].
      * destruct Hpost as [-> Hnone]. split; [done|].
        intros s Hs [Heq|Hin]%elem_of_cons; [|by eapply Hnone].
        destruct (Hnone1 s). apply (completion_upd n); [done..|lia|done].
Qed.

Lemma solve_least_spec fuel self L σ g board_arg :
  holds σ (board_of self board_arg) g → wfg (size self) g → size self mod 3 = 0 →
  valid (size self) g → inrange (size self) g →
  covers (size self) g L → length L < fuel →
  ∃ b σ', solve fuel self σ board_arg = Ok (b, σ') ∧
    if b then ∃ s, holds σ' (board_of self board_arg) s ∧ completion (size self) g s ∧
                   ∀ s', completion (size self) g s' → lex_le (size self) s s'
    else σ' = σ ∧ ∀ s, ¬ completion (size self) g s.
Proof.
  revert L σ g board_arg. induction fuel as [|fuel IH];
    intros L σ g board_arg Hh Hwf Hn Hval Hin Hcov Hlen; [lia|].
  simpl. fold (board_of self board_arg).
  set (brd := board_of self board_arg) in *. set (n := size self) in *.
  destruct (find_empty_cell_cases n σ brd) as [(r & c & -> & Hfe)|[-> Hc]];
    [by eapply holds_readable| |]; rewrite bind_ret.
  - pose proof Hfe as (_ & _ & _ & Hbefore).
    apply (first_empty_cell n σ brd g) in Hfe as (Hr & Hcl & Hz & Hget); [|done..].
    destruct (solve_loop_least n (λ σ', solve fuel self σ' (Some brd)) brd g r c (nums n) σ)
      as (b & σ' & -> & Hpost); try done.
    + intros r' c' Hr' Hc' Hb Hzero. apply (Hbefore r' c' Hr' Hc' Hb).
      rewrite (holds_get n σ brd g) by done. by rewrite Hzero.
    + intros v σ1 Hv Hncf Hh1.
      apply (IH (filter (λ rc, rc ≠ (r, c)) L) σ1 (upd g r c v) (Some brd)); try done.
      * by apply wfg_upd.
      * by apply valid_upd.
      * apply inrange_upd; [done..|lia].
      * apply covers_upd; [done..|lia|done].
      * by eapply covers_shrink.
    + intros v. by rewrite elem_of_nums.
    + apply nums_sorted.
    + exists b, σ'. split; [done|]. destruct b.
      * destruct Hpost as (s & Hhs & Hs & Hleast). exists s. split_and!; [done..|].
        intros s' Hs'. apply Hleast; [done|]. apply elem_of_nums.
        by eapply completion_cell_range.
      * destruct Hpost as [-> Hnone]. split; [done|]. intros s Hs.
        apply (Hnone s Hs). apply elem_of_nums. by eapply completion_cell_range.
  - exists true, σ. split; [done|]. exists g.
    assert (∀ s, completion n g s ↔ s = g) as Hiff.
    { apply completion_full; [done| |done..]. by eapply complete_full. }
    split_and!; [done|by apply Hiff|]. intros s' ->%Hiff. by left.
Qed.

(** X11.  [solve] tries the values of a cell in ascending order, cell after
    cell in row-major order.  So on a board with no duplicate, when it
    returns [True] the board it leaves is the first of all valid completions
    in that order: any other completion has a larger value at the first cell
    where the two differ. *)
Theorem solve_finds_first_completion fuel self σ g board_arg σ' :
  holds σ (board_of self board_arg) g → wfg (size self) g → size self mod 3 = 0 →
  valid (size self) g → inrange (size self) g →
  solve fuel self σ board_arg = Ok (true, σ') →
  ∃ s, holds σ' (board_of self board_arg) s ∧ completion (size self) g s ∧
       ∀ s', completion (size self) g s' → lex_le (size self) s s'.
Proof.
  intros Hh Hwf Hn Hval Hin Hsolve.
  destruct (solve_least_spec (fuel `max` depth (size self)) self (all_cells (size self))
              σ g board_arg) as (b & σ'' & Hsolve' & Hpost); try done.
  { apply covers_all_cells. }
  { rewrite length_all_cells. unfold depth. lia. }
  rewrite (solve_mono fuel _ self σ board_arg (true, σ')) in Hsolve' by (done || lia).
  by simplify_eq.
Qed.

Lemma solve_finds_first_completion_witness :
  let '(self, σ) := object_of 9 puzzle9 in
  ∃ σ' s, solve (depth 9) self σ None = Ok (true, σ') ∧
          holds σ' (board self) s ∧ completion 9 puzzle9 s ∧
          ∀ s', completion 9 puzzle9 s' → lex_le 9 s s'.
Proof.
  destruct (object_of 9 puzzle9) as [self σ] eqn:Hobj.
  assert (∃ σ', solve (depth 9) self σ None = Ok (true, σ')) as [σ' Hsolve].
  { vm_compute in Hobj. simplify_eq. eexists. by vm_compute. }
  apply object_of_holds in Hobj as [Hsz Hh].
  assert (wfg 9 puzzle9) as Hwf by (apply wfgb_spec; by vm_compute).
  assert (valid 9 puzzle9) as Hval by (apply validb_spec; by vm_compute).
  assert (inrange 9 puzzle9) as Hin by (apply inrangeb_spec; by vm_compute).
  pose proof (solve_finds_first_completion (depth 9) self σ puzzle9 None σ') as Hthm.
  rewrite Hsz in Hthm. destruct (Hthm Hh Hwf eq_refl Hval Hin Hsolve) as (s & ? & ? & ?).
  by exists σ', s.
Defined.

(** * The game *)

(** ** Moves *)

Lemma set_never_empties (σ : gmap nat (list Z)) brd r0 c0 val σ' r c v :
  val ≠ 0%Z → set σ brd r0 c0 val = Ok σ' →
  get σ brd r c = Ok v → v ≠ 0%Z →
  ∃ v', get σ' brd r c = Ok v' ∧ v' ≠ 0%Z.
Proof.
  intros Hval (l & row & Hl & Hrow & Hlen & ->)%set_Ok
    (l' & row' & Hl' & Hrow' & Hc)%get_Ok Hv.
  destruct (decide (l' = l)) as [->|Hne].
  - simplify_eq. destruct (decide (c = c0)) as [->|Hc0].
    + exists val. split; [|done]. apply get_Ok. exists l, (<[c0 := val]> row).
      split_and!; [done|by rewrite lookup_insert_eq|].
      by rewrite list_lookup_insert_eq.
    + exists v. split; [|done]. apply get_Ok. exists l, (<[c0 := val]> row).
      split_and!; [done|by rewrite lookup_insert_eq|].
      by rewrite list_lookup_insert_ne.
  - exists v. split; [|done]. apply get_Ok. exists l', row'.
    split_and!; [done| |done]. by rewrite lookup_insert_ne.
Qed.

(** X12.  A move never empties a cell: the value it writes is at least 1, so
    a cell of the board that is filled before [make_move] is filled after
    it, on every board and store. *)
Theorem make_move_never_empties self σ row col val σ' msg r c v :
  make_move self σ row col val = Ok (σ', msg) →
  get σ (board self) r c = Ok v → v ≠ 0%Z →
  ∃ v', get σ' (board self) r c = Ok v' ∧ v' ≠ 0%Z.
Proof.
  unfold make_move. intros Hmove Hget Hv.
  destruct (_ && _)%bool eqn:Hrange; [|simplify_eq; by exists v].
  apply andb_true_iff in Hrange as [Hrange _].
  apply andb_true_iff in Hrange as [_ Hval%Z.leb_le].
  apply bind_Ok in Hmove as (orig & _ & Hmove).
  apply bind_Ok in Hmove as (w & _ & Hmove).
  destruct (negb _); [simplify_eq; by exists v|].
  apply bind_Ok in Hmove as (ok & _ & Hmove).
  destruct ok; [|simplify_eq; by exists v].
  apply bind_Ok in Hmove as (σ1 & Hset & Hmove). simplify_eq.
  eapply set_never_empties; [|done..]. lia.
Qed.

Lemma make_move_cases self σ gv s g row col val :
  playing self σ gv s g →
  ∃ σ' msg g',
    make_move self σ row col val = Ok (σ', msg) ∧ playing self σ' gv s g' ∧
    ((σ' = σ ∧ g' = g ∧ is_Some msg) ∨
     (msg = None ∧ g' = upd g (Z.to_nat row) (Z.to_nat col) val ∧
      (0 ≤ row < 9)%Z ∧ (0 ≤ col < 9)%Z ∧ (1 ≤ val ≤ 9)%Z ∧
      cell gv (Z.to_nat row) (Z.to_nat col) = 0%Z ∧
      ¬ gconflict 9 g (Z.to_nat row) (Z.to_nat col) val)).
Proof.
  intros Hplay. pose proof Hplay as (sol & orig & Hsz & Hsol & Horig & Hh & Hhsol & Hhorig &
    Hdsol & Hdorig & Hwf & Hwfgv & Hs & Hext & Hval & Hin & Huniq).
  unfold make_move. rewrite Hsz, Horig.
  destruct (_ && _)%bool eqn:Hrange;
    [|exists σ, (Some "Invalid input. Please enter numbers between 1 and 9."%string), g;
      split_and!; [done..|left; by split_and!]].
  rewrite !andb_true_iff in Hrange.
  destruct Hrange as [[[[[Hr0%Z.leb_le Hr9%Z.ltb_lt] Hc0%Z.leb_le] Hc9%Z.ltb_lt]
                         Hv1%Z.leb_le] Hv9%Z.leb_le].
  set (r := Z.to_nat row) in *. set (c := Z.to_nat col) in *.
  assert (r < 9 ∧ c < 9) as [Hr Hc] by lia.
  rewrite bind_ret, (holds_get 9 σ orig gv) by done. rewrite bind_ret.
  destruct (Z.eqb_spec (cell gv r c) 0) as [Hz|Hnz]; simpl;
    [|exists σ, (Some "Cannot change the original puzzle numbers."%string), g;
      split_and!; [done..|left; by split_and!]].
  destruct (holds_is_valid 9 σ (board self) g r c val) as [[-> Hcf]|[-> Hcf]];
    [done..| |]; rewrite bind_ret;
    [exists σ, (Some "Invalid move. Try again."%string), g;
     split_and!; [done..|left; by split_and!]|].
  destruct (holds_set 9 σ (board self) g r c val) as (σ1 & -> & Hh1 & Hfr); [done..|].
  rewrite bind_ret. exists σ1, None, (upd g r c val). split_and!; [done| |].
  - exists sol, orig. split_and!; try done.
    + by eapply holds_other.
    + by eapply holds_other.
    + by apply wfg_upd.
    + intros r' c' Hr' Hc' Hnz. rewrite cell_upd_ne; [by apply Hext|]. congruence.
    + by apply valid_upd.
    + apply inrange_upd; [done..|lia].
  - right. split_and!; try done; lia.
Qed.

(** X13.  During a game every move returns, and afterwards the game is as
    before: the board still has every given and no duplicate in a row,
    column or box, and [solution] and [original_puzzle] are untouched.  The
    move either changes nothing and prints a message, or writes the value
    into a cell that was empty in the givens. *)
Theorem make_move_keeps_rules self σ gv s g row col val :
  playing self σ gv s g →
  ∃ σ' msg g',
    make_move self σ row col val = Ok (σ', msg) ∧ playing self σ' gv s g' ∧
    ((σ' = σ ∧ g' = g ∧ is_Some msg) ∨
     (msg = None ∧ g' = upd g (Z.to_nat row) (Z.to_nat col) val ∧
      cell gv (Z.to_nat row) (Z.to_nat col) = 0%Z)).
Proof.
  intros Hplay.
  destruct (make_move_cases self σ gv s g row col val Hplay)
    as (σ' & msg & g' & Hmove & Hplay' & [Hsame|(Hmsg & Hg' & _ & _ & _ & Hz & _)]);
    exists σ', msg, g'; split_and!; try done; [by left|by right].
Qed.

(** X14.  The right value is never refused: while every filled cell of the
    board agrees with the solution, a move that enters the solution's value
    into a cell that is empty in the givens is accepted, without a message,
    and the board then holds that value there and still agrees with the
    solution. *)
Theorem make_move_accepts_solution self σ gv s g r c :
  playing self σ gv s g → extends 9 g s → r < 9 → c < 9 → cell gv r c = 0%Z →
  ∃ σ', make_move self σ (Z.of_nat r) (Z.of_nat c) (cell s r c) = Ok (σ', None) ∧
        playing self σ' gv s (upd g r c (cell s r c)) ∧
        extends 9 (upd g r c (cell s r c)) s.
Proof.
  intros Hplay Hgs Hr Hc Hz.
  pose proof Hplay as (sol & orig & Hsz & Hsol & Horig & Hh & Hhsol & Hhorig &
    Hdsol & Hdorig & Hwf & Hwfgv & Hs & Hext & Hval & Hin & Huniq).
  pose proof Hs as (Hwfs & Hfulls & Hvals & Hins).
  assert (1 ≤ cell s r c ≤ 9)%Z as Hv.
  { specialize (Hfulls r c Hr Hc). specialize (Hins r c Hr Hc). lia. }
  destruct (make_move_cases self σ gv s g (Z.of_nat r) (Z.of_nat c) (cell s r c) Hplay)
    as (σ' & msg & g' & Hmove & Hplay' & Hcases).
  rewrite !Nat2Z.id in Hcases.
  assert (extends 9 (upd g r c (cell s r c)) s) as Hgs'.
  { intros r' c' Hr' Hc'. destruct (decide ((r', c') = (r, c))) as [[= -> ->]|Hne].
    - by rewrite (cell_upd_eq 9).
    - rewrite cell_upd_ne by done. by apply Hgs. }
  destruct Hcases as [(-> & -> & Hmsg)|(-> & -> & _)]; [|by exists σ'].
  exfalso. revert Hmove. unfold make_move. rewrite Hsz, Horig.
  replace (_ && _)%bool with true by (symmetry; rewrite !andb_true_iff;
    split_and!; (apply Z.leb_le || apply Z.ltb_lt); lia).
  rewrite bind_ret, !Nat2Z.id, (holds_get 9 σ orig gv) by done.
  rewrite bind_ret, Hz. simpl.
  destruct (holds_is_valid 9 σ (board self) g r c (cell s r c)) as [[-> Hcf]|[-> Hcf]];
    [done..| |]; rewrite bind_ret.
  - destruct Hcf as (r' & c' & Hr' & Hc' & Hne & Hp & Hcell).
    intros _. apply (Hvals r c r' c'); [done..|lia|].
    rewrite (Hgs r' c') by (try done; rewrite Hcell; lia). done.
  - destruct (holds_set 9 σ (board self) g r c (cell s r c)) as (σ1 & -> & _); [done..|].
    rewrite bind_ret. intros [= _ <-]. by destruct Hmsg.
Qed.

(** ** Winning *)

Lemma holds_inj n (σ : gmap nat (list Z)) brd g1 g2 :
  holds σ brd g1 → holds σ brd g2 → wfg n g1 → wfg n g2 → g1 = g2.
Proof.
  intros (_ & Hlen1 & H1) (_ & Hlen2 & H2) Hwf1 Hwf2. apply list_eq. intros r.
  destruct (decide (r < n)) as [Hr|Hr].
  - destruct (lookup_lt_is_Some_2 g1 r) as [row1 Hrow1]; [destruct Hwf1; lia|].
    destruct (lookup_lt_is_Some_2 g2 r) as [row2 Hrow2]; [destruct Hwf2; lia|].
    destruct (lookup_lt_is_Some_2 brd r) as [l Hl]; [destruct Hwf1; lia|].
    pose proof (H1 _ _ _ Hl Hrow1). pose proof (H2 _ _ _ Hl Hrow2). congruence.
  - rewrite !lookup_ge_None_2; [done|destruct Hwf2; lia|destruct Hwf1; lia].
Qed.

Lemma read_rows_holds (σ : gmap nat (list Z)) brd g :
  holds σ brd g → read_rows σ brd = Ok g.
Proof.
  revert g. induction brd as [|l brd IH]; intros g Hh.
  { destruct g; [done|]. by destruct Hh as (_ & ? & _). }
  destruct g as [|row g]; [by destruct Hh as (_ & ? & _)|].
  apply holds_cons in Hh as (Hrow & _ & Hh). simpl. by rewrite Hrow, (IH g).
Qed.

Lemma playing_full_solution self σ gv s g :
  playing self σ gv s g → full 9 g → g = s.
Proof.
  intros (sol & orig & _ & _ & _ & _ & _ & _ & _ & _ & Hwf & _ & _ & Hext & Hval & Hin & Huniq)
    Hfull.
  apply Huniq. by split.
Qed.

Lemma playing_equals_solution self σ gv s g :
  playing self σ gv s g → equals_solution self σ = Ok (bool_decide (g = s)).
Proof.
  intros (sol & orig & _ & Hsol & _ & Hh & Hhsol & _). unfold equals_solution.
  by rewrite Hsol, (read_rows_holds σ _ g Hh), (read_rows_holds σ _ s Hhsol).
Qed.

Lemma print_cells_ok n (σ : gmap nat (list Z)) brd g i js :
  holds σ brd g → wfg n g → i < n → (∀ j, j ∈ js → j < n) →
  ∃ text, print_cells σ brd i js = Ok text.
Proof.
  intros Hh Hwf Hi. induction js as [|j js IH]; intros Hjs; simpl; [by eexists|].
  rewrite (holds_get n σ brd g) by (try done; apply Hjs; left). rewrite bind_ret.
  destruct IH as [rest ->]; [intros j' Hj'; apply Hjs; by right|]. by eexists.
Qed.

Lemma print_lines_ok n (σ : gmap nat (list Z)) brd g rows :
  holds σ brd g → wfg n g → (∀ i, i ∈ rows → i < n) →
  ∃ text, print_lines n σ brd rows = Ok text.
Proof.
  intros Hh Hwf. induction rows as [|i rows IH]; intros Hrows; simpl; [by eexists|].
  destruct (print_cells_ok n σ brd g i (seq 0 n)) as [line ->]; [done..|apply Hrows; left| |].
  { intros j Hj%elem_of_seq. lia. }
  rewrite bind_ret. destruct IH as [rest ->]; [intros i' Hi'; apply Hrows; by right|].
  by eexists.
Qed.

Lemma print_board_ok self σ g board_arg :
  holds σ (board_of self board_arg) g → wfg (size self) g →
  ∃ text, print_board self σ board_arg = Ok text.
Proof.
  intros Hh Hwf. unfold print_board. fold (board_of self board_arg).
  eapply print_lines_ok; [done..|]. intros i Hi%elem_of_seq. lia.
Qed.

Lemma playing_find_empty self σ gv s g :
  playing self σ gv s g →
  (find_empty_cell 9 σ (board self) = Ok None ∧ full 9 g) ∨
  (∃ r c, find_empty_cell 9 σ (board self) = Ok (Some (r, c)) ∧ r < 9 ∧ c < 9 ∧
          cell g r c = 0%Z).
Proof.
  intros (sol & orig & _ & _ & _ & Hh & _ & _ & _ & _ & Hwf & _).
  destruct (find_empty_cell_cases 9 σ (board self)) as [(r & c & Hf & Hfe)|[Hf Hc]].
  - by eapply holds_readable.
  - right. exists r, c. split; [done|].
    by apply (first_empty_cell 9 σ _ g) in Hfe as (? & ? & ? & _).
  - left. split; [done|]. by eapply complete_full.
Qed.

Lemma win_check_full self σ gv s g :
  playing self σ gv s g →
  find_empty_cell (size self) σ (board self) = Ok None →
  g = s ∧ equals_solution self σ = Ok true ∧
  ∃ out, win_check self σ = Ok (true, out).
Proof.
  intros Hplay Hnone. pose proof Hplay as (sol & orig & Hsz & _ & _ & Hh & _ & _ & _ & _ & Hwf & _).
  rewrite Hsz in Hnone.
  assert (g = s) as ->.
  { destruct (playing_find_empty _ _ _ _ _ Hplay) as [[_ Hfull]|(r & c & Hf & _)];
      [|congruence]. by eapply playing_full_solution. }
  assert (equals_solution self σ = Ok true) as Heq.
  { rewrite (playing_equals_solution self σ gv s s) by done. by rewrite bool_decide_eq_true_2. }
  split_and!; [done..|]. unfold win_check. rewrite Hsz, Hnone, bind_ret, Heq, bind_ret.
  destruct (print_board_ok self σ s None) as [text ->]; [done|by rewrite Hsz|].
  by eexists.
Qed.

(** X15.  A game cannot end on a wrong board: when the board of a game in
    progress has no empty cell it is the solution, [self.board ==
    self.solution] is true, and the check at the end of the turn breaks the
    loop. *)
Theorem full_board_wins self σ gv s g :
  playing self σ gv s g →
  find_empty_cell (size self) σ (board self) = Ok None →
  g = s ∧ equals_solution self σ = Ok true ∧
  ∃ out, win_check self σ = Ok (true, out).
Proof. apply win_check_full. Qed.

(** ** The loop *)

Section Game.
Context (rng : Type) (shuffle : ∀ A : Type, rng → list A → list A * rng).
Hypothesis shuffle_perm : ∀ A (ρ : rng) (l : list A), (shuffle A ρ l).1 ≡ₚ l.

Lemma generate_puzzle_playing self ρ σ difficulty :
  size self = 9 →
  ∃ self' ρ' σ' gv s,
    generate_puzzle rng shuffle self ρ σ difficulty = Ok (self', ρ', σ') ∧
    playing self' σ' gv s gv.
Proof.
  intros Hsz. unfold generate_puzzle.
  destruct (generate_board_spec rng shuffle shuffle_perm self ρ σ Hsz)
    as (brd & sol & ρ1 & σ1 & s & -> & Hh & Hhsol & Hdisj & Hs).
  rewrite bind_ret. cbn [size board solution original_puzzle].
  pose proof (shuffle_perm (nat * nat)%type ρ1 (all_cells 9)) as Hperm.
  destruct (shuffle (nat * nat)%type ρ1 (all_cells 9)) as [cells ρ2]. simpl in Hperm.
  pose proof Hs as (Hwf & Hfull & Hval & Hin).
  set (self1 := mkSudoku 9 brd (Some sol) (original_puzzle self)).
  destruct (remove_loop_spec self1 (squares_to_remove difficulty) sol s cells eq_refl
              [] 0 σ1 s) as (removed & σ2 & gv & -> & Hinv & _).
  - split_and!; try done. apply completion_full; done.
  - rewrite Hperm. apply NoDup_all_cells.
  - intros [r c] Hp. rewrite Hperm in Hp. apply elem_of_all_cells in Hp as [Hr Hc].
    split_and!; [done..|]. by apply Hfull.
  - by apply empties_full.
  - lia.
  - by intros p ?%elem_of_nil.
  - rewrite bind_ret.
    destruct Hinv as (Hhgv & Hhsol2 & Hdisj2 & Hwfgv & _ & Hext & Huniq).
    destruct (clone_spec σ2 brd gv Hhgv) as (orig & σ3 & Hclone & Hsub & Hhorig & Hh3 & Hdo).
    subst self1. cbn [size board solution original_puzzle] in *.
    rewrite Hclone, bind_ret. eexists _, ρ2, σ3, gv, s. split; [done|].
    destruct (extends_valid 9 gv s Hs Hext) as [Hvalgv Hingv].
    exists sol, orig. cbn [size board solution original_puzzle].
    split_and!; try done. by eapply holds_weaken.
Qed.

Lemma play_step_spec self ρ σ gv s g e :
  playing self σ gv s g →
  ∃ st self' ρ' σ' out gv' s' g',
    play_step rng shuffle self ρ σ e = Ok (st, self', ρ', σ', out) ∧
    playing self' σ' gv' s' g' ∧
    (st = Quitted ↔ e = Quit) ∧
    (st = Won ↔ e ≠ Quit ∧ full 9 g') ∧
    (st = Won → g' = s').
Proof.
  intros Hplay. pose proof Hplay as (sol & orig & Hsz & _ & _ & Hh & _ & _ & _ & _ & Hwf & _).
  unfold play_step.
  destruct (print_board_ok self σ g None) as [text ->]; [done|by rewrite Hsz|].
  rewrite bind_ret. cbv zeta.
  assert (∀ self1 (ρ1 : rng) (σ1 : gmap nat (list Z)) gv1 s1 g1 (out1 shown : list string),
    e ≠ Quit → playing self1 σ1 gv1 s1 g1 →
    ∃ st self' ρ' σ' out gv' s' g',
      (win_check self1 σ1 ≫= λ '(won, out'),
         Ok (if won : bool then Won else Running, self1, ρ1, σ1, shown ++ out1 ++ out'))
        = Ok (st, self', ρ', σ', out) ∧
      playing self' σ' gv' s' g' ∧
      (st = Quitted ↔ e = Quit) ∧ (st = Won ↔ e ≠ Quit ∧ full 9 g') ∧
      (st = Won → g' = s')) as Hend.
  { intros self1 ρ1 σ1 gv1 s1 g1 out1 shown Hne Hplay1.
    pose proof Hplay1 as (sol1 & orig1 & Hsz1 & _).
    destruct (playing_find_empty _ _ _ _ _ Hplay1) as [[Hf Hfull]|(r & c & Hf & Hr & Hc & Hz)].
    - destruct (win_check_full self1 σ1 gv1 s1 g1 Hplay1) as (-> & _ & out' & ->);
        [by rewrite Hsz1|].
      rewrite bind_ret. eexists Won, self1, ρ1, σ1, _, gv1, s1, s1.
      split_and!; [done..|split; [done|by intros ->]| |done]. by split.
    - unfold win_check. rewrite Hsz1, Hf, bind_ret, bind_ret.
      eexists Running, self1, ρ1, σ1, _, gv1, s1, g1.
      split_and!; [done..|split; [done|by intros ->]| |done].
      split; [done|]. intros [_ Hfull]. by destruct (Hfull r c). }
  destruct e as [|difficulty| |row col val| |].
  - eexists Quitted, self, ρ, σ, _, gv, s, g. split_and!; [done..| |done].
    split; [done|]. by intros [? _].
  - destruct (generate_puzzle_playing self ρ σ difficulty Hsz)
      as (self1 & ρ1 & σ1 & gv1 & s1 & -> & Hplay1).
    rewrite !bind_ret. by eapply Hend.
  - rewrite (playing_equals_solution self σ gv s g) by done. rewrite !bind_ret.
    by eapply Hend.
  - destruct (make_move_cases self σ gv s g (row - 1) (col - 1) val Hplay)
      as (σ1 & msg & g1 & -> & Hplay1 & _).
    rewrite !bind_ret. by eapply Hend.
  - rewrite bind_ret. by eapply Hend.
  - rewrite bind_ret. by eapply Hend.
Qed.

Lemma play_loop_spec events self ρ σ gv s g :
  playing self σ gv s g →
  ∃ st self' ρ' σ' out gv' s' g',
    play_loop rng shuffle self ρ σ events = Ok (st, self', ρ', σ', out) ∧
    playing self' σ' gv' s' g' ∧
    (st = Quitted → Quit ∈ events) ∧
    (st = Won → g' = s') ∧
    (st = Running → events ≠ [] → ¬ full 9 g').
Proof.
  revert self ρ σ gv s g. induction events as [|e events IH]; intros self ρ σ gv s g Hplay.
  { eexists Running, self, ρ, σ, [], gv, s, g. by split_and!. }
  cbn [play_loop].
  destruct (play_step_spec self ρ σ gv s g e Hplay)
    as (st & self1 & ρ1 & σ1 & out & gv1 & s1 & g1 & -> & Hplay1 & Hq & Hw & Hws).
  rewrite bind_ret. destruct st.
  - destruct (IH self1 ρ1 σ1 gv1 s1 g1 Hplay1)
      as (st' & self2 & ρ2 & σ2 & out' & gv2 & s2 & g2 & Hloop & Hplay2 & Hq' & Hw' & Hr').
    rewrite Hloop, bind_ret. eexists st', self2, ρ2, σ2, _, gv2, s2, g2.
    split_and!; [done..|by intros ?%Hq'; right|done|].
    intros -> _. destruct events as [|e' events]; [|by apply Hr'].
    simpl in Hloop. simplify_eq. intros Hfull.
    assert (g2 = g1) as ->.
    { destruct Hplay1 as (? & ? & _ & _ & _ & Hh1 & _ & _ & _ & _ & Hwf1 & _).
      destruct Hplay2 as (? & ? & _ & _ & _ & Hh2 & _ & _ & _ & _ & Hwf2 & _).
      by apply (holds_inj 9 σ2 (board self2)). }
    assert (Running = Won); [|done].
    apply Hw. split; [|done]. intros ->. by assert (Running = Quitted) by by apply Hq.
  - eexists Quitted, self1, ρ1, σ1, out, gv1, s1, g1.
    split_and!; [done..| |done|done]. intros _.
    assert (e = Quit) as -> by by apply Hq. left.
  - eexists Won, self1, ρ1, σ1, out, gv1, s1, g1. by split_and!.
Qed.

(** X16.  A run of [play] on a 9×9 game never raises, whatever the random
    source gives and whatever the player enters.  It stops as quit only
    after the player chose to quit, and as won only on a board that equals
    the solution; and while it runs on after a turn, the board has an empty
    cell.  At every stop the board has the givens of the current puzzle and
    no duplicate in a row, column or box. *)
Theorem play_never_fails self ρ σ difficulty events :
  size self = 9 →
  ∃ st self' ρ' σ' out gv s g,
    play rng shuffle self ρ σ difficulty events = Ok (st, self', ρ', σ', out) ∧
    playing self' σ' gv s g ∧
    (st = Quitted → Quit ∈ events) ∧
    (st = Won → g = s) ∧
    (st = Running → events ≠ [] → ¬ full 9 g).
Proof.
  intros Hsz. unfold play.
  destruct (generate_puzzle_playing self ρ σ difficulty Hsz)
    as (self1 & ρ1 & σ1 & gv1 & s1 & -> & Hplay1).
  rewrite bind_ret.
  destruct (play_loop_spec events self1 ρ1 σ1 gv1 s1 gv1 Hplay1)
    as (st & self2 & ρ2 & σ2 & out & gv2 & s2 & g2 & -> & Hplay2 & Hrest).
  rewrite bind_ret. by eexists st, self2, ρ2, σ2, _, gv2, s2, g2.
Qed.

End Game.

(** ** Games on concrete boards *)

Lemma extendsb_spec n g s : extendsb n g s = true → extends n g s.
Proof.
  intros H r c Hr Hc Hnz. pose proof (forallb_all_cells n _ H r c Hr Hc) as Hrc.
  simpl in Hrc. apply orb_true_iff in Hrc as [Hz%Z.eqb_eq|Heq%Z.eqb_eq]; done.
Qed.

Lemma count_puzzle9 :
  match _count_solutions (depth 9) (object_of 9 puzzle9).1 (object_of 9 puzzle9).2 None with
  | Ok (k, _) => k
  | Err _ => 0
  end = 1.
Proof. by vm_compute. Qed.

Lemma puzzle9_unique s : completion 9 puzzle9 s → s = solved9.
Proof.
  intros Hs. pose proof count_puzzle9 as Hc.
  destruct (object_of 9 puzzle9) as [self σ] eqn:Hobj.
  pose proof (object_of_holds _ _ _ _ Hobj) as [Hsz Hh].
  assert (wfg 9 puzzle9) as Hwf by (apply wfgb_spec; by vm_compute).
  assert (valid 9 puzzle9) as Hval by (apply validb_spec; by vm_compute).
  assert (inrange 9 puzzle9) as Hin by (apply inrangeb_spec; by vm_compute).
  destruct (count_solutions_clone_spec (depth 9) self σ puzzle9)
    as (k & σ' & Hcount & _ & Hk); rewrite ?Hsz; try done.
  rewrite Hsz in Hk. cbn [fst snd] in Hc. rewrite Hcount in Hc. subst k.
  destruct Hk as (s0 & _ & Huniq). rewrite (Huniq s) by done. symmetry. apply Huniq.
  split; [apply solved_solved9|]. apply extendsb_spec. by vm_compute.
Qed.

Lemma game_of_playing g :
  wfgb 9 g = true → validb 9 g = true → inrangeb 9 g = true →
  extendsb 9 puzzle9 g = true →
  playing (game_of g).1 (game_of g).2 puzzle9 solved9 g.
Proof.
  intros Hwf%wfgb_spec Hval%validb_spec Hin%inrangeb_spec Hext%extendsb_spec.
  unfold game_of.
  destruct (load ∅ g) as [brd σ1] eqn:Hl1.
  destruct (load σ1 solved9) as [sol σ2] eqn:Hl2.
  destruct (load σ2 puzzle9) as [orig σ3] eqn:Hl3.
  apply load_spec in Hl1 as (_ & Hh1 & _).
  apply load_spec in Hl2 as (Hsub2 & Hh2 & Hnew2).
  apply load_spec in Hl3 as (Hsub3 & Hh3 & Hnew3).
  exists sol, orig. cbn [fst snd size board solution original_puzzle].
  split_and!; try done.
  - eapply holds_weaken; [done|]. by eapply holds_weaken.
  - by eapply holds_weaken.
  - intros l Hl Hl'. destruct (holds_allocated _ _ _ _ Hh1 Hl) as [row Hrow].
    rewrite (Hnew2 l Hl') in Hrow. done.
  - intros l Hl Hl'. destruct (holds_allocated _ _ _ _ Hh1 Hl) as [row Hrow].
    pose proof (lookup_weaken _ _ _ _ Hrow Hsub2) as Hrow2.
    rewrite (Hnew3 l Hl') in Hrow2. done.
  - apply wfgb_spec. by vm_compute.
  - apply solved_solved9.
  - apply puzzle9_unique.
Qed.

Lemma make_move_never_empties_witness :
  ∃ σ' v', make_move (game_of puzzle9).1 (game_of puzzle9).2 0 2 4 = Ok (σ', None) ∧
           get σ' (board (game_of puzzle9).1) 0 0 = Ok v' ∧ v' ≠ 0%Z.
Proof.
  assert (match make_move (game_of puzzle9).1 (game_of puzzle9).2 0 2 4 with
          | Ok (_, None) => True
          | _ => False
          end) as Hm by (vm_compute; exact I).
  destruct (make_move (game_of puzzle9).1 (game_of puzzle9).2 0 2 4)
    as [[σ' [m|]]|e] eqn:Hmove; [destruct Hm| |destruct Hm].
  assert (get (game_of puzzle9).2 (board (game_of puzzle9).1) 0 0 = Ok 5%Z) as Hget
    by (vm_compute; reflexivity).
  destruct (make_move_never_empties _ _ _ _ _ _ _ 0 0 5%Z Hmove Hget) as (v' & Hget' & Hv');
    [lia|].
  exists σ', v'. split; [reflexivity|]. split; [exact Hget'|exact Hv'].
Defined.

Lemma make_move_keeps_rules_witness :
  ∃ σ' msg g',
    make_move (game_of puzzle9).1 (game_of puzzle9).2 0 2 4 = Ok (σ', msg) ∧
    playing (game_of puzzle9).1 σ' puzzle9 solved9 g' ∧
    ((σ' = (game_of puzzle9).2 ∧ g' = puzzle9 ∧ is_Some msg) ∨
     (msg = None ∧ g' = upd puzzle9 (Z.to_nat 0) (Z.to_nat 2) 4 ∧
      cell puzzle9 (Z.to_nat 0) (Z.to_nat 2) = 0%Z)).
Proof.
  apply make_move_keeps_rules. apply game_of_playing; by vm_compute.
Defined.

Lemma make_move_accepts_solution_witness :
  ∃ σ', make_move (game_of puzzle9).1 (game_of puzzle9).2 (Z.of_nat 0) (Z.of_nat 2)
          (cell solved9 0 2) = Ok (σ', None) ∧
        playing (game_of puzzle9).1 σ' puzzle9 solved9 (upd puzzle9 0 2 (cell solved9 0 2)) ∧
        extends 9 (upd puzzle9 0 2 (cell solved9 0 2)) solved9.
Proof.
  apply make_move_accepts_solution.
  - apply game_of_playing; by vm_compute.
  - apply extendsb_spec. by vm_compute.
  - lia.
  - lia.
  - by vm_compute.
Defined.

Lemma full_board_wins_witness :
  solved9 = solved9 ∧
  equals_solution (game_of solved9).1 (game_of solved9).2 = Ok true ∧
  ∃ out, win_check (game_of solved9).1 (game_of solved9).2 = Ok (true, out).
Proof.
  apply (full_board_wins _ _ puzzle9).
  - apply game_of_playing; by vm_compute.
  - by vm_compute.
Defined.

Lemma play_never_fails_witness :
  ∃ st self' ρ' σ' out gv s g,
    play unit no_shuffle new_game.1 () new_game.2 "easy" [Move 1 1 5; Check; Quit]
      = Ok (st, self', ρ', σ', out) ∧
    playing self' σ' gv s g ∧
    (st = Quitted → Quit ∈ [Move 1 1 5; Check; Quit]) ∧
    (st = Won → g = s) ∧
    (st = Running → [Move 1 1 5; Check; Quit] ≠ [] → ¬ full 9 g).
Proof.
  exact (play_never_fails unit no_shuffle no_shuffle_perm new_game.1 () new_game.2
           "easy" [Move 1 1 5; Check; Quit] ltac:(by vm_compute)).
Defined.

(** ** What is printed, and the action [c] *)

Lemma has_char_app a s1 s2 :
  has_char a (s1 +:+ s2) = has_char a s1 || has_char a s2.
Proof.
  induction s1 as [|b s1 IH]; [done|]. simpl. by rewrite IH, orb_assoc.
Qed.




Lemma print_lines_newline n σ brd i rows text :
  print_lines n σ brd (i :: rows) = Ok text →
  has_char (Ascii.ascii_of_nat 10) text = true.
Proof.
  simpl. intros (line & _ & (rest & _ & [= <-])%bind_Ok)%bind_Ok.
  rewrite !has_char_app. replace (has_char _ nl) with true by done.
  by rewrite !orb_true_r.
Qed.

Lemma print_board_not_check_passed self σ board_arg text :
  size self = 9 → print_board self σ board_arg = Ok text → text ≠ check_passed.
Proof.
  unfold print_board. intros -> Hprint%print_lines_newline ->. by vm_compute in Hprint.
Qed.



(** A solved grid with one cell emptied has one completion. *)
Lemma single_hole_unique s r c s' :
  solved 9 s → r < 9 → c < 9 → completion 9 (upd s r c 0%Z) s' → s' = s.
Proof.
  intros Hs Hr Hc [Hs' Hext].
  pose proof Hs as (Hwf & Hfull & Hval & Hin).
  pose proof Hs' as (Hwf' & Hfull' & Hval' & Hin').
  assert (∀ r' c', r' < 9 → c' < 9 → (r', c') ≠ (r, c) → cell s' r' c' = cell s r' c')
    as Hoff.
  { intros r' c' Hr' Hc' Hne. specialize (Hext r' c' Hr' Hc').
    rewrite cell_upd_ne in Hext by done. apply Hext. by apply Hfull. }
  apply (grid_eq 9); [done..|]. intros r' c' Hr' Hc'.
  destruct (decide ((r', c') = (r, c))) as [[= -> ->]|Hne]; [|by apply Hoff].
  destruct (solved_units s Hs) as (Hrows & _ & _).
  assert (cell s' r c ∈ values s (row_cells 9 r)) as Hrow.
  { rewrite (Hrows r Hr). apply elem_of_nums.
    specialize (Hfull' r c Hr Hc). specialize (Hin' r c Hr Hc). lia. }
  unfold values, row_cells in Hrow.
  apply list_elem_of_fmap in Hrow as (p & Hv & (c2 & -> & Hc2%elem_of_seq)%list_elem_of_fmap).
  simpl in Hv. destruct (decide (c2 = c)) as [->|Hne]; [done|].
  exfalso. apply (Hval' r c r c2); [done|done|done|lia|congruence|by left|by apply Hfull'|].
  rewrite Hoff; [done|done|lia|congruence].
Qed.

Lemma squares_to_remove_pos difficulty : 0 < squares_to_remove difficulty.
Proof. unfold squares_to_remove. repeat case_match; lia. Qed.

Lemma generated_not_full target self σ gv s :
  generated target self σ gv s → 0 < target → ¬ full 9 gv.
Proof.
  intros (sol & orig & _ & _ & _ & _ & _ & _ & _ & Hwf & Hs & Hext & Huniq & Hle & Hamb)
    Ht Hfull.
  assert (s = gv) as <-.
  { apply (grid_eq 9); [by destruct Hs|done|]. intros r c Hr Hc.
    apply Hext; [done..|by apply Hfull]. }
  rewrite (empties_full 9 s Hfull) in Hamb.
  destruct (Hamb Ht 0 0) as (s1 & s2 & Hs1 & Hs2 & Hne); [lia|lia|apply Hfull; lia|].
  apply Hne. rewrite (single_hole_unique s 0 0 s1), (single_hole_unique s 0 0 s2); done || lia.
Qed.

Lemma make_move_not_check_passed self σ row col val σ' msg :
  make_move self σ row col val = Ok (σ', Some msg) → msg ≠ check_passed.
Proof.
  unfold make_move. intros Hmove.
  destruct (_ && _)%bool; [|by simplify_eq].
  apply bind_Ok in Hmove as (orig & _ & Hmove).
  apply bind_Ok in Hmove as (w & _ & Hmove).
  destruct (negb _); [by simplify_eq|].
  apply bind_Ok in Hmove as (ok & _ & Hmove).
  destruct ok; [|by simplify_eq].
  apply bind_Ok in Hmove as (σ1 & _ & Hmove). by simplify_eq.
Qed.

Ltac lines :=
  repeat (rewrite not_elem_of_app || rewrite not_elem_of_cons); split_and?;
  try apply not_elem_of_nil; try done; try congruence.

Lemma win_check_not_check_passed self σ won out :
  size self = 9 → win_check self σ = Ok (won, out) → check_passed ∉ out.
Proof.
  intros Hsz. unfold win_check. intros (cl & _ & Hrest)%bind_Ok.
  destruct cl; [simplify_eq; apply not_elem_of_nil|].
  apply bind_Ok in Hrest as (eq & _ & Hrest).
  destruct eq; [|simplify_eq; apply not_elem_of_nil].
  apply bind_Ok in Hrest as (text & Htext & Hrest). simplify_eq.
  apply not_elem_of_cons. split; [done|].
  apply not_elem_of_cons. split; [|apply not_elem_of_nil].
  intros Heq. by eapply print_board_not_check_passed.
Qed.

Section Session.
Context (rng : Type) (shuffle : ∀ A : Type, rng → list A → list A * rng).
Hypothesis shuffle_perm : ∀ A (ρ : rng) (l : list A), (shuffle A ρ l).1 ≡ₚ l.

Lemma generate_puzzle_starts self ρ σ difficulty :
  size self = 9 →
  ∃ self' ρ' σ' gv s,
    generate_puzzle rng shuffle self ρ σ difficulty = Ok (self', ρ', σ') ∧
    playing self' σ' gv s gv ∧ ¬ full 9 gv.
Proof.
  intros Hsz.
  destruct (generate_puzzle_playing rng shuffle shuffle_perm self ρ σ difficulty Hsz)
    as (self1 & ρ1 & σ1 & gv & s & Hgen & Hplay).
  destruct (generate_puzzle_spec rng shuffle shuffle_perm self ρ σ difficulty Hsz)
    as (self2 & ρ2 & σ2 & gv2 & s2 & Hgen2 & Hgend).
  rewrite Hgen in Hgen2. simplify_eq.
  exists self2, ρ2, σ2, gv, s. split_and!; [done..|].
  assert (gv2 = gv) as <-.
  { destruct Hplay as (? & ? & _ & _ & _ & Hh & _ & _ & _ & _ & Hwf & _).
    destruct Hgend as (? & ? & _ & _ & _ & Hh2 & _ & _ & _ & Hwf2 & _).
    by eapply (holds_inj 9). }
  eapply generated_not_full; [done|apply squares_to_remove_pos].
Qed.

(** X18.  A new puzzle is never handed out complete: on a 9×9 game, whatever
    the random source gives and whatever the difficulty, [generate_puzzle]
    returns with at least one empty cell on the board, so the board differs
    from [solution] and the game does not end before the first turn. *)
Theorem generate_puzzle_leaves_empty self ρ σ difficulty :
  size self = 9 →
  ∃ self' ρ' σ' r c,
    generate_puzzle rng shuffle self ρ σ difficulty = Ok (self', ρ', σ') ∧
    find_empty_cell (size self') σ' (board self') = Ok (Some (r, c)) ∧
    equals_solution self' σ' = Ok false ∧
    win_check self' σ' = Ok (false, []).
Proof.
  intros Hsz.
  destruct (generate_puzzle_starts self ρ σ difficulty Hsz)
    as (self' & ρ' & σ' & gv & s & Hgen & Hplay & Hnfull).
  pose proof Hplay as (sol & orig & Hsz' & _ & _ & _ & _ & _ & _ & _ & _ & _ & Hs & _).
  destruct (playing_find_empty _ _ _ _ _ Hplay) as [[_ Hfull]|(r & c & Hf & _)]; [done|].
  exists self', ρ', σ', r, c. rewrite Hsz'. split_and!; [done..| |].
  - rewrite (playing_equals_solution self' σ' gv s gv Hplay).
    rewrite bool_decide_eq_false_2; [done|]. intros ->. by destruct Hs as (_ & ? & _).
  - unfold win_check. by rewrite Hsz', Hf.
Qed.

Lemma play_step_check_fails self ρ σ gv s g e st self' ρ' σ' out :
  playing self σ gv s g → ¬ full 9 g →
  play_step rng shuffle self ρ σ e = Ok (st, self', ρ', σ', out) →
  check_passed ∉ out.
Proof.
  intros Hplay Hnfull.
  pose proof Hplay as (sol & orig & Hsz & _ & _ & _ & _ & _ & _ & _ & _ & _ & Hs & _).
  unfold play_step. intros (text & Htext & Hstep)%bind_Ok.
  pose proof (print_board_not_check_passed self σ None text Hsz Htext) as Hne.
  revert Hstep.
  assert (∀ self1 (ρ1 : rng) σ1 (out1 : list string),
    size self1 = 9 → check_passed ∉ out1 →
    (win_check self1 σ1 ≫= λ '(won, out'),
       Ok (if won : bool then Won else Running, self1, ρ1, σ1,
           [nl +:+ "Current board:"; text] ++ out1 ++ out'))
      = Ok (st, self', ρ', σ', out) →
    check_passed ∉ out) as Hend.
  { intros self1 ρ1 σ1 out1 Hsz1 Hout1 ([won out'] & Hwin & Hres)%bind_Ok.
    apply (win_check_not_check_passed _ _ _ _ Hsz1) in Hwin.
    injection Hres as _ _ _ _ <-. lines. }
  intros Hstep. destruct e as [|difficulty| |row col val| |].
  - injection Hstep as _ _ _ _ <-. lines.
  - apply bind_Ok in Hstep as ([[[self1 ρ1] σ1] out1] & Hnew & Hstep).
    apply bind_Ok in Hnew as ([[self2 ρ2] σ2] & Hgen & Hnew).
    injection Hnew as <- <- <- <-.
    destruct (generate_puzzle_playing rng shuffle shuffle_perm self ρ σ difficulty Hsz)
      as (self3 & ρ3 & σ3 & gv3 & s3 & Hgen3 & Hplay3).
    rewrite Hgen in Hgen3. injection Hgen3 as <- <- <-.
    destruct Hplay3 as (? & ? & Hsz3 & _).
    eapply Hend; [exact Hsz3|apply not_elem_of_nil|exact Hstep].
  - apply bind_Ok in Hstep as ([[[self1 ρ1] σ1] out1] & Hcheck & Hstep).
    rewrite (playing_equals_solution self σ gv s g Hplay) in Hcheck.
    rewrite bool_decide_eq_false_2 in Hcheck.
    2:{ intros ->. by destruct Hs as (_ & ? & _). }
    rewrite bind_ret in Hcheck. injection Hcheck as <- <- <- <-.
    eapply Hend; [exact Hsz| |exact Hstep]. lines.
  - apply bind_Ok in Hstep as ([[[self1 ρ1] σ1] out1] & Hmove & Hstep).
    apply bind_Ok in Hmove as ([σ2 msg] & Hmove & Hres).
    injection Hres as <- <- <- <-.
    eapply Hend; [exact Hsz| |exact Hstep].
    destruct msg as [m|]; [|apply not_elem_of_nil].
    apply make_move_not_check_passed in Hmove. simpl. lines.
  - apply bind_Ok in Hstep as ([[[self1 ρ1] σ1] out1] & Hres & Hstep).
    injection Hres as <- <- <- <-.
    eapply Hend; [exact Hsz| |exact Hstep]. lines.
  - apply bind_Ok in Hstep as ([[[self1 ρ1] σ1] out1] & Hres & Hstep).
    injection Hres as <- <- <- <-.
    eapply Hend; [exact Hsz|apply not_elem_of_nil|exact Hstep].
Qed.

Lemma play_loop_check_fails events self ρ σ gv s g st self' ρ' σ' out :
  playing self σ gv s g → ¬ full 9 g →
  play_loop rng shuffle self ρ σ events = Ok (st, self', ρ', σ', out) →
  check_passed ∉ out.
Proof.
  revert self ρ σ gv s g out.
  induction events as [|e events IH]; intros self ρ σ gv s g out Hplay Hnfull.
  { cbn [play_loop]. intros Hres. injection Hres as _ _ _ _ <-. apply not_elem_of_nil. }
  cbn [play_loop].
  destruct (play_step_spec rng shuffle shuffle_perm self ρ σ gv s g e Hplay)
    as (st1 & self1 & ρ1 & σ1 & out1 & gv1 & s1 & g1 & Hstep & Hplay1 & Hq & Hw & _).
  pose proof (play_step_check_fails _ _ _ _ _ _ _ _ _ _ _ _ Hplay Hnfull Hstep) as Hout1.
  rewrite Hstep, bind_ret.
  destruct st1; [|intros ?; by simplify_eq..].
  intros ([[[[st2 self2] ρ2] σ2] out2] & Hloop & Hres)%bind_Ok. simplify_eq.
  apply not_elem_of_app. split; [done|].
  eapply (IH self1 ρ1 σ1 gv1 s1 g1); [done| |done].
  intros Hfull. assert (e ≠ Quit) as Hne.
  { intros ->. by destruct Hq as [_ Hq]; specialize (Hq eq_refl). }
  by destruct Hw as [_ Hw]; specialize (Hw (conj Hne Hfull)).
Qed.

(** X19.  The action [c] never reports success.  In every run of [play] on a
    9×9 game, whatever the random source gives and whatever the player
    enters, the run returns and the line ["Congratulations! You've solved
    the puzzle correctly."] is not among the lines printed: at the start of
    a turn the board never equals [solution], because a new puzzle has an
    empty cell and the loop ends as soon as the board is the solution. *)
Theorem check_never_passes self ρ σ difficulty events :
  size self = 9 →
  ∃ st self' ρ' σ' out,
    play rng shuffle self ρ σ difficulty events = Ok (st, self', ρ', σ', out) ∧
    check_passed ∉ out.
Proof.
  intros Hsz. unfold play.
  destruct (generate_puzzle_starts self ρ σ difficulty Hsz)
    as (self1 & ρ1 & σ1 & gv & s & -> & Hplay & Hnfull).
  rewrite bind_ret.
  destruct (play_loop_spec rng shuffle shuffle_perm events self1 ρ1 σ1 gv s gv Hplay)
    as (st & self2 & ρ2 & σ2 & out & gv2 & s2 & g2 & Hloop & _).
  rewrite Hloop, bind_ret. eexists st, self2, ρ2, σ2, _. split; [done|].
  apply not_elem_of_cons. split; [done|].
  by eapply play_loop_check_fails.
Qed.

End Session.

Lemma generate_puzzle_leaves_empty_witness :
  ∃ self' ρ' σ' r c,
    generate_puzzle unit no_shuffle new_game.1 () new_game.2 "hard" = Ok (self', ρ', σ') ∧
    find_empty_cell (size self') σ' (board self') = Ok (Some (r, c)) ∧
    equals_solution self' σ' = Ok false ∧
    win_check self' σ' = Ok (false, []).
Proof.
  exact (generate_puzzle_leaves_empty unit no_shuffle no_shuffle_perm new_game.1 ()
           new_game.2 "hard" ltac:(vm_compute; reflexivity)).
Defined.

Lemma check_never_passes_witness :
  ∃ st self' ρ' σ' out,
    play unit no_shuffle new_game.1 () new_game.2 "easy" [Check; Move 1 1 5; Check; Quit]
      = Ok (st, self', ρ', σ', out) ∧
    check_passed ∉ out.
Proof.
  exact (check_never_passes unit no_shuffle no_shuffle_perm new_game.1 () new_game.2
           "easy" [Check; Move 1 1 5; Check; Quit] ltac:(vm_compute; reflexivity)).
Defined.
